(** * PABLO language core: pgraph codec, builder, tokenizer, segmenter,
    vocabulary and graph annotation.

    Shallow embedding of [brain/language/graph_builder.py],
    [brain/language/tokenizer.py], [brain/language/sentences.py] and
    [brain/language/morph.py].

    Conventions:
    - Python [bytes] are lists of [Z] (each in [0, 256)).
    - Python [str] are lists of [Z] code points.
    - Python ints are [Z] (or [nat] for list indices and offsets).
    - Raised exceptions are the [Err] constructor of [result]. *)

From Stdlib Require Import ZArith Lia.
From Stdlib Require Strings.Ascii.
From stdpp Require Import base list gmap strings.

Open Scope Z_scope.

(* ------------------------------------------------------------------ *)
(** ** Errors *)

(** The exceptions raised by the modelled functions. *)
Inductive err :=
  | ErrNegativeVarint      (* ValueError: uvarint cannot encode negative values *)
  | ErrTruncatedVarint     (* ValueError: uvarint: truncated input *)
  | ErrVarintTooLarge      (* ValueError: uvarint: value too large *)
  | ErrIndex               (* IndexError: buf[i] out of range *)
  | ErrMagic               (* ValueError: Invalid magic *)
  | ErrTruncatedFeatures   (* ValueError: Truncated g_features *)
  | ErrThumbnailLength.    (* ValueError: g_features must be 64 or 128 bytes *)

Inductive result (A : Type) :=
  | Ok (a : A)
  | Err (e : err).
Arguments Ok {A} a.
Arguments Err {A} e.

Definition rbind {A B} (m : result A) (k : A -> result B) : result B :=
  match m with Ok a => k a | Err e => Err e end.

Notation "x <- m ;; k" := (rbind m (fun x => k))
  (at level 100, m at level 99, right associativity).

(* ------------------------------------------------------------------ *)
(** ** Varint utilities (unsigned base-128) *)

(** Loop body of [_uvarint_encode]; [fuel] bounds the [while True] loop
    (it is always larger than the number of bytes produced, see
    [uvarint_encode]). *)
Fixpoint uvarint_encode_loop (fuel : nat) (value : Z) : list Z :=
  match fuel with
  | O => []
  | S fuel' =>
      let b := Z.land value 127 in
      let value' := Z.shiftr value 7 in
      if negb (value' =? 0) then Z.lor b 128 :: uvarint_encode_loop fuel' value'
      else [b]
  end.

(** [_uvarint_encode]: raises on negative values. *)
Definition uvarint_encode (value : Z) : result (list Z) :=
  if value <? 0 then Err ErrNegativeVarint
  else Ok (uvarint_encode_loop (S (Z.to_nat (Z.log2 value))) value).

(** Loop of [_uvarint_decode].  The Python loop raises as soon as
    [shift > 63], that is after at most 10 bytes, so 10 rounds of
    [fuel] are exactly the rounds the loop can make. *)
Fixpoint uvarint_decode_loop (buf : list Z) (fuel : nat) (shift value : Z) (i : nat)
  : result (Z * nat) :=
  match fuel with
  | O => Err ErrVarintTooLarge
  | S fuel' =>
      match buf !! i with
      | None => Err ErrTruncatedVarint
      | Some b =>
          let value' := Z.lor value (Z.shiftl (Z.land b 127) shift) in
          if Z.land b 128 =? 0 then Ok (value', S i)
          else
            let shift' := shift + 7 in
            if shift' >? 63 then Err ErrVarintTooLarge
            else uvarint_decode_loop buf fuel' shift' value' (S i)
      end
  end.

(** [_uvarint_decode(buf, offset)] returns [(value, new_offset)]. *)
Definition uvarint_decode (buf : list Z) (offset : nat) : result (Z * nat) :=
  uvarint_decode_loop buf 10 0 0 offset.

(* ------------------------------------------------------------------ *)
(** ** Core data shapes *)

Module Node.
Record t := mk {
  node_id : Z;
  n_type : Z;
  sub_type : Z;
  features_ref : Z;
  span : Z * Z;
  flags : Z;
  confidence : Z;
  label_id : Z
}.
End Node.

Module Edge.
Record t := mk {
  src_id : Z;
  dst_id : Z;
  e_type : Z;
  weight : Z;
  time : Z;
  flags : Z;
  confidence : Z;
  attr_ref : Z
}.
End Edge.

(** [Graph], parametrised by what its [nodes] list holds: node values
    ([Node.t]) for the codec, or references to node objects for the
    in-place annotation pass. *)
Record GraphOf (N : Type) := mkGraph {
  graph_id : Z;
  graph_type : Z;
  num_nodes : Z;
  num_edges : Z;
  g_features : option (list Z);
  source_id : Z;
  version : Z;
  schema_id : Z;
  nodes : list N;
  edges : list Edge.t
}.
Arguments mkGraph {N}.
Arguments graph_id {N}. Arguments graph_type {N}. Arguments num_nodes {N}.
Arguments num_edges {N}. Arguments g_features {N}. Arguments source_id {N}.
Arguments version {N}. Arguments schema_id {N}. Arguments nodes {N}.
Arguments edges {N}.

Definition Graph := GraphOf Node.t.

(* ------------------------------------------------------------------ *)
(** ** encode_pgraph *)

Definition PG_MAGIC : list Z := [80; 71; 82; 65].  (* b"PGRA" *)

(** [(x & 0xFFFF).to_bytes(2, "little")] *)
Definition u16_le (x : Z) : list Z :=
  let v := Z.land x 65535 in [Z.land v 255; Z.shiftr v 8].

(** [out += _uvarint_encode(v)] *)
Definition put_uvarint (out : list Z) (v : Z) : result (list Z) :=
  bs <- uvarint_encode v ;; Ok (out ++ bs).

(** [out.append(x & 0xFF)] *)
Definition put_byte (out : list Z) (x : Z) : list Z := out ++ [Z.land x 255].

Definition encode_node (out : list Z) (n : Node.t) : result (list Z) :=
  out <- put_uvarint out (Node.node_id n) ;;
  let out := put_byte out (Node.n_type n) in
  let out := put_byte out (Node.sub_type n) in
  out <- put_uvarint out (Node.features_ref n) ;;
  out <- put_uvarint out (fst (Node.span n)) ;;
  out <- put_uvarint out (snd (Node.span n)) ;;
  let out := out ++ u16_le (Node.flags n) in
  let out := put_byte out (Node.confidence n) in
  put_uvarint out (Node.label_id n).

Definition encode_edge (out : list Z) (e : Edge.t) : result (list Z) :=
  out <- put_uvarint out (Edge.src_id e) ;;
  out <- put_uvarint out (Edge.dst_id e) ;;
  let out := put_byte out (Edge.e_type e) in
  let out := put_byte out (Edge.weight e) in
  out <- put_uvarint out (Edge.time e) ;;
  let out := out ++ u16_le (Edge.flags e) in
  let out := put_byte out (Edge.confidence e) in
  put_uvarint out (Edge.attr_ref e).

(** [for x in xs: out = enc(out, x)] *)
Fixpoint encode_all {A} (enc : list Z -> A -> result (list Z)) (out : list Z) (xs : list A)
  : result (list Z) :=
  match xs with
  | [] => Ok out
  | x :: xs' => out <- enc out x ;; encode_all enc out xs'
  end.

Definition encode_pgraph (g : Graph) : result (list Z) :=
  let out := PG_MAGIC in
  out <- put_uvarint out (graph_id g) ;;
  let out := put_byte out (graph_type g) in
  out <- put_uvarint out (num_nodes g) ;;
  out <- put_uvarint out (num_edges g) ;;
  out <- put_uvarint out (source_id g) ;;
  out <- put_uvarint out (version g) ;;
  let out := put_byte out (schema_id g) in
  out <- encode_all encode_node out (nodes g) ;;
  out <- encode_all encode_edge out (edges g) ;;
  (* feat = g.g_features or an empty bytes value *)
  let feat := match g_features g with Some f => f | None => [] end in
  out <- put_uvarint out (Z.of_nat (length feat)) ;;
  Ok (match feat with [] => out | _ => out ++ feat end).

(* ------------------------------------------------------------------ *)
(** ** decode_pgraph *)

(** A reader over a fixed buffer: the position [i] is the state. *)
Definition Dec (A : Type) := nat -> result (A * nat).

Definition dret {A} (x : A) : Dec A := fun i => Ok (x, i).
Definition dbind {A B} (m : Dec A) (k : A -> Dec B) : Dec B :=
  fun i => match m i with Ok (x, i') => k x i' | Err e => Err e end.

Notation "x <-- m ;;; k" := (dbind m (fun x => k))
  (at level 100, m at level 99, right associativity).

(** [int.from_bytes(bs, "little")] *)
Fixpoint int_from_bytes_le (bs : list Z) : Z :=
  match bs with [] => 0 | b :: bs' => b + 256 * int_from_bytes_le bs' end.

Section Reader.
Variable buf : list Z.

(** [v, i = _uvarint_decode(buf, i)] *)
Definition read_uvarint : Dec Z := fun i => uvarint_decode buf i.

(** [v = buf[i]; i += 1] *)
Definition read_byte : Dec Z :=
  fun i => match buf !! i with Some b => Ok (b, S i) | None => Err ErrIndex end.

(** [v = int.from_bytes(buf[i:i+2], "little"); i += 2]: a slice never
    raises, whatever is left of the buffer. *)
Definition read_u16_le : Dec Z :=
  fun i => Ok (int_from_bytes_le (take 2 (drop i buf)), (i + 2)%nat).

Definition decode_node : Dec Node.t :=
  node_id <-- read_uvarint ;;;
  n_type <-- read_byte ;;;
  sub_type <-- read_byte ;;;
  features_ref <-- read_uvarint ;;;
  span0 <-- read_uvarint ;;;
  span1 <-- read_uvarint ;;;
  flags <-- read_u16_le ;;;
  confidence <-- read_byte ;;;
  label_id <-- read_uvarint ;;;
  dret (Node.mk node_id n_type sub_type features_ref (span0, span1) flags
          confidence label_id).

Definition decode_edge : Dec Edge.t :=
  src_id <-- read_uvarint ;;;
  dst_id <-- read_uvarint ;;;
  e_type <-- read_byte ;;;
  weight <-- read_byte ;;;
  time <-- read_uvarint ;;;
  flags <-- read_u16_le ;;;
  confidence <-- read_byte ;;;
  attr_ref <-- read_uvarint ;;;
  dret (Edge.mk src_id dst_id e_type weight time flags confidence attr_ref).

(** [for _ in range(count): xs.append(dec())] *)
Fixpoint decode_many {A} (dec : Dec A) (count : nat) : Dec (list A) :=
  match count with
  | O => dret []
  | S count' => x <-- dec ;;; xs <-- decode_many dec count' ;;; dret (x :: xs)
  end.

(** The adjunct section: [feat_len] then that many raw bytes. *)
Definition decode_features : Dec (option (list Z)) :=
  feat_len <-- read_uvarint ;;;
  if negb (feat_len =? 0) then
    fun i =>
      let g := take (Z.to_nat feat_len) (drop i buf) in
      if negb (Z.of_nat (length g) =? feat_len) then Err ErrTruncatedFeatures
      else Ok (Some g, (i + Z.to_nat feat_len)%nat)
  else dret None.

Definition decode_body : Dec Graph :=
  graph_id <-- read_uvarint ;;;
  graph_type <-- read_byte ;;;
  num_nodes <-- read_uvarint ;;;
  num_edges <-- read_uvarint ;;;
  source_id <-- read_uvarint ;;;
  version <-- read_uvarint ;;;
  schema_id <-- read_byte ;;;
  nodes <-- decode_many decode_node (Z.to_nat num_nodes) ;;;
  edges <-- decode_many decode_edge (Z.to_nat num_edges) ;;;
  g_features <-- decode_features ;;;
  dret (mkGraph graph_id graph_type (Z.of_nat (length nodes))
          (Z.of_nat (length edges)) g_features source_id version schema_id
          nodes edges).
End Reader.

Definition decode_pgraph (buf : list Z) : result Graph :=
  if negb (bool_decide (take 4 buf = PG_MAGIC)) then Err ErrMagic
  else
    match decode_body buf 4%nat with
    | Ok (g, _) => Ok g
    | Err e => Err e
    end.

(* ------------------------------------------------------------------ *)
(** ** GraphBuilder *)

(** The builder's slots ([__slots__]). *)
Record GraphBuilder := mkBuilder {
  gb_graph_id : Z;
  gb_graph_type : Z;
  gb_source_id : Z;
  gb_version : Z;
  gb_schema_id : Z;
  gb_nodes : list Node.t;
  gb_edges : list Edge.t;
  gb_features : option (list Z)
}.

Definition add_node (gb : GraphBuilder) (n_type sub_type label_id : Z) (span : Z * Z)
    (flags confidence features_ref : Z) : Z * GraphBuilder :=
  let node_id := Z.of_nat (length (gb_nodes gb)) in
  (node_id,
   mkBuilder (gb_graph_id gb) (gb_graph_type gb) (gb_source_id gb) (gb_version gb)
     (gb_schema_id gb)
     (gb_nodes gb ++ [Node.mk node_id n_type sub_type features_ref span flags
                        confidence label_id])
     (gb_edges gb) (gb_features gb)).

(** [set_thumbnail(features)]: the method either raises (and leaves the
    builder as it was) or stores [features]; the pair is the outcome of the
    call and the builder state after it. *)
Definition set_thumbnail (gb : GraphBuilder) (features : option (list Z))
  : result unit * GraphBuilder :=
  match features with
  | Some f =>
      if negb (bool_decide (length f = 64%nat) || bool_decide (length f = 128%nat))
      then (Err ErrThumbnailLength, gb)
      else (Ok tt, mkBuilder (gb_graph_id gb) (gb_graph_type gb) (gb_source_id gb)
                     (gb_version gb) (gb_schema_id gb) (gb_nodes gb) (gb_edges gb)
                     features)
  | None =>
      (Ok tt, mkBuilder (gb_graph_id gb) (gb_graph_type gb) (gb_source_id gb)
                (gb_version gb) (gb_schema_id gb) (gb_nodes gb) (gb_edges gb) None)
  end.

Definition finalize (gb : GraphBuilder) : Graph :=
  mkGraph (gb_graph_id gb) (gb_graph_type gb) (Z.of_nat (length (gb_nodes gb)))
    (Z.of_nat (length (gb_edges gb))) (gb_features gb) (gb_source_id gb)
    (gb_version gb) (gb_schema_id gb) (gb_nodes gb) (gb_edges gb).

(* ------------------------------------------------------------------ *)
(** ** Tokenizer *)

Module Token.
Record t := mk {
  idx : nat;
  text : list Z;
  start : nat;
  end_ : nat;   (* [end] in the source *)
  flags : Z
}.
End Token.

Definition TF_CAP : Z := 1.
Definition TF_PUNCT : Z := 2.
Definition TF_NUM : Z := 4.
Definition TF_SENT_END_STRONG : Z := 8.
Definition TF_SENT_END_WEAK : Z := 16.

(** [flags & bit] is non-zero. *)
Definition has_flag (flags bit : Z) : bool := negb (Z.land flags bit =? 0).

(** The Unicode predicates [str.isdigit], [str.isalpha] and [str.isupper]
    on one code point.  They are a parameter of the tokenizer; only their
    ASCII part is pinned down ([db_ascii_ok]). *)
Record UnicodeDB := mkUnicodeDB {
  u_isdigit : Z -> bool;
  u_isalpha : Z -> bool;
  u_isupper : Z -> bool
}.

Definition in_range (lo hi c : Z) : bool := (lo <=? c) && (c <=? hi).
Definition is_ascii_upper (c : Z) : bool := in_range 65 90 c.
Definition is_ascii_lower (c : Z) : bool := in_range 97 122 c.
Definition is_ascii_alpha (c : Z) : bool := is_ascii_upper c || is_ascii_lower c.
Definition is_ascii_digit (c : Z) : bool := in_range 48 57 c.
(** [[A-Za-z0-9]] *)
Definition is_alnum (c : Z) : bool := is_ascii_alpha c || is_ascii_digit c.

Definition db_ascii_ok (db : UnicodeDB) : Prop :=
  forall c, 0 <= c < 128 ->
    u_isdigit db c = is_ascii_digit c /\
    u_isalpha db c = is_ascii_alpha c /\
    u_isupper db c = is_ascii_upper c.

(** Python's [\s] on [str] patterns ([str.isspace]). *)
Definition is_space (c : Z) : bool :=
  in_range 9 13 c || in_range 28 32 c || (c =? 133) || (c =? 160) ||
  (c =? 5760) || in_range 8192 8202 c || (c =? 8232) || (c =? 8233) ||
  (c =? 8239) || (c =? 8287) || (c =? 12288).

Definition mem (c : Z) (cs : list Z) : bool := existsb (Z.eqb c) cs.

(** [[A-Za-z0-9._%+\-]] *)
Definition is_email_local (c : Z) : bool := is_alnum c || mem c [46; 95; 37; 43; 45].
(** [[A-Za-z0-9.\-]] *)
Definition is_email_domain (c : Z) : bool := is_alnum c || mem c [46; 45].
(** [[A-Za-z0-9_]] *)
Definition is_handle_char (c : Z) : bool := is_alnum c || (c =? 95).
(** [[’'\-]] *)
Definition is_word_sep (c : Z) : bool := mem c [8217; 39; 45].
(** [_PUNCT]: the single punctuation characters (ASCII double quote,
    curly quotes, dashes, brackets and terminal marks). *)
Definition PUNCT_CHARS : list Z :=
  [46; 44; 63; 33; 59; 58; 40; 41; 91; 93; 123; 125; 34; 8220; 8221; 8216; 8217;
   8212; 8211; 45].

(** Length of the longest prefix whose characters satisfy [p] (a greedy
    [p+] or [p*]). *)
Fixpoint count_while (p : Z -> bool) (s : list Z) : nat :=
  match s with c :: s' => if p c then S (count_while p s') else O | [] => O end.

Fixpoint is_prefix (pre s : list Z) : bool :=
  match pre, s with
  | [], _ => true
  | c :: pre', d :: s' => (c =? d) && is_prefix pre' s'
  | _ :: _, [] => false
  end.

(** Each matcher gives the length of the match of its alternative at the
    start of [s] (Python [re] backtracking semantics), or [None]. *)

(** [https?://\S+|www\.\S+] *)
Definition match_url (s : list Z) : option nat :=
  let rest n := count_while (fun c => negb (is_space c)) (drop n s) in
  let http :=
    if is_prefix [104; 116; 116; 112; 115; 58; 47; 47] s then   (* https:// *)
      (if (rest 8%nat =? 0)%nat then None else Some (8 + rest 8%nat)%nat)
    else if is_prefix [104; 116; 116; 112; 58; 47; 47] s then  (* http:// *)
      (if (rest 7%nat =? 0)%nat then None else Some (7 + rest 7%nat)%nat)
    else None in
  match http with
  | Some n => Some n
  | None =>
      if is_prefix [119; 119; 119; 46] s then   (* www. *)
        (if (rest 4%nat =? 0)%nat then None else Some (4 + rest 4%nat)%nat)
      else None
  end.

(** Backtracking of the greedy domain part [[A-Za-z0-9.\-]+] of the email
    pattern: try domain lengths [d, d-1, ..., 1]; the first one followed by
    [\.[A-Za-z]{2,}] wins.  Returns the length of domain, dot and letters. *)
Fixpoint email_domain_back (dom : list Z) (d : nat) : option nat :=
  match d with
  | O => None
  | S d' =>
      let tld := count_while is_ascii_alpha (drop (S d) dom) in
      if bool_decide (dom !! d = Some 46) && (2 <=? tld)%nat
      then Some (d + 1 + tld)%nat
      else email_domain_back dom d'
  end.

(** [[A-Za-z0-9._%+\-]+@[A-Za-z0-9.\-]+\.[A-Za-z]{2,}]; the local part
    cannot give back characters ([@] is not in its class). *)
Definition match_email (s : list Z) : option nat :=
  let l := count_while is_email_local s in
  if (l =? 0)%nat then None
  else if negb (bool_decide (s !! l = Some 64)) then None
  else
    let dom := drop (S l) s in
    match email_domain_back dom (count_while is_email_domain dom) with
    | Some m => Some (S l + m)%nat
    | None => None
    end.

(** [[@#][A-Za-z0-9_]+] *)
Definition match_handle (s : list Z) : option nat :=
  match s with
  | c :: s' =>
      if mem c [64; 35] then
        let n := count_while is_handle_char s' in
        if (n =? 0)%nat then None else Some (S n)
      else None
  | [] => None
  end.

(** [(?:…|\.{3})] *)
Definition match_ellipsis (s : list Z) : option nat :=
  if is_prefix [8230] s then Some 1%nat
  else if is_prefix [46; 46; 46] s then Some 3%nat
  else None.

(** Greedy scan of [[A-Za-z0-9]+(?:[’'\-][A-Za-z0-9]+)*] once inside the
    word: an alphanumeric is taken; a separator is taken only when an
    alphanumeric follows it. *)
Fixpoint word_run (s : list Z) : nat :=
  match s with
  | c :: s' =>
      if is_alnum c then S (word_run s')
      else if is_word_sep c then
        match s' with
        | c2 :: _ => if is_alnum c2 then S (word_run s') else O
        | [] => O
        end
      else O
  | [] => O
  end.

Definition match_word (s : list Z) : option nat :=
  match s with
  | c :: _ => if is_alnum c then Some (word_run s) else None
  | [] => None
  end.

Definition match_punct (s : list Z) : option nat :=
  match s with c :: _ => if mem c PUNCT_CHARS then Some 1%nat else None | [] => None end.

Definition match_ws (s : list Z) : option nat :=
  let n := count_while is_space s in if (n =? 0)%nat then None else Some n.

Inductive kind := KURL | KEMAIL | KHANDLE | KELLIPSIS | KWORD | KPUNCT | KWS.

Definition with_kind (k : kind) (m : option nat) : option (kind * nat) :=
  match m with Some n => Some (k, n) | None => None end.

(** [_MASTER.match] at one position: the first alternative that matches. *)
Definition master (s : list Z) : option (kind * nat) :=
  match match_url s with Some n => Some (KURL, n) | None =>
  match match_email s with Some n => Some (KEMAIL, n) | None =>
  match match_handle s with Some n => Some (KHANDLE, n) | None =>
  match match_ellipsis s with Some n => Some (KELLIPSIS, n) | None =>
  match match_word s with Some n => Some (KWORD, n) | None =>
  match match_punct s with Some n => Some (KPUNCT, n) | None =>
  with_kind KWS (match_ws s)
  end end end end end end.

Definition is_punct_kind (k : kind) : bool :=
  match k with KPUNCT | KELLIPSIS => true | _ => false end.

Section Tokenize.
Variable db : UnicodeDB.

(** Flags of the first pass for a piece matched by alternative [k]. *)
Definition piece_flags (k : kind) (piece : list Z) : Z :=
  let f := 0 in
  let f := if is_punct_kind k then Z.lor f TF_PUNCT else f in
  let f :=
    match k with
    | KWORD =>
        let f := if existsb (u_isdigit db) piece then Z.lor f TF_NUM else f in
        match piece with
        | c :: _ => if existsb (u_isalpha db) piece && u_isupper db c
                    then Z.lor f TF_CAP else f
        | [] => f
        end
    | KURL | KEMAIL | KHANDLE =>
        if existsb (u_isdigit db) piece then Z.lor f TF_NUM else f
    | _ => f
    end in
  f.

(** Flags of the fallback token [text[i:]]. *)
Definition fallback_flags (piece : list Z) : Z :=
  let f := 0 in
  let f := if existsb (u_isdigit db) piece then Z.lor f TF_NUM else f in
  match piece with
  | c :: _ => if existsb (u_isalpha db) piece && u_isupper db c
              then Z.lor f TF_CAP else f
  | [] => f
  end.

(** The [for m in _MASTER.finditer(text)] loop: [p] is the scan position
    of [finditer] (it moves one character on when no alternative
    matches there), [i] the end of the last match and [idx] the next
    token index.  No alternative matches the empty string, so each round
    moves [p] on and [length text] rounds suffice. *)
Fixpoint scan (text : list Z) (fuel : nat) (p i idx : nat)
    (acc : list (Token.t * kind)) : nat * nat * list (Token.t * kind) :=
  match fuel with
  | O => (i, idx, acc)
  | S fuel' =>
      if (p <? length text)%nat then
        match master (drop p text) with
        | Some (k, n) =>
            let e := (p + n)%nat in
            match k with
            | KWS => scan text fuel' e e idx acc
            | _ =>
                let piece := take n (drop p text) in
                scan text fuel' e e (S idx)
                  (acc ++ [(Token.mk idx piece p e (piece_flags k piece), k)])
            end
        | None => scan text fuel' (S p) i idx acc
        end
      else (i, idx, acc)
  end.

(** The first pass including the fallback token. *)
Definition first_pass (text : list Z) : list (Token.t * kind) :=
  let '(i, idx, acc) := scan text (length text) 0 0 0 [] in
  if (i <? length text)%nat then
    let piece := drop i text in
    acc ++ [(Token.mk idx piece i (length text) (fallback_flags piece), KWORD)]
  else acc.
End Tokenize.

Definition TERMINATORS_STRONG : list (list Z) := [[46]; [63]; [33]].
Definition TERMINATORS_WEAK : list (list Z) := [[8230]; [46; 46; 46]].
(** [_CLOSERS]: ASCII double quote, right double curly quote, right
    single curly quote, apostrophe, closing parenthesis, bracket, brace and
    right guillemet. *)
Definition CLOSERS : list (list Z) := [[34]; [8221]; [8217]; [39]; [41]; [93]; [125]; [187]].

Definition in_set (s : list Z) (set : list (list Z)) : bool :=
  existsb (fun x => bool_decide (x = s)) set.

Definition add_flag (bit : Z) (t : Token.t) : Token.t :=
  Token.mk (Token.idx t) (Token.text t) (Token.start t) (Token.end_ t)
    (Z.lor (Token.flags t) bit).

(** [while j < n and tokens[j].text in _CLOSERS: tokens[j].flags |= WEAK; j += 1] *)
Fixpoint bubble_closers (fuel : nat) (toks : list Token.t) (j : nat) : list Token.t :=
  match fuel with
  | O => toks
  | S fuel' =>
      match toks !! j with
      | Some t =>
          if in_set (Token.text t) CLOSERS
          then bubble_closers fuel' (alter (add_flag TF_SENT_END_WEAK) j toks) (S j)
          else toks
      | None => toks
      end
  end.

(** One round [k] of the sentence-end post-pass. *)
Definition post_step (kinds : list kind) (toks : list Token.t) (k : nat) : list Token.t :=
  match kinds !! k, toks !! k with
  | Some kd, Some t =>
      if is_punct_kind kd then
        if in_set (Token.text t) TERMINATORS_STRONG then
          bubble_closers (length toks) (alter (add_flag TF_SENT_END_STRONG) k toks) (S k)
        else if in_set (Token.text t) TERMINATORS_WEAK then
          alter (add_flag TF_SENT_END_WEAK) k toks
        else toks
      else toks
  | _, _ => toks
  end.

(** [for k in range(n): ...] *)
Definition post_pass (kinds : list kind) (toks : list Token.t) : list Token.t :=
  fold_left (post_step kinds) (seq 0 (length toks)) toks.

Definition tokenize (db : UnicodeDB) (text : list Z) : list Token.t :=
  let fp := first_pass db text in
  post_pass (map snd fp) (map fst fp).

(** Code points of an ASCII string literal. *)
Fixpoint ascii_cps (s : String.string) : list Z :=
  match s with
  | String.EmptyString => []
  | String.String c s' => Z.of_nat (Ascii.nat_of_ascii c) :: ascii_cps s'
  end.

(** A [UnicodeDB] that is exact on ASCII (and says [false] elsewhere). *)
Definition ascii_db : UnicodeDB :=
  mkUnicodeDB is_ascii_digit is_ascii_alpha is_ascii_upper.

(* ------------------------------------------------------------------ *)
(** ** Sentence segmentation *)

Definition is_weak (t : Token.t) : bool := has_flag (Token.flags t) TF_SENT_END_WEAK.

(** [while j < n and tokens[j].flags & WEAK: end = j; j += 1], run over
    [tokens[j:]]; returns the final [j]. *)
Fixpoint absorb_weak (ts : list Token.t) (j : nat) : nat :=
  match ts with
  | t :: ts' => if is_weak t then absorb_weak ts' (S j) else j
  | [] => j
  end.

(** [while j < n and (tokens[j].flags & WEAK or tokens[j].flags & PUNCT): j += 1] *)
Fixpoint skip_weak_punct (ts : list Token.t) (j : nat) : nat :=
  match ts with
  | t :: ts' =>
      if is_weak t || has_flag (Token.flags t) TF_PUNCT
      then skip_weak_punct ts' (S j) else j
  | [] => j
  end.

(** [t.text in ("…", "...")] *)
Definition is_ellipsis_text (s : list Z) : bool := in_set s [[8230]; [46; 46; 46]].

(** The [while k < n] loop of [segment_tokens]; returns the final [s] and
    [spans].  Every round moves [k] on, so [n] rounds suffice. *)
Fixpoint seg_loop (tokens : list Token.t) (fuel : nat) (s k : nat)
    (spans : list (nat * nat)) : nat * list (nat * nat) :=
  match fuel with
  | O => (s, spans)
  | S fuel' =>
      match tokens !! k with
      | None => (s, spans)
      | Some t =>
          if has_flag (Token.flags t) TF_SENT_END_STRONG then
            let j := absorb_weak (drop (S k) tokens) (S k) in
            let end_ := Nat.pred j in
            seg_loop tokens fuel' (S end_) (S end_) (spans ++ [(s, S end_)])
          else if is_weak t && is_ellipsis_text (Token.text t) then
            let j := skip_weak_punct (drop (S k) tokens) (S k) in
            let closes := match tokens !! j with
                          | None => true
                          | Some tj => has_flag (Token.flags tj) TF_CAP
                          end in
            if closes then seg_loop tokens fuel' (S k) (S k) (spans ++ [(s, S k)])
            else seg_loop tokens fuel' s (S k) spans
          else seg_loop tokens fuel' s (S k) spans
      end
  end.

Definition segment_tokens (tokens : list Token.t) : list (nat * nat) :=
  let n := length tokens in
  if (n =? 0)%nat then []
  else
    let '(s, spans) := seg_loop tokens n 0 0 [] in
    if (s <? n)%nat then spans ++ [(s, n)] else spans.

(* ------------------------------------------------------------------ *)
(** ** Vocabulary *)

(** [Vocab]: [_tok2id] and [_id2tok]. *)
Record Vocab := mkVocab {
  tok2id : gmap (list Z) Z;
  id2tok : list (list Z)
}.

Definition vocab_new : Vocab := mkVocab ∅ [].

Definition get_id (v : Vocab) (s : list Z) : Z * Vocab :=
  match tok2id v !! s with
  | Some i => (i, v)
  | None =>
      let idx := Z.of_nat (length (id2tok v)) + 1 in
      (idx, mkVocab (<[s := idx]> (tok2id v)) (id2tok v ++ [s]))
  end.

(** A sequence of [get_id] calls on one instance; the ids returned, in
    call order, and the final instance. *)
Fixpoint get_ids (v : Vocab) (ss : list (list Z)) : list Z * Vocab :=
  match ss with
  | [] => ([], v)
  | s :: ss' =>
      let '(i, v1) := get_id v s in
      let '(is, v2) := get_ids v1 ss' in
      (i :: is, v2)
  end.

(* ------------------------------------------------------------------ *)
(** ** Graph annotation *)

Record MorphInfo := mkMorphInfo {
  lemma : list Z;
  lemma_id : Z;
  pos : Z;
  bits : Z;
  is_stop : bool
}.

Definition NF_IS_STOP : Z := 2.

(** Python objects: [Node] objects live in a heap of references; a graph
    object's [nodes] list holds references. *)
Abbreviation loc := positive (only parsing).
Abbreviation Heap := (gmap loc Node.t) (only parsing).
Definition GraphObj := GraphOf loc.

(** The body of the annotation loop on one node object. *)
Definition annotate_node (mi : MorphInfo) (node : Node.t) : Node.t :=
  Node.mk (Node.node_id node) (Node.n_type node) (pos mi) (Node.features_ref node)
    (Node.span node)
    (if is_stop mi then Z.lor (Node.flags node) NF_IS_STOP else Node.flags node)
    (Node.confidence node) (lemma_id mi).

Definition annotate_step (g : GraphObj) (morphs : list MorphInfo) (h : Heap) (i : nat)
  : Heap :=
  match nodes g !! i, morphs !! i with
  | Some l, Some mi => alter (annotate_node mi) l h
  | _, _ => h
  end.

(** [annotate_graph(g, tokens, morphs)]: writes the heap only; [g] itself
    (its header, its [nodes] list and its [edges]) is not written. *)
Definition annotate_graph (h : Heap) (g : GraphObj) (tokens : list Token.t)
    (morphs : list MorphInfo) : Heap :=
  let n := Nat.min (length (nodes g)) (Nat.min (length tokens) (length morphs)) in
  fold_left (annotate_step g morphs) (seq 0 n) h.

(* ------------------------------------------------------------------ *)
(** ** GraphBuilder: constructor and add_edge *)

(** [GraphBuilder(graph_id, schema_id, graph_type, source_id, version,
    g_features)]. *)
Definition graph_builder_init (graph_id schema_id graph_type source_id version : Z)
    (g_features : option (list Z)) : GraphBuilder :=
  mkBuilder graph_id graph_type source_id version schema_id [] [] g_features.

Definition EF_DIRECTED : Z := 1.

(** [add_edge(src_id, dst_id, e_type, *, weight, time, flags, confidence,
    attr_ref)]: appends the edge and returns [len(self._edges) - 1]. *)
Definition add_edge (gb : GraphBuilder) (src_id dst_id e_type : Z)
    (weight time flags confidence attr_ref : Z) : Z * GraphBuilder :=
  let gb' := mkBuilder (gb_graph_id gb) (gb_graph_type gb) (gb_source_id gb)
               (gb_version gb) (gb_schema_id gb) (gb_nodes gb)
               (gb_edges gb ++ [Edge.mk src_id dst_id e_type weight time flags
                                  confidence attr_ref])
               (gb_features gb) in
  (Z.of_nat (length (gb_edges gb')) - 1, gb').

(* ------------------------------------------------------------------ *)
(** ** tokens_to_graph *)

Definition NF_IS_CAPITALIZED : Z := 4.
Definition NF_IS_PUNCT : Z := 8.
Definition NF_SENT_END_STRONG : Z := 64.
Definition NF_SENT_END_WEAK : Z := 128.
Definition NT_TOKEN : Z := 1.      (* NodeType.TOKEN *)
Definition ET_NEXT : Z := 9.       (* EdgeType.NEXT *)
Definition SCHEMA_WRITING : Z := 1.
Definition GT_HETERO : Z := 5.

(** The node flags of a token: [nflags |= ...] for each token flag. *)
Definition token_node_flags (tflags : Z) : Z :=
  let nflags := 0 in
  let nflags := if has_flag tflags TF_PUNCT then Z.lor nflags NF_IS_PUNCT else nflags in
  let nflags := if has_flag tflags TF_CAP then Z.lor nflags NF_IS_CAPITALIZED else nflags in
  let nflags := if has_flag tflags TF_SENT_END_STRONG
                then Z.lor nflags NF_SENT_END_STRONG else nflags in
  let nflags := if has_flag tflags TF_SENT_END_WEAK
                then Z.lor nflags NF_SENT_END_WEAK else nflags in
  nflags.

(** [for t in toks: node_ids.append(gb.add_node(...))] *)
Fixpoint add_token_nodes (gb : GraphBuilder) (toks : list Token.t) : list Z * GraphBuilder :=
  match toks with
  | [] => ([], gb)
  | t :: toks' =>
      let '(node_id, gb1) :=
        add_node gb NT_TOKEN 0 0 (Z.of_nat (Token.start t), Z.of_nat (Token.end_ t))
          (token_node_flags (Token.flags t)) 255 0 in
      let '(ids, gb2) := add_token_nodes gb1 toks' in
      (node_id :: ids, gb2)
  end.

(** [for a, b in zip(node_ids, node_ids[1:]): gb.add_edge(a, b, EdgeType.NEXT)] *)
Fixpoint add_next_edges (gb : GraphBuilder) (pairs : list (Z * Z)) : GraphBuilder :=
  match pairs with
  | [] => gb
  | (a, b) :: pairs' =>
      add_next_edges (snd (add_edge gb a b ET_NEXT 255 0 EF_DIRECTED 255 0)) pairs'
  end.

Definition tokens_to_graph (db : UnicodeDB) (text : list Z) (graph_id source_id version : Z)
  : Graph :=
  let toks := tokenize db text in
  let gb := graph_builder_init graph_id SCHEMA_WRITING GT_HETERO source_id version None in
  let '(node_ids, gb) := add_token_nodes gb toks in
  let gb := add_next_edges gb (combine node_ids (tail node_ids)) in
  finalize gb.

(* ------------------------------------------------------------------ *)
(** ** segment *)

(** [segment(text)]: character spans of the sentences; [toks[a]] raises
    [IndexError] out of range. *)
Fixpoint segment_spans (toks : list Token.t) (spans_tok : list (nat * nat))
  : result (list (nat * nat)) :=
  match spans_tok with
  | [] => Ok []
  | (a, b) :: rest =>
      if (b <=? a)%nat then segment_spans toks rest
      else
        match toks !! a, toks !! (b - 1)%nat with
        | Some ta, Some tb =>
            out <- segment_spans toks rest ;;
            Ok ((Token.start ta, Token.end_ tb) :: out)
        | _, _ => Err ErrIndex
        end
  end.

Definition segment (db : UnicodeDB) (text : list Z) : result (list (nat * nat)) :=
  let toks := tokenize db text in
  segment_spans toks (segment_tokens toks).

(** [segment_to_graph(text)]: the graph of [tokens_to_graph(text)] with its
    default ids, and the token spans of the sentences. *)
Definition segment_to_graph (db : UnicodeDB) (text : list Z) : Graph * list (nat * nat) :=
  let g := tokens_to_graph db text 0 0 1 in
  let toks := tokenize db text in
  let spans_tok := segment_tokens toks in
  (g, spans_tok).

(* ------------------------------------------------------------------ *)
(** ** morph: bit packing, vocabulary lookup, lemma heuristics *)

(** [pack_bits(pos, tense, num, per)] *)
Definition pack_bits (pos tense num per : Z) : Z :=
  Z.lor (Z.lor (Z.lor (Z.land pos 15) (Z.shiftl (Z.land tense 3) 4))
               (Z.shiftl (Z.land num 3) 6))
        (Z.shiftl (Z.land per 3) 8).

(** [Vocab.get_str(i)] *)
Definition get_str (v : Vocab) (i : Z) : list Z :=
  if (i <=? 0) || (Z.of_nat (length (id2tok v)) <? i) then []
  else match id2tok v !! Z.to_nat (i - 1) with Some s => s | None => [] end.

(** [s.replace("’", "'").replace("‘", "'")] (right then left curly quote). *)
Definition _norm_apostrophes (s : list Z) : list Z :=
  map (fun c => if c =? 8216 then 39 else c) (map (fun c => if c =? 8217 then 39 else c) s).

(** [s.endswith(suffix)] *)
Definition ends_with (suffix s : list Z) : bool :=
  bool_decide (drop (length s - length suffix) s = suffix) &&
  (length suffix <=? length s)%nat.

(** [s[:-k]] for [k <= len(s)] *)
Definition drop_last (k : nat) (s : list Z) : list Z := take (length s - k) s.

Definition _strip_possessive (s : list Z) : list Z :=
  let s2 := _norm_apostrophes s in
  if ends_with [39; 115] s2 then drop_last 2 s2
  else if ends_with [39] s2 then drop_last 1 s2
  else s2.

Definition _lemma_guess (lower : list Z) : list Z :=
  if ends_with [105; 110; 103] lower && (4 <? length lower)%nat then drop_last 3 lower
  else if ends_with [101; 100] lower && (3 <? length lower)%nat then drop_last 2 lower
  else if ends_with [115] lower && (3 <? length lower)%nat &&
          negb (ends_with [115; 115] lower) then drop_last 1 lower
  else lower.

Definition POS_NOUN : Z := 1.
Definition POS_PRON : Z := 5.
Definition POS_DET : Z := 6.
Definition POS_ADP : Z := 7.
Definition POS_CCONJ : Z := 8.
Definition POS_SCONJ : Z := 9.
Definition POS_PUNCT : Z := 10.
Definition POS_NUM : Z := 11.
Definition POS_PROPN : Z := 12.
Definition POS_AUX : Z := 13.

Definition words (ws : list String.string) : list (list Z) := map ascii_cps ws.

Definition _STOP : list (list Z) := words
  ["the";"a";"an";"and";"or";"but";"if";"because";"that";"which";"who";"whom";"whose";
   "to";"of";"in";"on";"at";"by";"for";"with";"from";"as";"than";"then";"so";"yet";
   "is";"are";"was";"were";"be";"been";"being";"do";"does";"did";"have";"has";"had";
   "not";"no";"yes";"it";"i";"you";"he";"she";"we";"they";"me";"him";"her";"us";"them";
   "this";"that";"these";"those"]%string.
Definition _PRON : list (list Z) := words
  ["i";"you";"he";"she";"it";"we";"they";"me";"him";"her";"us";"them";"my";"your";"his";
   "her";"our";"their"]%string.
Definition _DET : list (list Z) := words ["the";"a";"an";"this";"that";"these";"those"]%string.
Definition _ADP : list (list Z) := words
  ["of";"to";"in";"on";"at";"by";"for";"with";"from";"as";"into";"onto";"over";"under";
   "between";"through"]%string.
Definition _CCONJ : list (list Z) := words ["and";"or";"but";"nor";"yet";"so"]%string.
Definition _SCONJ : list (list Z) := words
  ["because";"if";"that";"although";"though";"when";"while";"since";"unless"]%string.

(** [_AUX_MAP]: form, then lemma, tense, number and person. *)
Definition _AUX_MAP : list (list Z * (list Z * Z * Z * Z)) :=
  map (fun '(k, (l, t, n, p)) => (ascii_cps k, (ascii_cps l, t, n, p)))
  [("am", ("be", 1, 1, 1)); ("are", ("be", 1, 0, 0)); ("is", ("be", 1, 1, 3));
   ("was", ("be", 2, 1, 1)); ("were", ("be", 2, 0, 0)); ("be", ("be", 0, 0, 0));
   ("been", ("be", 0, 0, 0)); ("being", ("be", 0, 0, 0));
   ("have", ("have", 1, 0, 0)); ("has", ("have", 1, 1, 3)); ("had", ("have", 2, 0, 0));
   ("do", ("do", 1, 0, 0)); ("does", ("do", 1, 1, 3)); ("did", ("do", 2, 0, 0));
   ("can", ("can", 0, 0, 0)); ("could", ("could", 0, 0, 0));
   ("may", ("may", 0, 0, 0)); ("might", ("might", 0, 0, 0));
   ("must", ("must", 0, 0, 0)); ("should", ("should", 0, 0, 0));
   ("would", ("would", 0, 0, 0)); ("will", ("will", 0, 0, 0));
   ("shall", ("shall", 0, 0, 0))]%string.

Definition aux_lookup (s : list Z) : option (list Z * Z * Z * Z) :=
  match find (fun e => bool_decide (fst e = s)) _AUX_MAP with
  | Some (_, v) => Some v
  | None => None
  end.

(** [_RE_INITIAL_CAP.match(raw)] for [^[A-Z][A-Za-z]+$]; [$] also
    matches just before a final newline. *)
Definition initial_cap_match (raw : list Z) : bool :=
  match raw with
  | c :: rest =>
      let body := if bool_decide (last rest = Some 10) then removelast rest else rest in
      is_ascii_upper c && negb (bool_decide (body = [])) && forallb is_ascii_alpha body
  | [] => false
  end.

Section Morph.
(** [str.lower] *)
Variable str_lower : list Z -> list Z.

(** One round of the [analyze_tokens] loop: the entry for [t] and the
    vocabulary after its [get_id] call. *)
Definition analyze_token (vocab : Vocab) (t : Token.t) : MorphInfo * Vocab :=
  let raw := Token.text t in
  let norm := _strip_possessive (_norm_apostrophes raw) in
  let lower := str_lower norm in
  let entry lemma pos bits is_stop :=
    let '(i, vocab') := get_id vocab lemma in (mkMorphInfo lemma i pos bits is_stop, vocab') in
  if has_flag (Token.flags t) TF_PUNCT then entry norm POS_PUNCT (pack_bits POS_PUNCT 0 0 0) false
  else if has_flag (Token.flags t) TF_NUM then entry lower POS_NUM (pack_bits POS_NUM 0 0 0) false
  else if in_set lower _PRON then entry lower POS_PRON (pack_bits POS_PRON 0 0 0) true
  else if in_set lower _DET then entry lower POS_DET (pack_bits POS_DET 0 0 0) true
  else if in_set lower _ADP then entry lower POS_ADP (pack_bits POS_ADP 0 0 0) true
  else if in_set lower _CCONJ then entry lower POS_CCONJ (pack_bits POS_CCONJ 0 0 0) true
  else if in_set lower _SCONJ then entry lower POS_SCONJ (pack_bits POS_SCONJ 0 0 0) true
  else match aux_lookup lower with
  | Some (lemma, tense, num, per) =>
      entry lemma POS_AUX (pack_bits POS_AUX tense num per) (in_set lower _STOP)
  | None =>
      if initial_cap_match raw then entry raw POS_PROPN (pack_bits POS_PROPN 0 0 0) false
      else
        let guess := _lemma_guess lower in
        entry guess POS_NOUN (pack_bits POS_NOUN 0 0 0) (in_set lower _STOP)
  end.

(** [analyze_tokens(tokens, vocab)]: the list returned and the vocabulary
    object after the call. *)
Fixpoint analyze_tokens (vocab : Vocab) (tokens : list Token.t) : list MorphInfo * Vocab :=
  match tokens with
  | [] => ([], vocab)
  | t :: tokens' =>
      let '(mi, vocab1) := analyze_token vocab t in
      let '(out, vocab2) := analyze_tokens vocab1 tokens' in
      (mi :: out, vocab2)
  end.
End Morph.

(* ------------------------------------------------------------------ *)
(** ** Statement-side definitions *)

(** [GraphBuilder(graph_id)] with the constructor's defaults. *)
Definition graph_builder_new (graph_id : Z) : GraphBuilder :=
  mkBuilder graph_id 5 0 1 1 [] [] None.

(** [spans] are consecutive non-empty half-open ranges tiling [[a, b)]. *)
Fixpoint tiles (spans : list (nat * nat)) (a b : nat) : Prop :=
  match spans with
  | [] => a = b
  | (x, y) :: spans' => x = a /\ (x < y)%nat /\ tiles spans' y b
  end.

(** The tokens skipped by the ellipsis look-ahead. *)
Definition weak_or_punct (t : Token.t) : bool :=
  is_weak t || has_flag (Token.flags t) TF_PUNCT.

(** The spec's rule for an ellipsis at [k]: the next substantive token
    after [k] does not exist, or it is capitalized. *)
Definition ellipsis_closes_spec (tokens : list Token.t) (k : nat) : Prop :=
  (forall j t, (k < j)%nat -> tokens !! j = Some t -> weak_or_punct t = true) \/
  (exists j t, (k < j)%nat /\ tokens !! j = Some t /\ weak_or_punct t = false /\
     has_flag (Token.flags t) TF_CAP = true /\
     forall m tm, (k < m < j)%nat -> tokens !! m = Some tm -> weak_or_punct tm = true).

(** A bounds-checked reading of a [.pgraph] payload, following the spec's
    [MalformedInput] rule: every read, fixed-width or variable-length,
    fails as soon as it would run past the end of the buffer. *)
Section StrictReader.
Variable buf : list Z.

(** A 2-byte little-endian read that fails past the end of [buf]. *)
Definition read_u16_strict : Dec Z :=
  fun i => if (length buf <? i + 2)%nat then Err ErrIndex
           else Ok (int_from_bytes_le (take 2 (drop i buf)), (i + 2)%nat).

Definition decode_node_strict : Dec Node.t :=
  node_id <-- read_uvarint buf ;;;
  n_type <-- read_byte buf ;;;
  sub_type <-- read_byte buf ;;;
  features_ref <-- read_uvarint buf ;;;
  span0 <-- read_uvarint buf ;;;
  span1 <-- read_uvarint buf ;;;
  flags <-- read_u16_strict ;;;
  confidence <-- read_byte buf ;;;
  label_id <-- read_uvarint buf ;;;
  dret (Node.mk node_id n_type sub_type features_ref (span0, span1) flags
          confidence label_id).

Definition decode_edge_strict : Dec Edge.t :=
  src_id <-- read_uvarint buf ;;;
  dst_id <-- read_uvarint buf ;;;
  e_type <-- read_byte buf ;;;
  weight <-- read_byte buf ;;;
  time <-- read_uvarint buf ;;;
  flags <-- read_u16_strict ;;;
  confidence <-- read_byte buf ;;;
  attr_ref <-- read_uvarint buf ;;;
  dret (Edge.mk src_id dst_id e_type weight time flags confidence attr_ref).

(** The thumbnail read fails when its [feat_len] bytes run past the end. *)
Definition decode_features_strict : Dec (option (list Z)) :=
  feat_len <-- read_uvarint buf ;;;
  if negb (feat_len =? 0) then
    fun i =>
      if Z.of_nat (length buf) <? Z.of_nat i + feat_len then Err ErrTruncatedFeatures
      else Ok (Some (take (Z.to_nat feat_len) (drop i buf)), (i + Z.to_nat feat_len)%nat)
  else dret None.

Definition decode_body_strict : Dec Graph :=
  graph_id <-- read_uvarint buf ;;;
  graph_type <-- read_byte buf ;;;
  num_nodes <-- read_uvarint buf ;;;
  num_edges <-- read_uvarint buf ;;;
  source_id <-- read_uvarint buf ;;;
  version <-- read_uvarint buf ;;;
  schema_id <-- read_byte buf ;;;
  nodes <-- decode_many decode_node_strict (Z.to_nat num_nodes) ;;;
  edges <-- decode_many decode_edge_strict (Z.to_nat num_edges) ;;;
  g_features <-- decode_features_strict ;;;
  dret (mkGraph graph_id graph_type (Z.of_nat (length nodes))
          (Z.of_nat (length edges)) g_features source_id version schema_id
          nodes edges).
End StrictReader.

(** The magic read fails on a buffer shorter than 4 bytes. *)
Definition decode_pgraph_strict (buf : list Z) : result Graph :=
  if (length buf <? 4)%nat then Err ErrIndex
  else if negb (bool_decide (take 4 buf = PG_MAGIC)) then Err ErrMagic
  else
    match decode_body_strict buf 4%nat with
    | Ok (g, _) => Ok g
    | Err e => Err e
    end.

(** Two outcomes agree: the same value, or both an error. *)
Definition same_outcome {A} (r1 r2 : result A) : Prop :=
  match r1, r2 with
  | Ok a, Ok b => a = b
  | Err _, Err _ => True
  | _, _ => False
  end.

(** Concrete objects for the annotation examples. *)
Definition ex_node : Node.t := Node.mk 0 1 0 0 (0, 1) 0 255 0.
Definition ex_morph : MorphInfo := mkMorphInfo [105] 1 5 5 true.
Definition ex_token : Token.t := Token.mk 0 [73] 0 1 1.
(** A weak-end ellipsis token [...]. *)
Definition ex_ellipsis : Token.t := Token.mk 0 [46; 46; 46] 0 3 18.
Definition ex_heap : Heap := <[2%positive := ex_node]> {[1%positive := ex_node]}.
(** A graph object whose node list holds two distinct node objects. *)
Definition ex_graph : GraphObj := mkGraph 0 5 2 0 None 0 1 1 [1%positive; 2%positive] [].

(* ------------------------------------------------------------------ *)
(** ** Definitions used by the proofs *)

(** [_tok2id] and [_id2tok] agree: [s] has id [i] iff [s] sits at
    position [i - 1] of [_id2tok]. *)
Definition vocab_wf (v : Vocab) : Prop :=
  forall s i, tok2id v !! s = Some i <->
    exists n : nat, i = Z.of_nat n + 1 /\ id2tok v !! n = Some s.

Definition is_ascii_text (text : list Z) : Prop := Forall (fun c => 0 <= c < 128) text.

(** What the first pass guarantees of each token: no sentence-end bit, and
    an ellipsis text only on a punctuation or ellipsis match. *)
Definition fp_entry_ok (e : Token.t * kind) : Prop :=
  0 <= Token.flags (fst e) < 8 /\
  (is_ellipsis_text (Token.text (fst e)) = true -> is_punct_kind (snd e) = true).

(** [t'] is [t] with possibly more flag bits. *)
Definition tok_grows (t t' : Token.t) : Prop :=
  Token.text t' = Token.text t /\ exists b, Token.flags t' = Z.lor (Token.flags t) b.

Definition toks_grow (l l' : list Token.t) : Prop :=
  length l' = length l /\
  forall i t, l !! i = Some t -> exists t', l' !! i = Some t' /\ tok_grows t t'.

(** Only tokens whose text is a strong terminator carry the strong bit. *)
Definition strong_ok (l : list Token.t) : Prop :=
  forall i t, l !! i = Some t -> has_flag (Token.flags t) TF_SENT_END_STRONG = true ->
    in_set (Token.text t) TERMINATORS_STRONG = true.

Definition cap_of (t : Token.t) : bool := has_flag (Token.flags t) TF_CAP.

(** The capitalization test of the word and fallback branches. *)
Definition cap_cond (db : UnicodeDB) (piece : list Z) : bool :=
  match piece with
  | c :: _ => existsb (u_isalpha db) piece && u_isupper db c
  | [] => false
  end.

Definition same_cap (l l' : list Token.t) : Prop :=
  forall i, option_map cap_of (l' !! i) = option_map cap_of (l !! i).

Definition cap_entry_ok (db : UnicodeDB) (e : Token.t * kind) : Prop :=
  cap_of (fst e) = match snd e with KWORD => cap_cond db (Token.text (fst e)) | _ => false end.

(** The bytes [_uvarint_encode] produces for a non-negative value. *)
Definition uvarint_bytes (v : Z) : list Z :=
  uvarint_encode_loop (S (Z.to_nat (Z.log2 v))) v.

Arguments uvarint_bytes : simpl never.

Definition VARINT_BOUND : Z := 2 ^ 70.

Definition varint_ok (v : Z) : Prop := 0 <= v < VARINT_BOUND.

Definition byte_ok (v : Z) : Prop := 0 <= v < 256.

Definition u16_ok (v : Z) : Prop := 0 <= v < 65536.

(** Fields of a node within the ranges the wire format can carry. *)
Definition node_ok (n : Node.t) : Prop :=
  varint_ok (Node.node_id n) /\ byte_ok (Node.n_type n) /\ byte_ok (Node.sub_type n) /\
  varint_ok (Node.features_ref n) /\ varint_ok (fst (Node.span n)) /\
  varint_ok (snd (Node.span n)) /\ u16_ok (Node.flags n) /\
  byte_ok (Node.confidence n) /\ varint_ok (Node.label_id n).

Definition edge_ok (e : Edge.t) : Prop :=
  varint_ok (Edge.src_id e) /\ varint_ok (Edge.dst_id e) /\ byte_ok (Edge.e_type e) /\
  byte_ok (Edge.weight e) /\ varint_ok (Edge.time e) /\ u16_ok (Edge.flags e) /\
  byte_ok (Edge.confidence e) /\ varint_ok (Edge.attr_ref e).

Definition node_bytes (n : Node.t) : list Z :=
  uvarint_bytes (Node.node_id n) ++ Node.n_type n :: Node.sub_type n ::
  uvarint_bytes (Node.features_ref n) ++ uvarint_bytes (fst (Node.span n)) ++
  uvarint_bytes (snd (Node.span n)) ++ u16_le (Node.flags n) ++
  Node.confidence n :: uvarint_bytes (Node.label_id n).

Definition edge_bytes (e : Edge.t) : list Z :=
  uvarint_bytes (Edge.src_id e) ++ uvarint_bytes (Edge.dst_id e) ++
  Edge.e_type e :: Edge.weight e :: uvarint_bytes (Edge.time e) ++
  u16_le (Edge.flags e) ++ Edge.confidence e :: uvarint_bytes (Edge.attr_ref e).

(** [feat = g.g_features or b''], the empty byte string when absent. *)
Definition feat_of (f : option (list Z)) : list Z :=
  match f with Some f => f | None => [] end.

(** The adjunct bytes: [len(feat)] as a varint, then [feat]. *)
Definition feat_bytes (f : option (list Z)) : list Z :=
  uvarint_bytes (Z.of_nat (length (feat_of f))) ++ feat_of f.

(** What the decoder rebuilds from [feat]: [None] when it is empty. *)
Definition decoded_features (f : option (list Z)) : option (list Z) :=
  match feat_of f with [] => None | f' => Some f' end.

Definition pgraph_bytes (g : Graph) : list Z :=
  PG_MAGIC ++ uvarint_bytes (graph_id g) ++ graph_type g :: uvarint_bytes (num_nodes g) ++
  uvarint_bytes (num_edges g) ++ uvarint_bytes (source_id g) ++ uvarint_bytes (version g) ++
  schema_id g :: concat (map node_bytes (nodes g)) ++ concat (map edge_bytes (edges g)) ++
  feat_bytes (g_features g).

(** A thumbnail of the lengths the layout of [encode_pgraph] names: absent, or
    0, 64 or 128 bytes. *)
Definition thumbnail_ok (f : option (list Z)) : Prop :=
  match f with
  | None => True
  | Some f => length f = 0%nat \/ length f = 64%nat \/ length f = 128%nat
  end.

(** Graphs whose fields are within the ranges of the wire format. *)
Definition graph_ok (g : Graph) : Prop :=
  varint_ok (graph_id g) /\ byte_ok (graph_type g) /\
  num_nodes g = Z.of_nat (length (nodes g)) /\ num_edges g = Z.of_nat (length (edges g)) /\
  varint_ok (num_nodes g) /\ varint_ok (num_edges g) /\
  varint_ok (source_id g) /\ varint_ok (version g) /\ byte_ok (schema_id g) /\
  Forall node_ok (nodes g) /\ Forall edge_ok (edges g) /\ thumbnail_ok (g_features g).

Definition with_features (g : Graph) (f : option (list Z)) : Graph :=
  mkGraph (graph_id g) (graph_type g) (num_nodes g) (num_edges g) f (source_id g)
    (version g) (schema_id g) (nodes g) (edges g).

Definition ex_pg_node : Node.t := Node.mk 0 3 1 0 (0, 5) 300 200 1000.

Definition ex_pg_edge : Edge.t := Edge.mk 0 0 2 255 12345 65535 7 0.

Definition ex_pgraph : Graph :=
  mkGraph 7 5 1 1 (Some (repeat 9 64)) 300 1 2 [ex_pg_node] [ex_pg_edge].

Definition ex_pgraph_empty_thumb : Graph := mkGraph 0 5 0 0 (Some []) 0 1 1 [] [].

(** Tokens [k, k+1, ...] of [text], in order from position [lo] on: each
    token carries its index, a non-empty span [[start, end)] within the text
    that starts at or after the end of the previous token, and the text of
    that span. *)
Fixpoint toks_from (text : list Z) (k lo : nat) (toks : list Token.t) : Prop :=
  match toks with
  | [] => True
  | t :: ts =>
      Token.idx t = k /\ (lo <= Token.start t < Token.end_ t)%nat /\
      (Token.end_ t <= length text)%nat /\
      Token.text t = take (Token.end_ t - Token.start t) (drop (Token.start t) text) /\
      toks_from text (S k) (Token.end_ t) ts
  end.

(** The position part of a token: everything but its flags. *)
Definition tok_pos (t : Token.t) : nat * list Z * nat * nat :=
  (Token.idx t, Token.text t, Token.start t, Token.end_ t).

(** The node [tokens_to_graph] builds for token [t] at position [k]. *)
Definition token_node (k : nat) (t : Token.t) : Node.t :=
  Node.mk (Z.of_nat k) NT_TOKEN 0 0 (Z.of_nat (Token.start t), Z.of_nat (Token.end_ t))
    (token_node_flags (Token.flags t)) 255 0.

Fixpoint token_nodes (k : nat) (toks : list Token.t) : list Node.t :=
  match toks with [] => [] | t :: ts => token_node k t :: token_nodes (S k) ts end.

(** The [NEXT] edge from node [k] to node [k + 1]. *)
Definition next_edge (k : nat) : Edge.t :=
  Edge.mk (Z.of_nat k) (Z.of_nat (S k)) ET_NEXT 255 0 EF_DIRECTED 255 0.

(** Builders a program can reach: a fresh [GraphBuilder(...)] followed by
    any sequence of [add_node], [add_edge] and [set_thumbnail] calls (the
    builder after a [set_thumbnail] that raised is the one before it). *)
Inductive built : GraphBuilder -> Prop :=
  | built_init gid sch gt sid ver f : built (graph_builder_init gid sch gt sid ver f)
  | built_node gb nt st lid sp fl cf fr :
      built gb -> built (snd (add_node gb nt st lid sp fl cf fr))
  | built_edge gb src dst et w tm fl cf ar :
      built gb -> built (snd (add_edge gb src dst et w tm fl cf ar))
  | built_thumb gb f : built gb -> built (snd (set_thumbnail gb f)).

(** Character spans of [text] in order from position [lo] on: each is a
    non-empty [[s, e)] within the text, starting at or after the end of the
    previous one. *)
Fixpoint ordered_spans (text : list Z) (lo : nat) (out : list (nat * nat)) : Prop :=
  match out with
  | [] => True
  | (s, e) :: out' =>
      (lo <= s < e)%nat /\ (e <= length text)%nat /\ ordered_spans text e out'
  end.

(** The fields [encode_pgraph] writes as varints are all non-negative. *)
Definition node_varints_nonneg (n : Node.t) : bool :=
  (0 <=? Node.node_id n) && (0 <=? Node.features_ref n) && (0 <=? fst (Node.span n)) &&
  (0 <=? snd (Node.span n)) && (0 <=? Node.label_id n).

Definition edge_varints_nonneg (e : Edge.t) : bool :=
  (0 <=? Edge.src_id e) && (0 <=? Edge.dst_id e) && (0 <=? Edge.time e) &&
  (0 <=? Edge.attr_ref e).

Definition graph_varints_nonneg (g : Graph) : bool :=
  (0 <=? graph_id g) && (0 <=? num_nodes g) && (0 <=? num_edges g) &&
  (0 <=? source_id g) && (0 <=? version g) &&
  forallb node_varints_nonneg (nodes g) && forallb edge_varints_nonneg (edges g).

(** The fields of [pack_bits a b c d] read back correctly. *)
Definition pack_fields_ok (a b c d : Z) : bool :=
  let x := pack_bits a b c d in
  (0 <=? x) && (x <? 1024) && (Z.land x 15 =? a) && (Z.land (Z.shiftr x 4) 3 =? b) &&
  (Z.land (Z.shiftr x 6) 3 =? c) && (Z.land (Z.shiftr x 8) 3 =? d).

(** The POS codes [analyze_tokens] assigns. *)
Definition POS_ALL : list Z :=
  [POS_NOUN; POS_PRON; POS_DET; POS_ADP; POS_CCONJ; POS_SCONJ; POS_PUNCT; POS_NUM;
   POS_PROPN; POS_AUX].

(** [r] succeeds when [b] holds and raises the negative-varint error
    otherwise. *)
Definition ok_or_neg {A} (b : bool) (r : result A) : Prop :=
  if b then exists x, r = Ok x else r = Err ErrNegativeVarint.

(* ================================================================== *)
(** * Proofs *)

(* ------------------------------------------------------------------ *)
(** ** GraphBuilder.set_thumbnail *)

Lemma set_thumbnail_empty_bytes_rejected :
  set_thumbnail (graph_builder_new 0) (Some []) =
    (Err ErrThumbnailLength, graph_builder_new 0).
Proof. reflexivity. Qed.

(** C3 (corrected): [set_thumbnail] fails, with the thumbnail-length error
    and leaving the builder unchanged, exactly when it is given a byte
    string whose length is neither 64 nor 128; [None] and lengths 64 and 128
    succeed and are stored; a 65-byte thumbnail fails.  The empty byte string
    fails as well. *)
Lemma set_thumbnail_outcome (gb : GraphBuilder) (f : option (list Z)) :
  (fst (set_thumbnail gb f) = Err ErrThumbnailLength <->
     exists b, f = Some b /\ length b <> 64%nat /\ length b <> 128%nat) /\
  (fst (set_thumbnail gb f) <> Ok tt -> snd (set_thumbnail gb f) = gb) /\
  (fst (set_thumbnail gb f) = Ok tt -> gb_features (snd (set_thumbnail gb f)) = f) /\
  (fst (set_thumbnail gb f) = Ok tt \/ fst (set_thumbnail gb f) = Err ErrThumbnailLength) /\
  (forall b, length b = 65%nat -> fst (set_thumbnail gb (Some b)) = Err ErrThumbnailLength).
Proof.
  destruct f as [b|]; simpl.
  - destruct (bool_decide (length b = 64%nat)) eqn:E64;
      destruct (bool_decide (length b = 128%nat)) eqn:E128; simpl;
      apply bool_decide_eq_true in E64 || apply bool_decide_eq_false in E64;
      apply bool_decide_eq_true in E128 || apply bool_decide_eq_false in E128;
      (split; [split; [intros H; try discriminate; eauto
                      | intros (b' & Hb & H1 & H2); injection Hb as <-; try lia; reflexivity]|]);
      (repeat split; intros; try discriminate; try congruence; try tauto;
       try (rewrite bool_decide_eq_false_2 by lia; rewrite bool_decide_eq_false_2 by lia;
            reflexivity)).
  - repeat split; intros; try discriminate; try congruence; try tauto.
    + destruct H as (b' & Hb & _); discriminate.
    + rewrite bool_decide_eq_false_2 by lia; rewrite bool_decide_eq_false_2 by lia;
        reflexivity.
Qed.

Lemma set_thumbnail_outcome_witness :
  snd (set_thumbnail (graph_builder_new 0) (Some (repeat 0 65)))
    = graph_builder_new 0 /\
  fst (set_thumbnail (graph_builder_new 0) (Some (repeat 0 65))) = Err ErrThumbnailLength.
Proof.
  pose proof (set_thumbnail_outcome (graph_builder_new 0) (Some (repeat 0 65)))
    as (_ & Hkeep & _ & _ & H65).
  split.
  - apply Hkeep. vm_compute. discriminate.
  - apply H65. reflexivity.
Defined.

(* ------------------------------------------------------------------ *)
(** ** Vocab.get_id *)


Lemma vocab_new_wf : vocab_wf vocab_new.
Proof.
  intros s i; simpl; rewrite lookup_empty; split; [discriminate|].
  intros (n & _ & Hn); rewrite lookup_nil in Hn; discriminate.
Qed.

Lemma get_id_spec (v : Vocab) (s : list Z) :
  vocab_wf v ->
  let '(i, v') := get_id v s in
  vocab_wf v' /\ tok2id v' !! s = Some i /\
  (forall s' j, tok2id v !! s' = Some j -> tok2id v' !! s' = Some j).
Proof.
  intros Hwf; unfold get_id.
  destruct (tok2id v !! s) as [i|] eqn:Hs; [auto|].
  assert (Hnot : forall n, id2tok v !! n <> Some s).
  { intros n Hn. assert (Hsome : tok2id v !! s = Some (Z.of_nat n + 1))
      by (apply Hwf; eauto). congruence. }
  split; [|split].
  - intros s' j; simpl. destruct (decide (s' = s)) as [->|Hne].
    + rewrite lookup_insert_eq; split.
      * intros [= <-]; exists (length (id2tok v)); split; [lia|].
        rewrite lookup_app_r by lia. rewrite Nat.sub_diag; reflexivity.
      * intros (n & -> & Hn).
        destruct (decide (n < length (id2tok v))%nat) as [Hlt|Hge].
        { rewrite lookup_app_l in Hn by lia. exfalso; eapply Hnot; eauto. }
        rewrite lookup_app_r in Hn by lia.
        apply list_lookup_singleton_Some in Hn as [Hn _].
        f_equal; lia.
    + rewrite lookup_insert_ne by congruence; split.
      * intros Hj; apply Hwf in Hj as (n & -> & Hn); exists n; split; [reflexivity|].
        apply lookup_app_l_Some; exact Hn.
      * intros (n & -> & Hn); apply Hwf; exists n; split; [reflexivity|].
        destruct (decide (n < length (id2tok v))%nat) as [Hlt|Hge].
        { rewrite lookup_app_l in Hn by lia; exact Hn. }
        rewrite lookup_app_r in Hn by lia.
        apply list_lookup_singleton_Some in Hn as [_ Hn]; congruence.
  - simpl; apply lookup_insert_eq.
  - intros s' j Hj; simpl. rewrite lookup_insert_ne by congruence; exact Hj.
Qed.

Lemma get_ids_spec (v : Vocab) (ss : list (list Z)) :
  vocab_wf v ->
  let '(is, v') := get_ids v ss in
  vocab_wf v' /\ Forall2 (fun s i => tok2id v' !! s = Some i) ss is /\
  (forall s' j, tok2id v !! s' = Some j -> tok2id v' !! s' = Some j).
Proof.
  revert v; induction ss as [|s ss IH]; intros v Hwf; simpl; [auto|].
  pose proof (get_id_spec v s Hwf) as Hstep.
  destruct (get_id v s) as [i v1].
  destruct Hstep as (Hwf1 & Hi & Hmono1).
  specialize (IH v1 Hwf1).
  destruct (get_ids v1 ss) as [is v2].
  destruct IH as (Hwf2 & Hall & Hmono2).
  split; [exact Hwf2|split].
  - constructor; [apply Hmono2, Hi | exact Hall].
  - intros s' j Hj; apply Hmono2, Hmono1, Hj.
Qed.

(** C9 *)
(** For one fresh [Vocab] and any sequence of [get_id] calls: two calls
    return the same id exactly when they were given the same string (so
    repeated calls agree and distinct strings never share an id), every
    id is at least 1 (0 is never assigned), and the first string interned
    gets id 1. *)
Theorem get_id_stable_injective (ss : list (list Z)) :
  let ids := fst (get_ids vocab_new ss) in
  length ids = length ss /\
  (forall p q a b x y, ss !! p = Some a -> ss !! q = Some b ->
     ids !! p = Some x -> ids !! q = Some y -> (x = y <-> a = b)) /\
  (forall p x, ids !! p = Some x -> 1 <= x) /\
  (forall a ss', ss = a :: ss' -> ids !! 0%nat = Some 1).
Proof.
  pose proof (get_ids_spec vocab_new ss vocab_new_wf) as Hspec.
  simpl. destruct (get_ids vocab_new ss) as [is v'] eqn:Hrun; simpl.
  destruct Hspec as (Hwf & Hall & _).
  split; [symmetry; eapply Forall2_length; exact Hall|].
  split; [|split].
  - intros p q a b x y Ha Hb Hx Hy.
    pose proof (Forall2_lookup_lr _ _ _ _ _ _ Hall Ha Hx) as Hax.
    pose proof (Forall2_lookup_lr _ _ _ _ _ _ Hall Hb Hy) as Hby.
    split.
    + intros <-. apply Hwf in Hax as (n & -> & Hn).
      apply Hwf in Hby as (n' & Heq & Hn').
      assert (n = n') as <- by lia. congruence.
    + intros <-. congruence.
  - intros p x Hx.
    destruct (Forall2_lookup_r _ _ _ _ _ Hall Hx) as (a & _ & Ha).
    apply Hwf in Ha as (n & -> & _). lia.
  - intros a ss' ->. simpl in Hrun.
    unfold get_id in Hrun; simpl in Hrun; rewrite lookup_empty in Hrun.
    destruct (get_ids _ ss') as [is' v2]; injection Hrun as <- _; reflexivity.
Qed.

Lemma get_id_stable_injective_witness :
  fst (get_ids vocab_new [[97]; [98]; [97]]) = [1; 2; 1] /\
  (1 = 1 <-> [97] = [97]) /\ ~ (1 = 2) /\ 1 <= 2 /\
  fst (get_ids vocab_new [[97]; [98]; [97]]) !! 0%nat = Some 1.
Proof.
  pose proof (get_id_stable_injective [[97]; [98]; [97]]) as (_ & Hinj & Hpos & Hfirst).
  split; [vm_compute; reflexivity|].
  split; [apply (Hinj 0%nat 2%nat); vm_compute; reflexivity|].
  split; [intros H12; apply (Hinj 0%nat 1%nat [97] [98] 1 2) in H12;
          [discriminate | vm_compute; reflexivity ..]|].
  split; [apply (Hpos 1%nat); vm_compute; reflexivity|].
  apply (Hfirst [97] [[98]; [97]]); reflexivity.
Defined.

(* ------------------------------------------------------------------ *)
(** ** annotate_graph *)

Lemma annotate_fold_frame (g : GraphObj) (morphs : list MorphInfo) (is : list nat)
    (h : Heap) (l : loc) :
  (forall i, i ∈ is -> nodes g !! i <> Some l) ->
  fold_left (annotate_step g morphs) is h !! l = h !! l.
Proof.
  revert h; induction is as [|i is IH]; intros h Hnot; simpl; [reflexivity|].
  rewrite IH by (intros j Hj; apply Hnot; set_solver).
  unfold annotate_step.
  destruct (nodes g !! i) as [l'|] eqn:Hl; [|reflexivity].
  destruct (morphs !! i) as [mi|]; [|reflexivity].
  rewrite lookup_alter_ne; [reflexivity|].
  intros ->; apply (Hnot i); [set_solver | exact Hl].
Qed.

Lemma annotate_fold_hit (g : GraphObj) (morphs : list MorphInfo) (is : list nat)
    (h : Heap) (i : nat) (l : loc) (mi : MorphInfo) :
  NoDup (nodes g) -> NoDup is -> i ∈ is ->
  nodes g !! i = Some l -> morphs !! i = Some mi ->
  fold_left (annotate_step g morphs) is h !! l = annotate_node mi <$> h !! l.
Proof.
  intros Hnd; revert h; induction is as [|j is IH]; intros h Hndis Hin Hl Hmi;
    [set_solver|].
  simpl. apply NoDup_cons in Hndis as [Hjnot Hndis].
  destruct (decide (j = i)) as [->|Hne].
  - rewrite annotate_fold_frame.
    + unfold annotate_step; rewrite Hl, Hmi; apply lookup_alter_eq.
    + intros i' Hi' Hl'. assert (i' = i) as ->.
      { eapply (NoDup_lookup (nodes g)); eauto. }
      contradiction.
  - assert (Hin' : i ∈ is) by (apply elem_of_cons in Hin as [->|?]; tauto).
    rewrite (IH _ Hndis Hin' Hl Hmi).
    unfold annotate_step.
    destruct (nodes g !! j) as [l'|] eqn:Hl'; [|reflexivity].
    destruct (morphs !! j) as [mj|]; [|reflexivity].
    rewrite lookup_alter_ne; [reflexivity|].
    intros ->. apply Hne. eapply (NoDup_lookup (nodes g)); eauto.
Qed.

Lemma annotate_node_fields (mi : MorphInfo) (nd : Node.t) :
  let nd' := annotate_node mi nd in
  Node.node_id nd' = Node.node_id nd /\ Node.n_type nd' = Node.n_type nd /\
  Node.features_ref nd' = Node.features_ref nd /\ Node.span nd' = Node.span nd /\
  Node.confidence nd' = Node.confidence nd /\
  Node.sub_type nd' = pos mi /\ Node.label_id nd' = lemma_id mi /\
  (forall b, b <> 1 -> Z.testbit (Node.flags nd') b = Z.testbit (Node.flags nd) b) /\
  Z.testbit (Node.flags nd') 1 = is_stop mi || Z.testbit (Node.flags nd) 1.
Proof.
  unfold annotate_node; cbn [Node.node_id Node.n_type Node.features_ref Node.span
    Node.confidence Node.sub_type Node.label_id Node.flags]; split_and!; try reflexivity.
  - intros b Hb. destruct (is_stop mi); cbn -[Z.testbit Z.lor]; [|reflexivity].
    rewrite Z.lor_spec. unfold NF_IS_STOP.
    replace (Z.testbit 2 b) with false; [apply orb_false_r|].
    symmetry. change 2 with (2 ^ 1). rewrite Z.pow2_bits_eqb by lia.
    apply Z.eqb_neq; congruence.
  - destruct (is_stop mi); cbn -[Z.testbit Z.lor]; [|reflexivity].
    rewrite Z.lor_spec; unfold NF_IS_STOP; simpl; apply orb_true_r.
Qed.

(** C10 *)
(** For a graph whose [nodes] list holds distinct node objects (as every
    graph built by [GraphBuilder] or [decode_pgraph]), [annotate_graph]
    writes exactly the node objects of the first
    [min(len(g.nodes), len(tokens), len(morphs))] positions; on each it sets
    [sub_type] to the POS code and [label_id] to the lemma id, may set the
    stop bit, and keeps every other field and flag bit.  Node objects of the
    later positions and all other objects are unchanged, and [g] itself
    (header, node list, edges) is not written.  The function is total:
    length mismatches do not raise. *)
Theorem annotate_graph_frame (h : Heap) (g : GraphObj) (tokens : list Token.t)
    (morphs : list MorphInfo) :
  NoDup (nodes g) ->
  let n := Nat.min (length (nodes g)) (Nat.min (length tokens) (length morphs)) in
  let h' := annotate_graph h g tokens morphs in
  (forall i l mi nd, (i < n)%nat -> nodes g !! i = Some l -> morphs !! i = Some mi ->
     h !! l = Some nd ->
     exists nd', h' !! l = Some nd' /\
       Node.node_id nd' = Node.node_id nd /\ Node.n_type nd' = Node.n_type nd /\
       Node.features_ref nd' = Node.features_ref nd /\ Node.span nd' = Node.span nd /\
       Node.confidence nd' = Node.confidence nd /\
       Node.sub_type nd' = pos mi /\ Node.label_id nd' = lemma_id mi /\
       (forall b, b <> 1 -> Z.testbit (Node.flags nd') b = Z.testbit (Node.flags nd) b) /\
       Z.testbit (Node.flags nd') 1 = is_stop mi || Z.testbit (Node.flags nd) 1) /\
  (forall i l, (n <= i)%nat -> nodes g !! i = Some l -> h' !! l = h !! l) /\
  (forall l, l ∉ nodes g -> h' !! l = h !! l).
Proof.
  intros Hnd n h'.
  split; [|split].
  - intros i l mi nd Hi Hl Hmi Hnd'.
    exists (annotate_node mi nd). split.
    + unfold h', annotate_graph. fold n.
      assert (Hin : i ∈ seq 0 n) by (apply elem_of_seq; clearbody n; lia).
      rewrite (annotate_fold_hit g morphs (seq 0 n) h i l mi Hnd (NoDup_seq 0 n) Hin Hl Hmi).
      rewrite Hnd'; reflexivity.
    + apply annotate_node_fields.
  - intros i l Hi Hl. unfold h', annotate_graph; fold n.
    apply annotate_fold_frame. intros j Hj Hl'.
    apply elem_of_seq in Hj. assert (j = i) as -> by (eapply (NoDup_lookup (nodes g)); eauto).
    lia.
  - intros l Hl. unfold h', annotate_graph.
    apply annotate_fold_frame. intros j _ Hl'.
    apply Hl. eapply list_elem_of_lookup_2; exact Hl'.
Qed.

Lemma annotate_graph_frame_witness :
  NoDup (nodes ex_graph) /\
  annotate_graph ex_heap ex_graph [ex_token] [ex_morph] !! 2%positive =
    ex_heap !! 2%positive.
Proof.
  assert (Hnd : NoDup (nodes ex_graph)) by (simpl; repeat constructor; set_solver).
  split; [exact Hnd|].
  pose proof (annotate_graph_frame ex_heap ex_graph [ex_token] [ex_morph] Hnd)
    as (_ & Hlater & _).
  apply (Hlater 1%nat); reflexivity.
Defined.

(* ------------------------------------------------------------------ *)
(** ** segment_tokens *)

Lemma absorb_weak_bounds (ts : list Token.t) (j : nat) :
  (j <= absorb_weak ts j <= j + length ts)%nat.
Proof.
  revert j; induction ts as [|t ts IH]; intros j; simpl; [lia|].
  destruct (is_weak t); [specialize (IH (S j)); lia | lia].
Qed.

Lemma tiles_snoc (spans : list (nat * nat)) (a b c : nat) :
  tiles spans a b -> (b < c)%nat -> tiles (spans ++ [(b, c)]) a c.
Proof.
  revert a; induction spans as [|[x y] spans IH]; intros a Ht Hbc; simpl in *.
  - subst; auto.
  - destruct Ht as (-> & Hxy & Ht). auto.
Qed.

Lemma seg_loop_tiles (tokens : list Token.t) (fuel s k : nat) (spans : list (nat * nat)) :
  tiles spans 0 s -> (s <= k <= length tokens)%nat ->
  let '(s', spans') := seg_loop tokens fuel s k spans in
  tiles spans' 0 s' /\ (s' <= length tokens)%nat.
Proof.
  revert s k spans; induction fuel as [|fuel IH]; intros s k spans Ht Hk; simpl;
    [split; [exact Ht | lia]|].
  destruct (tokens !! k) as [t|] eqn:Hkt; [|split; [exact Ht | lia]].
  assert (Hkn : (k < length tokens)%nat) by (apply lookup_lt_is_Some_1; eauto).
  destruct (has_flag (Token.flags t) TF_SENT_END_STRONG).
  - pose proof (absorb_weak_bounds (drop (S k) tokens) (S k)) as Hb.
    rewrite length_drop in Hb.
    apply IH; [apply tiles_snoc; [exact Ht | lia] | lia].
  - destruct (is_weak t && is_ellipsis_text (Token.text t)).
    + destruct (match tokens !! skip_weak_punct (drop (S k) tokens) (S k) with
                | Some tj => has_flag (Token.flags tj) TF_CAP
                | None => true end).
      * apply IH; [apply tiles_snoc; [exact Ht | lia] | lia].
      * apply IH; [exact Ht | lia].
    + apply IH; [exact Ht | lia].
Qed.

Lemma tiles_lower (spans : list (nat * nat)) (a b x y : nat) :
  tiles spans a b -> (x, y) ∈ spans -> (a <= x /\ x < y /\ y <= b)%nat.
Proof.
  revert a; induction spans as [|[x' y'] spans IH]; intros a Ht Hin; simpl in *;
    [set_solver|].
  destruct Ht as (-> & Hxy & Ht).
  apply elem_of_cons in Hin as [[= Hx Hy]|Hin].
  - subst x y. split; [lia|split; [lia|]].
    clear IH Hxy; revert y' Ht; induction spans as [|[u v] spans IH']; intros w Ht;
      simpl in *; [lia|].
    destruct Ht as (-> & Huv & Ht). specialize (IH' v Ht). lia.
  - specialize (IH y' Ht Hin). lia.
Qed.

Lemma tiles_cover (spans : list (nat * nat)) (a b : nat) :
  tiles spans a b ->
  (forall i, (a <= i < b)%nat -> exists x y, (x, y) ∈ spans /\ (x <= i < y)%nat) /\
  (forall i x y x' y', (x, y) ∈ spans -> (x', y') ∈ spans ->
     (x <= i < y)%nat -> (x' <= i < y')%nat -> x = x' /\ y = y').
Proof.
  revert a; induction spans as [|[x0 y0] spans IH]; intros a Ht; simpl in Ht.
  - subst; split; [intros i Hi; lia | intros; set_solver].
  - destruct Ht as (Ha & Hxy & Ht); subst a. destruct (IH y0 Ht) as [Hcov Huniq]. split.
    + intros i Hi. destruct (decide (i < y0)%nat).
      * exists x0, y0; split; [set_solver | lia].
      * destruct (Hcov i) as (x & y & Hin & Hxi); [lia|].
        exists x, y; split; [set_solver | exact Hxi].
    + intros i x y x' y' Hin Hin' Hi Hi'.
      apply elem_of_cons in Hin as [[= -> ->]|Hin];
        apply elem_of_cons in Hin' as [[= -> ->]|Hin']; auto.
      * pose proof (tiles_lower _ _ _ _ _ Ht Hin'); lia.
      * pose proof (tiles_lower _ _ _ _ _ Ht Hin); lia.
      * eapply Huniq; eauto.
Qed.

(** C4 *)
(** For every token list, [segment_tokens] returns consecutive non-empty
    half-open ranges tiling [[0, len(tokens))]: each index below the token
    count lies in exactly one span, and the empty token list gives no
    spans. *)
Theorem segment_tokens_partition (tokens : list Token.t) :
  let spans := segment_tokens tokens in
  tiles spans 0 (length tokens) /\
  (forall i, (i < length tokens)%nat -> exists x y, (x, y) ∈ spans /\ (x <= i < y)%nat) /\
  (forall i x y x' y', (x, y) ∈ spans -> (x', y') ∈ spans ->
     (x <= i < y)%nat -> (x' <= i < y')%nat -> x = x' /\ y = y') /\
  (tokens = [] -> spans = []).
Proof.
  assert (Ht : tiles (segment_tokens tokens) 0 (length tokens)).
  { unfold segment_tokens.
    destruct (length tokens =? 0)%nat eqn:Hn; [apply Nat.eqb_eq in Hn; rewrite Hn; reflexivity|].
    pose proof (seg_loop_tiles tokens (length tokens) 0 0 [] eq_refl ltac:(lia)) as H.
    destruct (seg_loop tokens (length tokens) 0 0 []) as [s spans].
    destruct H as [Ht Hs].
    destruct (s <? length tokens)%nat eqn:Hlt.
    - apply tiles_snoc; [exact Ht | apply Nat.ltb_lt; exact Hlt].
    - apply Nat.ltb_ge in Hlt. assert (s = length tokens) as <- by lia. exact Ht. }
  destruct (tiles_cover _ _ _ Ht) as [Hcov Huniq].
  split; [exact Ht|split; [|split]].
  - intros i Hi; apply Hcov; lia.
  - exact Huniq.
  - intros ->; reflexivity.
Qed.

Lemma segment_tokens_partition_witness :
  exists x y, (x, y) ∈ segment_tokens [ex_token; ex_token] /\ (x <= 1 < y)%nat.
Proof.
  pose proof (segment_tokens_partition [ex_token; ex_token]) as (_ & Hcov & _).
  apply Hcov; simpl; lia.
Defined.

Lemma skip_weak_punct_spec (ts : list Token.t) (j0 : nat) :
  let j := skip_weak_punct ts j0 in
  (j0 <= j)%nat /\
  (forall m, (j0 <= m < j)%nat -> exists t, ts !! (m - j0)%nat = Some t /\ weak_or_punct t = true) /\
  (match ts !! (j - j0)%nat with Some t => weak_or_punct t = false | None => True end).
Proof.
  revert j0; induction ts as [|t ts IH]; intros j0; simpl.
  - split; [lia|split; [intros; lia|]]. destruct (j0 - j0)%nat; exact I.
  - unfold weak_or_punct in *.
    destruct (is_weak t || has_flag (Token.flags t) TF_PUNCT) eqn:Ht.
    + destruct (IH (S j0)) as (Hle & Hall & Hend). split; [lia|split].
      * intros m Hm. destruct (decide (m = j0)) as [->|Hne].
        { exists t. rewrite Nat.sub_diag. split; [reflexivity | exact Ht]. }
        destruct (Hall m) as (t' & Ht' & Hw); [lia|].
        exists t'. replace (m - j0)%nat with (S (m - S j0)) by lia. auto.
      * replace (skip_weak_punct ts (S j0) - j0)%nat
          with (S (skip_weak_punct ts (S j0) - S j0)) by lia. exact Hend.
    + split; [lia|split; [intros; lia|]]. rewrite Nat.sub_diag; simpl; exact Ht.
Qed.

Lemma ellipsis_lookahead_iff (tokens : list Token.t) (k : nat) :
  (match tokens !! skip_weak_punct (drop (S k) tokens) (S k) with
   | Some tj => has_flag (Token.flags tj) TF_CAP
   | None => true
   end = true) <-> ellipsis_closes_spec tokens k.
Proof.
  destruct (skip_weak_punct_spec (drop (S k) tokens) (S k)) as (Hle & Hall & Hend).
  set (j := skip_weak_punct (drop (S k) tokens) (S k)) in *.
  rewrite lookup_drop in Hend. replace (S k + (j - S k))%nat with j in Hend by lia.
  assert (Hall' : forall m tm, (k < m < j)%nat -> tokens !! m = Some tm ->
                    weak_or_punct tm = true).
  { intros m tm Hm Htm. destruct (Hall m) as (t' & Ht' & Hw); [lia|].
    rewrite lookup_drop in Ht'. replace (S k + (m - S k))%nat with m in Ht' by lia.
    congruence. }
  unfold ellipsis_closes_spec. split.
  - destruct (tokens !! j) as [tj|] eqn:Hj; intros Hcap.
    + right. exists j, tj. split_and!; auto.
    + left. intros m t Hm Ht.
      destruct (decide (m < j)%nat) as [Hlt|Hge]; [eapply Hall'; eauto; lia|].
      assert (Hlen : (length tokens <= j)%nat) by (apply lookup_ge_None_1; exact Hj).
      apply lookup_lt_Some in Ht. lia.
  - intros [Hnone | (j' & t & Hkj & Ht & Hw & Hcap & Hbefore)].
    + destruct (tokens !! j) as [tj|] eqn:Hj; [|reflexivity].
      exfalso. assert (weak_or_punct tj = true) by (apply (Hnone j); [lia | exact Hj]).
      congruence.
    + destruct (Nat.lt_trichotomy j j') as [Hlt | [-> | Hgt]].
      * destruct (tokens !! j) as [tj|] eqn:Hj.
        -- exfalso. assert (weak_or_punct tj = true) by (apply (Hbefore j); [lia | exact Hj]).
           congruence.
        -- apply lookup_ge_None_1 in Hj. apply lookup_lt_Some in Ht. lia.
      * rewrite Ht; exact Hcap.
      * exfalso. assert (weak_or_punct t = true) by (apply (Hall' j'); [lia | exact Ht]).
        congruence.
Qed.

Lemma existsb_ext_Forall (f g : Z -> bool) (l : list Z) :
  Forall (fun c => f c = g c) l -> existsb f l = existsb g l.
Proof. induction 1; simpl; congruence. Qed.


Lemma piece_flags_ascii (db : UnicodeDB) (k : kind) (piece : list Z) :
  db_ascii_ok db -> is_ascii_text piece ->
  piece_flags db k piece = piece_flags ascii_db k piece /\
  fallback_flags db piece = fallback_flags ascii_db piece.
Proof.
  intros Hdb Hp.
  assert (Hd : existsb (u_isdigit db) piece = existsb is_ascii_digit piece).
  { apply existsb_ext_Forall. eapply Forall_impl; [exact Hp|]. intros c Hc.
    apply (Hdb c Hc). }
  assert (Ha : existsb (u_isalpha db) piece = existsb is_ascii_alpha piece).
  { apply existsb_ext_Forall. eapply Forall_impl; [exact Hp|]. intros c Hc.
    apply (Hdb c Hc). }
  unfold piece_flags, fallback_flags; simpl; rewrite Hd, Ha.
  destruct piece as [|c piece']; [destruct k; split; reflexivity|].
  apply Forall_cons in Hp as [Hc _].
  destruct (Hdb c Hc) as (_ & _ & Hu). rewrite Hu. destruct k; split; reflexivity.
Qed.

Lemma ascii_text_take_drop (text : list Z) (n p : nat) :
  is_ascii_text text -> is_ascii_text (take n (drop p text)) /\ is_ascii_text (drop p text).
Proof. intros Ht. split; [apply Forall_take|]; apply Forall_drop; exact Ht. Qed.

Lemma scan_ascii (db : UnicodeDB) (text : list Z) (fuel p i idx : nat)
    (acc : list (Token.t * kind)) :
  db_ascii_ok db -> is_ascii_text text ->
  scan db text fuel p i idx acc = scan ascii_db text fuel p i idx acc.
Proof.
  intros Hdb Ht. revert p i idx acc; induction fuel as [|fuel IH];
    intros p i idx acc; simpl; [reflexivity|].
  destruct (p <? length text)%nat; [|reflexivity].
  destruct (master (drop p text)) as [[k n]|]; [|apply IH].
  destruct k; try apply IH;
    (rewrite (proj1 (piece_flags_ascii db _ (take n (drop p text)) Hdb
                      (proj1 (ascii_text_take_drop text n p Ht)))); apply IH).
Qed.

(** On ASCII text, [tokenize] does not depend on the non-ASCII part of the
    Unicode tables. *)
Lemma tokenize_ascii (db : UnicodeDB) (text : list Z) :
  db_ascii_ok db -> is_ascii_text text -> tokenize db text = tokenize ascii_db text.
Proof.
  intros Hdb Ht. unfold tokenize, first_pass.
  rewrite scan_ascii by assumption.
  destruct (scan ascii_db text (length text) 0 0 0 []) as [[i idx] acc].
  destruct (i <? length text)%nat; [|reflexivity].
  rewrite (proj2 (piece_flags_ascii db KWORD (drop i text) Hdb
                (proj2 (ascii_text_take_drop text 0 i Ht)))).
  reflexivity.
Qed.

Lemma ascii_db_ok : db_ascii_ok ascii_db.
Proof. intros c _; simpl; auto. Qed.

(** C5: at a weak-end ellipsis token [k] that is not a strong end,
    [segment_tokens]'s loop looks ahead past weak-end and punctuation
    tokens; it closes the sentence exactly at [k] (span [(s, k+1)]) if and
    only if no substantive token follows or the next one carries the
    capitalized flag, and otherwise moves on to [k+1] without closing.  With
    any Unicode tables that agree with ASCII on ASCII characters, the text
    [Okay... I guess] is tokenized with [...] as token 1 and segmented into
    the two spans [[0,2)] and [[2,4)]. *)
Theorem segment_ellipsis_lookahead (tokens : list Token.t) (fuel s k : nat)
    (spans : list (nat * nat)) (t : Token.t) :
  (tokens !! k = Some t ->
   has_flag (Token.flags t) TF_SENT_END_STRONG = false ->
   is_weak t = true -> is_ellipsis_text (Token.text t) = true ->
   (ellipsis_closes_spec tokens k ->
      seg_loop tokens (S fuel) s k spans
      = seg_loop tokens fuel (S k) (S k) (spans ++ [(s, S k)])) /\
   (~ ellipsis_closes_spec tokens k ->
      seg_loop tokens (S fuel) s k spans = seg_loop tokens fuel s (S k) spans)) /\
  (forall db, db_ascii_ok db ->
     let toks := tokenize db (ascii_cps "Okay... I guess") in
     map Token.text toks !! 1%nat = Some [46; 46; 46] /\
     segment_tokens toks = [(0, 2); (2, 4)]%nat).
Proof.
  split.
  - intros Hk Hs Hw He. simpl. rewrite Hk, Hs, Hw, He. simpl.
    pose proof (ellipsis_lookahead_iff tokens k) as Hiff.
    split; intros Hc.
    + apply Hiff in Hc. rewrite Hc. reflexivity.
    + destruct (match tokens !! skip_weak_punct (drop (S k) tokens) (S k) with
                | Some tj => has_flag (Token.flags tj) TF_CAP
                | None => true end) eqn:Hm; [|reflexivity].
      exfalso. apply Hc, Hiff. reflexivity.
  - intros db Hdb. cbv zeta. rewrite tokenize_ascii.
    + vm_compute. split; reflexivity.
    + exact Hdb.
    + apply (bool_decide_unpack _). vm_compute. exact I.
Qed.

Lemma segment_ellipsis_lookahead_witness :
  seg_loop [ex_ellipsis; ex_token] 1 0 0 [] = seg_loop [ex_ellipsis; ex_token] 0 1 1 [(0, 1)%nat] /\
  map Token.text (tokenize ascii_db (ascii_cps "Okay... I guess")) !! 1%nat = Some [46; 46; 46].
Proof.
  split.
  - refine (proj1 (proj1 (segment_ellipsis_lookahead [ex_ellipsis; ex_token] 0 0 0 [] ex_ellipsis)
                     eq_refl eq_refl eq_refl eq_refl) _).
    right. exists 1%nat, ex_token. split_and!; try reflexivity; [lia|].
    intros m tm Hm; lia.
  - exact (proj1 (proj2 (segment_ellipsis_lookahead [] 0 0 0 [] ex_token) ascii_db ascii_db_ok)).
Defined.

(* ------------------------------------------------------------------ *)
(** ** Shape of the first pass *)

Ltac split_ifs H :=
  repeat (cbv beta iota zeta in H;
          match type of H with
          | context [if ?b then _ else _] => destruct b eqn:?
          | context [match ?x with Some _ => _ | None => _ end] => destruct x eqn:?
          end).

Lemma is_prefix_head (c : Z) (pre s : list Z) :
  is_prefix (c :: pre) s = true -> s !! 0%nat = Some c.
Proof.
  destruct s as [|d s]; simpl; [discriminate|].
  intros H; apply andb_true_iff in H as [H _]; apply Z.eqb_eq in H; subst; reflexivity.
Qed.

Lemma match_url_shape (s : list Z) (n : nat) :
  match_url s = Some n -> (1 <= n)%nat /\ exists c, s !! 0%nat = Some c /\ (c = 104 \/ c = 119).
Proof.
  unfold match_url; intros H; split_ifs H; try discriminate; injection H as <-;
    (split; [lia|]);
    match goal with E : is_prefix (?c :: _) s = true |- _ =>
      exists c; split; [exact (is_prefix_head _ _ _ E) | auto] end.
Qed.

Lemma match_email_shape (s : list Z) (n : nat) :
  match_email s = Some n -> exists l, (l < n)%nat /\ s !! l = Some 64.
Proof.
  unfold match_email; intros H; split_ifs H; try discriminate; injection H as <-.
  match goal with E : negb (bool_decide _) = false |- _ =>
    apply negb_false_iff, bool_decide_eq_true in E end.
  eexists; split; [|eassumption]. lia.
Qed.

Lemma match_handle_shape (s : list Z) (n : nat) :
  match_handle s = Some n -> (1 <= n)%nat /\ exists c, s !! 0%nat = Some c /\ (c = 64 \/ c = 35).
Proof.
  unfold match_handle; destruct s as [|c s]; [discriminate|]; intros H; split_ifs H;
    try discriminate; injection H as <-.
  split; [lia|]. exists c; split; [reflexivity|].
  unfold mem in *; simpl in *. rewrite orb_false_r in *.
  apply orb_true_iff in Heqb as [E|E]; apply Z.eqb_eq in E; auto.
Qed.

Lemma match_word_shape (s : list Z) (n : nat) :
  match_word s = Some n -> (1 <= n)%nat /\ exists c, s !! 0%nat = Some c /\ is_alnum c = true.
Proof.
  unfold match_word; destruct s as [|c s]; [discriminate|]; intros H; split_ifs H;
    try discriminate; injection H as <-.
  simpl; rewrite Heqb; split; [lia|]. eauto.
Qed.

Lemma master_shape (s : list Z) (k : kind) (n : nat) :
  master s = Some (k, n) ->
  (1 <= n)%nat /\
  (is_punct_kind k = false -> k <> KWS ->
   exists j c, (j < n)%nat /\ s !! j = Some c /\ c <> 46 /\ c <> 8230).
Proof.
  unfold master.
  destruct (match_url s) as [m|] eqn:Eu.
  { intros [= <- <-]. apply match_url_shape in Eu as (Hn & c & Hc & Hv).
    split; [exact Hn|]. intros _ _. exists 0%nat, c. split_and!; auto; lia. }
  destruct (match_email s) as [m|] eqn:Ee.
  { intros [= <- <-]. apply match_email_shape in Ee as (l & Hl & Hc).
    split; [lia|]. intros _ _. exists l, 64. split_and!; auto; lia. }
  destruct (match_handle s) as [m|] eqn:Eh.
  { intros [= <- <-]. apply match_handle_shape in Eh as (Hn & c & Hc & Hv).
    split; [exact Hn|]. intros _ _. exists 0%nat, c. split_and!; auto; lia. }
  destruct (match_ellipsis s) as [m|] eqn:El.
  { intros [= <- <-]. unfold match_ellipsis in El; split_ifs El; try discriminate;
      injection El as <-; split; [lia | discriminate | lia | discriminate]. }
  destruct (match_word s) as [m|] eqn:Ew.
  { intros [= <- <-]. apply match_word_shape in Ew as (Hn & c & Hc & Hv).
    split; [exact Hn|]. intros _ _. exists 0%nat, c. split_and!; auto;
    intros ->; discriminate. }
  destruct (match_punct s) as [m|] eqn:Ep.
  { intros [= <- <-]. unfold match_punct in Ep; destruct s; split_ifs Ep; try discriminate;
      injection Ep as <-; split; [lia | discriminate]. }
  unfold with_kind, match_ws. destruct (count_while is_space s =? 0)%nat eqn:Ews;
    [discriminate|]. intros [= <- <-]. apply Nat.eqb_neq in Ews. split; [lia | congruence].
Qed.

Lemma ellipsis_text_cases (s : list Z) :
  is_ellipsis_text s = true -> s = [8230] \/ s = [46; 46; 46].
Proof.
  unfold is_ellipsis_text, in_set; cbn [existsb].
  destruct (bool_decide ([8230] = s)) eqn:E1;
    [left; apply bool_decide_eq_true in E1; auto|].
  destruct (bool_decide ([46; 46; 46] = s)) eqn:E2;
    [right; apply bool_decide_eq_true in E2; auto | discriminate].
Qed.

Lemma piece_not_ellipsis (s : list Z) (n : nat) :
  (exists j c, (j < n)%nat /\ s !! j = Some c /\ c <> 46 /\ c <> 8230) ->
  is_ellipsis_text (take n s) = false.
Proof.
  intros (j & c & Hj & Hc & H46 & H8230).
  destruct (is_ellipsis_text (take n s)) eqn:E; [|reflexivity].
  assert (Ht : take n s !! j = Some c) by (rewrite lookup_take, decide_True by lia; exact Hc).
  apply ellipsis_text_cases in E as [E|E]; rewrite E in Ht;
    destruct j as [|[|[|j]]]; simpl in Ht; try discriminate; injection Ht as <-;
    congruence.
Qed.

Ltac destruct_ifs :=
  repeat match goal with |- context [if ?b then _ else _] => destruct b end.

Lemma piece_flags_bound (db : UnicodeDB) (k : kind) (piece : list Z) :
  0 <= piece_flags db k piece < 8.
Proof.
  unfold piece_flags; destruct k; destruct piece as [|c p']; destruct_ifs;
    split; vm_compute; (reflexivity || (intros ?; discriminate)).
Qed.

Lemma fallback_flags_bound (db : UnicodeDB) (piece : list Z) :
  0 <= fallback_flags db piece < 8.
Proof. unfold fallback_flags; destruct piece as [|c p']; destruct_ifs;
    split; vm_compute; (reflexivity || (intros ?; discriminate)). Qed.


Lemma scan_shape (db : UnicodeDB) (text : list Z) (fuel p i idx : nat)
    (acc : list (Token.t * kind)) :
  (i <= p)%nat -> ((i < p)%nat -> master (drop i text) = None) ->
  (length text <= p + fuel)%nat -> Forall fp_entry_ok acc ->
  let '(i', _, acc') := scan db text fuel p i idx acc in
  ((length text <= i')%nat \/ master (drop i' text) = None) /\ Forall fp_entry_ok acc'.
Proof.
  revert p i idx acc; induction fuel as [|fuel IH]; intros p i idx acc Hip Hnone Hfuel Hacc;
    simpl.
  - split; [|exact Hacc]. destruct (decide (i = p)); [left; lia | right; apply Hnone; lia].
  - destruct (p <? length text)%nat eqn:Hp.
    + apply Nat.ltb_lt in Hp.
      destruct (master (drop p text)) as [[k n]|] eqn:Hm.
      * pose proof (master_shape _ _ _ Hm) as [Hn Hsh].
        destruct k; apply IH; try lia; try (intros; lia); try assumption;
          (apply Forall_app; split; [assumption|]; constructor; [|constructor];
           split; [apply piece_flags_bound|]; simpl; intros He; try reflexivity;
           exfalso; rewrite (piece_not_ellipsis _ _ (Hsh eq_refl ltac:(discriminate))) in He;
           discriminate).
      * apply IH; try lia; try assumption.
        intros Hlt. destruct (decide (i = p)) as [->|]; [exact Hm | apply Hnone; lia].
    + apply Nat.ltb_ge in Hp. split; [|exact Hacc].
      destruct (decide (i = p)); [left; lia | right; apply Hnone; lia].
Qed.

Lemma first_pass_shape (db : UnicodeDB) (text : list Z) :
  Forall fp_entry_ok (first_pass db text).
Proof.
  unfold first_pass.
  pose proof (scan_shape db text (length text) 0 0 0 [] ltac:(lia) ltac:(lia) ltac:(lia)
                (Forall_nil_2 _)) as Hs.
  destruct (scan db text (length text) 0 0 0 []) as [[i idx] acc].
  destruct Hs as [Hend Hacc].
  destruct (i <? length text)%nat eqn:Hi; [|exact Hacc].
  apply Nat.ltb_lt in Hi.
  apply Forall_app; split; [exact Hacc|]. constructor; [|constructor].
  split; [apply fallback_flags_bound|]. simpl. intros He. exfalso.
  destruct Hend as [Hle|Hm]; [lia|].
  apply ellipsis_text_cases in He as [He|He]; rewrite He in Hm; vm_compute in Hm;
    discriminate.
Qed.

(* ------------------------------------------------------------------ *)
(** ** The sentence-end post-pass *)



Lemma toks_grow_refl (l : list Token.t) : toks_grow l l.
Proof.
  split; [reflexivity|]. intros i t Ht; exists t; split; [exact Ht|].
  split; [reflexivity|]. exists 0; rewrite Z.lor_0_r; reflexivity.
Qed.

Lemma toks_grow_trans (l1 l2 l3 : list Token.t) :
  toks_grow l1 l2 -> toks_grow l2 l3 -> toks_grow l1 l3.
Proof.
  intros [Hl12 H12] [Hl23 H23]. split; [congruence|].
  intros i t Ht. destruct (H12 i t Ht) as (t2 & Ht2 & Htx2 & b2 & Hb2).
  destruct (H23 i t2 Ht2) as (t3 & Ht3 & Htx3 & b3 & Hb3).
  exists t3; split; [exact Ht3|]. split; [congruence|].
  exists (Z.lor b2 b3). rewrite Hb3, Hb2, Z.lor_assoc; reflexivity.
Qed.

Lemma toks_grow_back (l l' : list Token.t) (i : nat) (t' : Token.t) :
  toks_grow l l' -> l' !! i = Some t' -> exists t, l !! i = Some t /\ tok_grows t t'.
Proof.
  intros [Hlen H] Ht'.
  destruct (l !! i) as [t|] eqn:Ht.
  - destruct (H i t Ht) as (t'' & Ht'' & Hg). exists t. split; [reflexivity|congruence].
  - apply lookup_ge_None_1 in Ht. apply lookup_lt_Some in Ht'. lia.
Qed.

Lemma has_flag_grows (t t' : Token.t) (bit : Z) :
  tok_grows t t' -> has_flag (Token.flags t) bit = true -> has_flag (Token.flags t') bit = true.
Proof.
  intros (_ & b & Hb). unfold has_flag. rewrite Hb, Z.land_lor_distr_l.
  intros H. apply negb_true_iff, Z.eqb_neq in H. apply negb_true_iff, Z.eqb_neq.
  intros H'. apply Z.lor_eq_0_iff in H' as [H' _]. contradiction.
Qed.

Lemma alter_add_flag_grows (bit : Z) (j : nat) (l : list Token.t) :
  toks_grow l (alter (add_flag bit) j l).
Proof.
  split; [apply length_alter|]. intros i t Ht.
  destruct (decide (i = j)) as [->|Hne].
  - exists (add_flag bit t). rewrite list_lookup_alter_eq, Ht. split; [reflexivity|].
    split; [reflexivity|]. exists bit; reflexivity.
  - exists t. rewrite list_lookup_alter_ne by congruence. split; [exact Ht|].
    split; [reflexivity|]. exists 0; rewrite Z.lor_0_r; reflexivity.
Qed.

Lemma bubble_closers_grows (fuel : nat) (l : list Token.t) (j : nat) :
  toks_grow l (bubble_closers fuel l j).
Proof.
  revert l j; induction fuel as [|fuel IH]; intros l j; cbn [bubble_closers];
    [apply toks_grow_refl|].
  destruct (l !! j) as [t|]; [|apply toks_grow_refl].
  destruct (in_set (Token.text t) CLOSERS); [|apply toks_grow_refl].
  eapply toks_grow_trans; [apply alter_add_flag_grows | apply IH].
Qed.

Lemma post_step_grows (kinds : list kind) (l : list Token.t) (k : nat) :
  toks_grow l (post_step kinds l k).
Proof.
  unfold post_step. destruct (kinds !! k), (l !! k) as [t|]; try apply toks_grow_refl.
  destruct (is_punct_kind k0); [|apply toks_grow_refl].
  destruct (in_set (Token.text t) TERMINATORS_STRONG).
  - eapply toks_grow_trans; [apply alter_add_flag_grows | apply bubble_closers_grows].
  - destruct (in_set (Token.text t) TERMINATORS_WEAK);
      [apply alter_add_flag_grows | apply toks_grow_refl].
Qed.

Lemma post_steps_grow (kinds : list kind) (is : list nat) (l : list Token.t) :
  toks_grow l (fold_left (post_step kinds) is l).
Proof.
  revert l; induction is as [|i is IH]; intros l; simpl; [apply toks_grow_refl|].
  eapply toks_grow_trans; [apply post_step_grows | apply IH].
Qed.


Lemma has_flag_strong_add_weak (f : Z) :
  has_flag (Z.lor f TF_SENT_END_WEAK) TF_SENT_END_STRONG = has_flag f TF_SENT_END_STRONG.
Proof.
  unfold has_flag. rewrite Z.land_lor_distr_l.
  change (Z.land TF_SENT_END_WEAK TF_SENT_END_STRONG) with 0. rewrite Z.lor_0_r.
  reflexivity.
Qed.

Lemma strong_ok_alter (bit : Z) (j : nat) (l : list Token.t) :
  strong_ok l ->
  (bit = TF_SENT_END_WEAK \/
   exists t, l !! j = Some t /\ in_set (Token.text t) TERMINATORS_STRONG = true) ->
  strong_ok (alter (add_flag bit) j l).
Proof.
  intros Hok Hbit i t Ht Hs. destruct (decide (i = j)) as [->|Hne].
  - rewrite list_lookup_alter_eq in Ht.
    destruct (l !! j) as [t0|] eqn:Ht0; [|discriminate]. injection Ht as <-.
    cbn [add_flag Token.text Token.flags] in *.
    destruct Hbit as [->|(t1 & Ht1 & Hin)].
    + rewrite has_flag_strong_add_weak in Hs. exact (Hok j t0 Ht0 Hs).
    + congruence.
  - rewrite list_lookup_alter_ne in Ht by congruence. exact (Hok i t Ht Hs).
Qed.

Lemma strong_ok_bubble (fuel : nat) (l : list Token.t) (j : nat) :
  strong_ok l -> strong_ok (bubble_closers fuel l j).
Proof.
  revert l j; induction fuel as [|fuel IH]; intros l j Hok; cbn [bubble_closers];
    [exact Hok|].
  destruct (l !! j) as [t|]; [|exact Hok].
  destruct (in_set (Token.text t) CLOSERS); [|exact Hok].
  apply IH, strong_ok_alter; auto.
Qed.

Lemma strong_ok_post_steps (kinds : list kind) (is : list nat) (l : list Token.t) :
  strong_ok l -> strong_ok (fold_left (post_step kinds) is l).
Proof.
  revert l; induction is as [|k is IH]; intros l Hok; simpl; [exact Hok|].
  apply IH. unfold post_step.
  destruct (kinds !! k), (l !! k) as [t|] eqn:Ht; try exact Hok.
  destruct (is_punct_kind k0); [|exact Hok].
  destruct (in_set (Token.text t) TERMINATORS_STRONG) eqn:Hs.
  - apply strong_ok_bubble, strong_ok_alter; [exact Hok|]. right; eauto.
  - destruct (in_set (Token.text t) TERMINATORS_WEAK); [|exact Hok].
    apply strong_ok_alter; auto.
Qed.

Lemma bubble_closers_weak (fuel : nat) (l : list Token.t) (j0 j : nat) :
  (j0 <= j)%nat -> (j - j0 < fuel)%nat ->
  (forall m, (j0 <= m <= j)%nat ->
     exists tm, l !! m = Some tm /\ in_set (Token.text tm) CLOSERS = true) ->
  exists t', bubble_closers fuel l j0 !! j = Some t' /\
             has_flag (Token.flags t') TF_SENT_END_WEAK = true.
Proof.
  revert l j0; induction fuel as [|fuel IH]; intros l j0 Hj Hf Hcl; [lia|].
  cbn [bubble_closers]. destruct (Hcl j0) as (t0 & Ht0 & Hc0); [lia|]. rewrite Ht0, Hc0.
  destruct (decide (j = j0)) as [->|Hne].
  - destruct (bubble_closers_grows fuel (alter (add_flag TF_SENT_END_WEAK) j0 l) (S j0))
      as [_ Hg].
    destruct (Hg j0 (add_flag TF_SENT_END_WEAK t0)) as (t' & Ht' & Hgr).
    { rewrite list_lookup_alter_eq, Ht0; reflexivity. }
    exists t'; split; [exact Ht'|]. apply (has_flag_grows _ _ _ Hgr).
    unfold has_flag, add_flag; simpl. rewrite Z.land_lor_distr_l.
    apply negb_true_iff, Z.eqb_neq. intros H. apply Z.lor_eq_0_iff in H as [_ H].
    discriminate.
  - apply IH; [lia | lia |]. intros m Hm.
    rewrite list_lookup_alter_ne by lia. apply Hcl; lia.
Qed.

Lemma post_pass_split (kinds : list kind) (l : list Token.t) (k : nat) :
  (k < length l)%nat ->
  post_pass kinds l =
  fold_left (post_step kinds) (seq (S k) (length l - S k))
    (post_step kinds (fold_left (post_step kinds) (seq 0 k) l) k).
Proof.
  intros Hk. unfold post_pass.
  replace (length l) with (k + S (length l - S k))%nat at 1 by lia.
  rewrite seq_app, fold_left_app. simpl. reflexivity.
Qed.

Lemma lookup_map_list {A B} (f : A -> B) (l : list A) (i : nat) :
  map f l !! i = option_map f (l !! i).
Proof. revert i; induction l as [|x l IH]; intros [|i]; simpl; auto. Qed.

Lemma has_flag_add (f bit : Z) : bit <> 0 -> has_flag (Z.lor f bit) bit = true.
Proof.
  intros Hb. unfold has_flag. rewrite Z.land_lor_distr_l, Z.land_diag.
  apply negb_true_iff, Z.eqb_neq. intros H. apply Z.lor_eq_0_iff in H as [_ H]. contradiction.
Qed.

Lemma has_flag_small (f : Z) : 0 <= f < 8 -> has_flag f TF_SENT_END_STRONG = false.
Proof.
  intros H. assert (f = 0 \/ f = 1 \/ f = 2 \/ f = 3 \/ f = 4 \/ f = 5 \/ f = 6 \/ f = 7)
    as Hf by lia.
  repeat destruct Hf as [->|Hf]; try reflexivity; subst; reflexivity.
Qed.

(** C6: in the post-pass of [tokenize], a punctuation or ellipsis token whose
    text is [.], [?] or [!] gets the strong-end flag, and every token after
    it that is reached through an unbroken run of closer texts gets the
    weak-end flag; every token whose text is an ellipsis gets the weak-end
    flag and not the strong-end flag.  The post-pass keeps the texts of the
    first pass. *)
Theorem tokenize_sentence_end_flags (db : UnicodeDB) (text : list Z) :
  let fp := first_pass db text in
  let toks := tokenize db text in
  map Token.text toks = map (fun e => Token.text (fst e)) fp /\
  (forall k t kd, toks !! k = Some t -> map snd fp !! k = Some kd ->
     is_punct_kind kd = true -> in_set (Token.text t) TERMINATORS_STRONG = true ->
     has_flag (Token.flags t) TF_SENT_END_STRONG = true /\
     (forall j tj, (k < j)%nat -> toks !! j = Some tj ->
        (forall m tm, (k < m <= j)%nat -> toks !! m = Some tm ->
           in_set (Token.text tm) CLOSERS = true) ->
        has_flag (Token.flags tj) TF_SENT_END_WEAK = true)) /\
  (forall k t, toks !! k = Some t -> in_set (Token.text t) TERMINATORS_WEAK = true ->
     has_flag (Token.flags t) TF_SENT_END_WEAK = true /\
     has_flag (Token.flags t) TF_SENT_END_STRONG = false).
Proof.
  cbv zeta. unfold tokenize.
  set (fp := first_pass db text). set (kinds := map snd fp). set (l0 := map fst fp).
  pose proof (first_pass_shape db text) as Hshape. fold fp in Hshape.
  rewrite Forall_lookup in Hshape.
  assert (Hgrow : toks_grow l0 (post_pass kinds l0)) by apply post_steps_grow.
  assert (Hlen : length (post_pass kinds l0) = length l0) by apply Hgrow.
  assert (Hstep : forall k t, post_pass kinds l0 !! k = Some t ->
    exists mid tm, toks_grow l0 mid /\ mid !! k = Some tm /\
      Token.text tm = Token.text t /\ (k < length l0)%nat /\
      post_pass kinds l0 =
      fold_left (post_step kinds) (seq (S k) (length l0 - S k)) (post_step kinds mid k)).
  { intros k t Ht.
    assert (Hk : (k < length l0)%nat) by (apply lookup_lt_Some in Ht; lia).
    exists (fold_left (post_step kinds) (seq 0 k) l0).
    destruct (lookup_lt_is_Some_2 l0 k Hk) as [t0 Ht0].
    destruct (post_steps_grow kinds (seq 0 k) l0) as [_ Hg0].
    destruct (Hg0 k t0 Ht0) as (tm & Htm & Htx & _).
    destruct (toks_grow_back _ _ _ _ Hgrow Ht) as (t0' & Ht0' & Htx' & _).
    exists tm. split_and!; [apply post_steps_grow | exact Htm | congruence | exact Hk |].
    apply post_pass_split; exact Hk. }
  split; [|split].
  - apply list_eq; intros i. rewrite !lookup_map_list.
    destruct (post_pass kinds l0 !! i) as [t|] eqn:Ht.
    + destruct (toks_grow_back _ _ _ _ Hgrow Ht) as (t0 & Ht0 & Htx & _).
      unfold l0 in Ht0. rewrite lookup_map_list in Ht0.
      destruct (fp !! i) as [[a b]|]; simpl in *; [|discriminate].
      injection Ht0 as ->. congruence.
    + destruct (fp !! i) eqn:Hfp; [|reflexivity]. exfalso.
      apply lookup_ge_None_1 in Ht. apply lookup_lt_Some in Hfp.
      assert (length l0 = length fp) by (unfold l0; apply length_map). lia.
  - intros k t kd Ht Hkd Hp Hs.
    destruct (Hstep k t Ht) as (mid & tm & Hgm & Htm & Htx & Hk & Heq).
    assert (Hps : post_step kinds mid k =
      bubble_closers (length mid) (alter (add_flag TF_SENT_END_STRONG) k mid) (S k)).
    { unfold post_step. rewrite Hkd, Htm, Hp, Htx, Hs. reflexivity. }
    set (la := alter (add_flag TF_SENT_END_STRONG) k mid) in *.
    assert (Hla : toks_grow la (post_pass kinds l0)).
    { rewrite Heq, Hps.
      eapply toks_grow_trans; [apply bubble_closers_grows | apply post_steps_grow]. }
    split.
    + assert (Hka : la !! k = Some (add_flag TF_SENT_END_STRONG tm))
        by (unfold la; rewrite list_lookup_alter_eq, Htm; reflexivity).
      destruct Hla as [_ Hla']. destruct (Hla' k _ Hka) as (t' & Ht' & Hg').
      rewrite Ht in Ht'; injection Ht' as <-.
      apply (has_flag_grows _ _ _ Hg'). apply has_flag_add. discriminate.
    + intros j tj Hkj Htj Hcl.
      assert (Hlm : length mid = length l0) by apply Hgm.
      assert (Hj : (j < length l0)%nat) by (apply lookup_lt_Some in Htj; lia).
      destruct (bubble_closers_weak (length mid) la (S k) j) as (tb & Htb & Hw);
        [lia | lia | |].
      { intros m Hm.
        destruct (lookup_lt_is_Some_2 (post_pass kinds l0) m) as [tmf Htmf]; [lia|].
        destruct (toks_grow_back _ _ _ _ Hla Htmf) as (ta & Hta & Htxa & _).
        exists ta; split; [exact Hta|]. rewrite <- Htxa. apply (Hcl m); [lia | exact Htmf]. }
      assert (Hfin : toks_grow (bubble_closers (length mid) la (S k)) (post_pass kinds l0))
        by (rewrite Heq, Hps; apply post_steps_grow).
      destruct Hfin as [_ Hfin']. destruct (Hfin' j tb Htb) as (t' & Ht' & Hg').
      rewrite Htj in Ht'. injection Ht' as <-. exact (has_flag_grows _ _ _ Hg' Hw).
  - intros k t Ht Hw.
    destruct (Hstep k t Ht) as (mid & tm & Hgm & Htm & Htx & Hk & Heq).
    destruct (toks_grow_back _ _ _ _ Hgrow Ht) as (t0 & Ht0 & Htx0 & _).
    unfold l0 in Ht0; rewrite lookup_map_list in Ht0.
    destruct (fp !! k) as [[a kd]|] eqn:Hfp; [|discriminate].
    simpl in Ht0; injection Ht0 as ->.
    destruct (Hshape k _ Hfp) as [_ Hell]. simpl in Hell.
    assert (He : is_ellipsis_text (Token.text t) = true) by exact Hw.
    assert (Hp : is_punct_kind kd = true) by (apply Hell; rewrite <- Htx0; exact He).
    assert (Hkd : kinds !! k = Some kd)
      by (unfold kinds; rewrite lookup_map_list, Hfp; reflexivity).
    assert (Hns : in_set (Token.text t) TERMINATORS_STRONG = false)
      by (destruct (ellipsis_text_cases _ He) as [E|E]; rewrite E; vm_compute; reflexivity).
    assert (Hps : post_step kinds mid k = alter (add_flag TF_SENT_END_WEAK) k mid).
    { unfold post_step. rewrite Hkd, Htm, Hp, Htx, Hns, Hw. reflexivity. }
    split.
    + assert (Hka : alter (add_flag TF_SENT_END_WEAK) k mid !! k =
                    Some (add_flag TF_SENT_END_WEAK tm))
        by (rewrite list_lookup_alter_eq, Htm; reflexivity).
      destruct (post_steps_grow kinds (seq (S k) (length l0 - S k))
                  (alter (add_flag TF_SENT_END_WEAK) k mid)) as [_ Hg].
      rewrite <- Hps, <- Heq in Hg.
      rewrite <- Hps in Hka. destruct (Hg k _ Hka) as (t' & Ht' & Hg'). rewrite Ht in Ht'. injection Ht' as <-.
      apply (has_flag_grows _ _ _ Hg'). apply has_flag_add. discriminate.
    + destruct (has_flag (Token.flags t) TF_SENT_END_STRONG) eqn:Hst; [|reflexivity].
      exfalso.
      assert (Hso : strong_ok (post_pass kinds l0)).
      { apply strong_ok_post_steps. intros i u Hu Hsu. exfalso.
        unfold l0 in Hu. rewrite lookup_map_list in Hu.
        destruct (fp !! i) as [[u' kd']|] eqn:Hfi; [|discriminate].
        simpl in Hu; injection Hu as ->. destruct (Hshape i _ Hfi) as [Hb _].
        simpl in Hb. rewrite has_flag_small in Hsu; [discriminate | exact Hb]. }
      rewrite (Hso k t Ht Hst) in Hns; discriminate.
Qed.

Lemma tokenize_sentence_end_flags_witness :
  has_flag (Token.flags (Token.mk 1 [46] 2 3 10)) TF_SENT_END_STRONG = true /\
  has_flag (Token.flags (Token.mk 2 [41] 3 4 18)) TF_SENT_END_WEAK = true.
Proof.
  destruct (tokenize_sentence_end_flags ascii_db (ascii_cps "Hi.)")) as (_ & Hs & _).
  destruct (Hs 1%nat (Token.mk 1 [46] 2 3 10) KPUNCT) as [H1 H2];
    [vm_compute; reflexivity | vm_compute; reflexivity | reflexivity | vm_compute; reflexivity |].
  split; [exact H1|].
  apply (H2 2%nat); [lia | vm_compute; reflexivity |].
  intros m tm Hm Htm. assert (m = 2%nat) as -> by lia.
  vm_compute in Htm. injection Htm as <-. vm_compute. reflexivity.
Defined.

(* ------------------------------------------------------------------ *)
(** ** The capitalized flag *)




Lemma cap_of_add_flag (bit : Z) (t : Token.t) :
  bit = TF_SENT_END_STRONG \/ bit = TF_SENT_END_WEAK -> cap_of (add_flag bit t) = cap_of t.
Proof.
  intros Hb. unfold cap_of, add_flag, has_flag; simpl. rewrite Z.land_lor_distr_l.
  destruct Hb as [->| ->]; change (Z.land _ TF_CAP) with 0 at 2; rewrite Z.lor_0_r;
    reflexivity.
Qed.

Lemma same_cap_alter (bit : Z) (j : nat) (l : list Token.t) :
  bit = TF_SENT_END_STRONG \/ bit = TF_SENT_END_WEAK -> same_cap l (alter (add_flag bit) j l).
Proof.
  intros Hb i. destruct (decide (i = j)) as [->|Hne].
  - rewrite list_lookup_alter_eq. destruct (l !! j); simpl; [|reflexivity].
    rewrite cap_of_add_flag by exact Hb; reflexivity.
  - rewrite list_lookup_alter_ne by congruence; reflexivity.
Qed.

Lemma same_cap_trans (l1 l2 l3 : list Token.t) :
  same_cap l1 l2 -> same_cap l2 l3 -> same_cap l1 l3.
Proof. intros H12 H23 i. rewrite H23; apply H12. Qed.

Lemma same_cap_bubble (fuel : nat) (l : list Token.t) (j : nat) :
  same_cap l (bubble_closers fuel l j).
Proof.
  revert l j; induction fuel as [|fuel IH]; intros l j; cbn [bubble_closers];
    [intros i; reflexivity|].
  destruct (l !! j) as [t|]; [|intros i; reflexivity].
  destruct (in_set (Token.text t) CLOSERS); [|intros i; reflexivity].
  eapply same_cap_trans; [apply same_cap_alter; auto | apply IH].
Qed.

Lemma same_cap_post_steps (kinds : list kind) (is : list nat) (l : list Token.t) :
  same_cap l (fold_left (post_step kinds) is l).
Proof.
  revert l; induction is as [|k is IH]; intros l; simpl; [intros i; reflexivity|].
  eapply same_cap_trans; [|apply IH]. unfold post_step.
  destruct (kinds !! k), (l !! k) as [t|]; try (intros i; reflexivity).
  destruct (is_punct_kind k0); [|intros i; reflexivity].
  destruct (in_set (Token.text t) TERMINATORS_STRONG).
  - eapply same_cap_trans; [apply (same_cap_alter TF_SENT_END_STRONG); auto | apply same_cap_bubble].
  - destruct (in_set (Token.text t) TERMINATORS_WEAK);
      [apply same_cap_alter; auto | intros i; reflexivity].
Qed.

Lemma piece_flags_cap (db : UnicodeDB) (k : kind) (piece : list Z) :
  has_flag (piece_flags db k piece) TF_CAP =
    match k with KWORD => cap_cond db piece | _ => false end.
Proof.
  unfold piece_flags, cap_cond; destruct k; destruct piece as [|c p']; destruct_ifs;
    vm_compute; reflexivity.
Qed.

Lemma fallback_flags_cap (db : UnicodeDB) (piece : list Z) :
  has_flag (fallback_flags db piece) TF_CAP = cap_cond db piece.
Proof.
  unfold fallback_flags, cap_cond; destruct piece as [|c p']; destruct_ifs;
    vm_compute; reflexivity.
Qed.


Lemma scan_cap (db : UnicodeDB) (text : list Z) (fuel p i idx : nat)
    (acc : list (Token.t * kind)) :
  Forall (cap_entry_ok db) acc ->
  Forall (cap_entry_ok db) (snd (scan db text fuel p i idx acc)).
Proof.
  revert p i idx acc; induction fuel as [|fuel IH]; intros p i idx acc Hacc; simpl;
    [exact Hacc|].
  destruct (p <? length text)%nat; [|exact Hacc].
  destruct (master (drop p text)) as [[k n]|]; [|apply IH; exact Hacc].
  destruct k; apply IH; try exact Hacc.
  all: apply Forall_app; split; [exact Hacc|]; constructor; [|constructor].
  all: unfold cap_entry_ok, cap_of; cbn [fst snd Token.flags Token.text]; apply piece_flags_cap.
Qed.

Lemma first_pass_cap (db : UnicodeDB) (text : list Z) :
  Forall (cap_entry_ok db) (first_pass db text).
Proof.
  unfold first_pass.
  pose proof (scan_cap db text (length text) 0 0 0 [] (Forall_nil_2 _)) as Hs.
  destruct (scan db text (length text) 0 0 0 []) as [[i idx] acc]. simpl in Hs.
  destruct (i <? length text)%nat; [|exact Hs].
  apply Forall_app; split; [exact Hs|]. constructor; [|constructor].
  unfold cap_entry_ok, cap_of; cbn [fst snd Token.flags Token.text]; apply fallback_flags_cap.
Qed.

(** C7 (code bug): the text [a*b] has the non-whitespace character [*] at
    index 1, which no alternative of the grammar matches; [finditer] moves
    past it and the final match ends the text, so no fallback token is
    made and index 1 lies in the span of no token. *)
Theorem tokenize_drops_unmatched_char (db : UnicodeDB) :
  db_ascii_ok db ->
  let toks := tokenize db (ascii_cps "a*b") in
  ascii_cps "a*b" !! 1%nat = Some 42 /\ is_space 42 = false /\
  map (fun t => (Token.start t, Token.end_ t)) toks = [(0, 1); (2, 3)]%nat /\
  (forall t, In t toks -> ~ (Token.start t <= 1 < Token.end_ t)%nat).
Proof.
  intros Hdb. cbv zeta. rewrite tokenize_ascii; [|exact Hdb|].
  - split_and!; [reflexivity | reflexivity | vm_compute; reflexivity |].
    intros t Ht. vm_compute in Ht.
    destruct Ht as [<-|[<-|[]]]; simpl; lia.
  - apply (bool_decide_unpack _). vm_compute. exact I.
Qed.

Lemma tokenize_drops_unmatched_char_witness :
  map (fun t => (Token.start t, Token.end_ t)) (tokenize ascii_db (ascii_cps "a*b"))
    = [(0, 1); (2, 3)]%nat.
Proof.
  exact (proj1 (proj2 (proj2 (tokenize_drops_unmatched_char ascii_db ascii_db_ok)))).
Defined.

Lemma tokenize_email_cap_counterexample :
  exists t, tokenize ascii_db (ascii_cps "Bob@example.com") = [t] /\
    map snd (first_pass ascii_db (ascii_cps "Bob@example.com")) = [KEMAIL] /\
    (exists rest, Token.text t = 66 :: rest) /\ u_isupper ascii_db 66 = true /\
    existsb (u_isalpha ascii_db) (Token.text t) = true /\
    has_flag (Token.flags t) TF_CAP = false.
Proof.
  eexists. split; [vm_compute; reflexivity|].
  split; [vm_compute; reflexivity|].
  split_and!; [eexists; reflexivity | reflexivity | vm_compute; reflexivity |
               vm_compute; reflexivity].
Qed.

(** C8 (corrected): a token of [tokenize] carries the capitalized flag
    exactly when it came from the word alternative or is the fallback token
    (both have kind WORD), its first character is uppercase and it contains
    a letter.  Tokens of the URL, email, handle, ellipsis and punctuation
    alternatives never carry it. *)
Theorem tokenize_cap_flag (db : UnicodeDB) (text : list Z) (k : nat) (t : Token.t)
    (kd : kind) :
  tokenize db text !! k = Some t -> map snd (first_pass db text) !! k = Some kd ->
  (has_flag (Token.flags t) TF_CAP = true <->
   kd = KWORD /\
   exists c rest, Token.text t = c :: rest /\ u_isupper db c = true /\
                  existsb (u_isalpha db) (Token.text t) = true).
Proof.
  intros Ht Hkd. unfold tokenize in Ht.
  set (fp := first_pass db text) in *. set (kinds := map snd fp) in *.
  set (l0 := map fst fp) in *.
  pose proof (post_steps_grow kinds (seq 0 (length l0)) l0) as Hgrow.
  pose proof (same_cap_post_steps kinds (seq 0 (length l0)) l0 k) as Hsc.
  fold (post_pass kinds l0) in Hgrow, Hsc.
  destruct (toks_grow_back _ _ _ _ Hgrow Ht) as (t0 & Ht0 & Htx & _).
  rewrite Ht, Ht0 in Hsc. injection Hsc as Hsc.
  unfold l0 in Ht0. rewrite lookup_map_list in Ht0.
  unfold kinds in Hkd. rewrite lookup_map_list in Hkd.
  destruct (fp !! k) as [[a kd']|] eqn:Hfp; [|discriminate].
  injection Ht0 as ->. injection Hkd as ->.
  pose proof (first_pass_cap db text) as Hcap. fold fp in Hcap.
  rewrite Forall_lookup in Hcap. specialize (Hcap k _ Hfp).
  unfold cap_entry_ok in Hcap; cbn [fst snd] in Hcap.
  change (has_flag (Token.flags t) TF_CAP) with (cap_of t). rewrite Hsc, Hcap, <- Htx.
  unfold cap_cond.
  destruct kd; split; try (intros [H _]; discriminate); try (intros H; discriminate).
  - intros H. split; [reflexivity|].
    destruct (Token.text t) as [|c rest]; [discriminate|].
    apply andb_true_iff in H as [Ha Hu]. exists c, rest. auto.
  - intros [_ (c & rest & Hct & Hu & Ha)]. rewrite Hct in *. cbv beta iota.
    rewrite Ha, Hu. reflexivity.
Qed.

Lemma tokenize_cap_flag_witness :
  has_flag (Token.flags (Token.mk 0 [79; 107; 97; 121] 0 4 1)) TF_CAP = true.
Proof.
  apply (proj2 (tokenize_cap_flag ascii_db [79; 107; 97; 121] 0
                  (Token.mk 0 [79; 107; 97; 121] 0 4 1) KWORD
                  ltac:(vm_compute; reflexivity) ltac:(vm_compute; reflexivity))).
  split; [reflexivity|]. exists 79, [107; 97; 121]. split_and!; reflexivity.
Defined.

(* ------------------------------------------------------------------ *)
(** ** Varint round trip *)

Lemma land_127_small (b : Z) : 0 <= b < 128 -> Z.land b 127 = b.
Proof.
  intros Hb. change 127 with (Z.ones 7). rewrite Z.land_ones by lia.
  apply Z.mod_small. change (2 ^ 7) with 128. lia.
Qed.

Lemma land_128_small (b : Z) : 0 <= b < 128 -> Z.land b 128 = 0.
Proof.
  intros Hb. rewrite <- (land_127_small b Hb), <- Z.land_assoc.
  change (Z.land 127 128) with 0. apply Z.land_0_r.
Qed.

Lemma continuation_byte (b : Z) :
  0 <= b < 128 -> Z.land (Z.lor b 128) 127 = b /\ Z.land (Z.lor b 128) 128 <> 0.
Proof.
  intros Hb. rewrite !Z.land_lor_distr_l. split.
  - change (Z.land 128 127) with 0. rewrite Z.lor_0_r. apply land_127_small, Hb.
  - rewrite land_128_small by exact Hb. change (Z.land 128 128) with 128. discriminate.
Qed.

Lemma land_127_range (v : Z) : 0 <= Z.land v 127 < 128.
Proof.
  change 127 with (Z.ones 7). rewrite Z.land_ones by lia.
  change (2 ^ 7) with 128. apply Z.mod_pos_bound. lia.
Qed.

Lemma shiftl_split (v s : Z) :
  0 <= s ->
  Z.shiftl v s = Z.lor (Z.shiftl (Z.land v 127) s) (Z.shiftl (Z.shiftr v 7) (s + 7)).
Proof.
  intros Hs. apply Z.bits_inj'; intros n Hn.
  rewrite Z.lor_spec, !Z.shiftl_spec by lia.
  change 127 with (Z.ones 7).
  destruct (Z.ltb_spec n s) as [Hlt|Hge].
  - rewrite !Z.testbit_neg_r by lia. reflexivity.
  - rewrite Z.land_spec, Z.testbit_ones by lia.
    destruct (Z.ltb_spec (n - s) 7) as [Hl7|Hg7].
    + rewrite (Z.testbit_neg_r _ (n - (s + 7))) by lia.
      rewrite andb_true_r, orb_false_r. destruct (Z.leb_spec 0 (n - s)); [|lia].
      rewrite andb_true_r. reflexivity.
    + rewrite andb_false_r, Z.shiftr_spec by lia. rewrite andb_false_r. simpl.
      replace (n - (s + 7) + 7) with (n - s) by lia. reflexivity.
Qed.

Lemma drop_cons_tail (buf : list Z) (i : nat) (x : Z) (l : list Z) :
  drop i buf = x :: l -> buf !! i = Some x /\ drop (S i) buf = l.
Proof.
  intros H. split.
  - rewrite <- (Nat.add_0_r i), <- lookup_drop, H. reflexivity.
  - replace (S i) with (i + 1)%nat by lia. rewrite <- drop_drop, H. reflexivity.
Qed.

Lemma drop_skip (buf : list Z) (i : nat) (xs rest : list Z) :
  drop i buf = xs ++ rest -> drop (i + length xs) buf = rest.
Proof. intros H. rewrite <- drop_drop, H, drop_app_length. reflexivity. Qed.

Lemma uvarint_loop_roundtrip (E F : nat) (s acc v : Z) (buf : list Z) (i : nat)
    (rest : list Z) :
  (1 <= E)%nat -> (1 <= F)%nat -> 0 <= s -> s + 7 * Z.of_nat F <= 70 ->
  0 <= v -> v < 2 ^ (7 * Z.of_nat F) -> v < 2 ^ (7 * Z.of_nat E) ->
  drop i buf = uvarint_encode_loop E v ++ rest ->
  uvarint_decode_loop buf F s acc i =
    Ok (Z.lor acc (Z.shiftl v s), (i + length (uvarint_encode_loop E v))%nat).
Proof.
  revert F s acc v i; induction E as [|E IH]; intros F s acc v i HE HF Hs HsF Hv HvF HvE Hbuf;
    [lia|].
  destruct F as [|F]; [lia|].
  pose proof (land_127_range v) as Hb.
  assert (Hsh : Z.shiftr v 7 = v / 128) by (rewrite Z.shiftr_div_pow2 by lia; reflexivity).
  cbn [uvarint_encode_loop] in Hbuf |- *.
  destruct (negb (Z.shiftr v 7 =? 0)) eqn:Hv'.
  - apply negb_true_iff, Z.eqb_neq in Hv'.
    apply drop_cons_tail in Hbuf as [Hi Hbuf].
    destruct (continuation_byte _ Hb) as [Hlo Hhi].
    assert (Hv128 : 128 <= v).
    { destruct (Z.ltb_spec v 128); [|lia]. exfalso; apply Hv'. rewrite Hsh.
      apply Z.div_small; lia. }
    assert (HF1 : (1 <= F)%nat).
    { destruct F; [|lia]. exfalso. simpl in HvF. lia. }
    cbn [uvarint_decode_loop]. rewrite Hi.
    apply Z.eqb_neq in Hhi. rewrite Hhi, Hlo.
    destruct (Z.gtb_spec (s + 7) 63); [lia|].
    assert (Hpow : forall n : nat, 2 ^ (7 * Z.of_nat (S n)) = 128 * 2 ^ (7 * Z.of_nat n)).
    { intros n. rewrite Nat2Z.inj_succ, Z.mul_succ_r, Z.pow_add_r by lia.
      change (2 ^ 7) with 128. lia. }
    rewrite (IH F (s + 7) _ (Z.shiftr v 7) (S i)); try lia.
    + f_equal. f_equal.
      * rewrite <- Z.lor_assoc, <- shiftl_split by lia. reflexivity.
      * simpl. lia.
    + assert (1 <= E)%nat; [|lia]. destruct E; [|lia]. exfalso. simpl in HvE. lia.
    + rewrite Hsh. apply Z.div_pos; lia.
    + rewrite Hsh. apply Z.div_lt_upper_bound; [lia|]. rewrite <- Hpow. exact HvF.
    + rewrite Hsh. apply Z.div_lt_upper_bound; [lia|]. rewrite <- Hpow. exact HvE.
    + exact Hbuf.
  - apply negb_false_iff, Z.eqb_eq in Hv'.
    apply drop_cons_tail in Hbuf as [Hi _].
    assert (Hv128 : v < 128).
    { rewrite Hsh in Hv'. destruct (Z.ltb_spec v 128); [lia|].
      assert (1 <= v / 128) by (apply Z.div_le_lower_bound; lia). lia. }
    cbn [uvarint_decode_loop]. rewrite Hi.
    rewrite land_128_small by exact Hb. simpl.
    rewrite (land_127_small (Z.land v 127) Hb), (land_127_small v) by lia.
    f_equal. f_equal. lia.
Qed.



Lemma uvarint_encode_ok (v : Z) : 0 <= v -> uvarint_encode v = Ok (uvarint_bytes v).
Proof.
  intros Hv. unfold uvarint_encode. destruct (Z.ltb_spec v 0); [lia|]. reflexivity.
Qed.

Lemma put_uvarint_ok (out : list Z) (v : Z) :
  0 <= v -> put_uvarint out v = Ok (out ++ uvarint_bytes v).
Proof. intros Hv. unfold put_uvarint. rewrite uvarint_encode_ok by exact Hv. reflexivity. Qed.

Lemma read_uvarint_ok (buf : list Z) (i : nat) (v : Z) (rest : list Z) :
  drop i buf = uvarint_bytes v ++ rest -> 0 <= v < VARINT_BOUND ->
  read_uvarint buf i = Ok (v, (i + length (uvarint_bytes v))%nat).
Proof.
  intros Hbuf Hv. unfold read_uvarint, uvarint_decode, VARINT_BOUND in *.
  unfold uvarint_bytes in *.
  assert (HE : v < 2 ^ (7 * Z.of_nat (S (Z.to_nat (Z.log2 v))))).
  { destruct (Z.eq_dec v 0) as [->|Hne]; [simpl; lia|].
    apply Z.log2_lt_pow2; [lia|]. rewrite Nat2Z.inj_succ, Z2Nat.id by apply Z.log2_nonneg.
    pose proof (Z.log2_nonneg v). lia. }
  rewrite (uvarint_loop_roundtrip (S (Z.to_nat (Z.log2 v))) 10 0 0 v buf i rest);
    try (simpl; lia); try exact HE; try exact Hbuf.
  rewrite Z.lor_0_l, Z.shiftl_0_r. reflexivity.
Qed.

Lemma read_byte_ok (buf : list Z) (i : nat) (x : Z) (rest : list Z) :
  drop i buf = x :: rest -> read_byte buf i = Ok (x, S i).
Proof.
  intros H. unfold read_byte. destruct (drop_cons_tail _ _ _ _ H) as [-> _]. reflexivity.
Qed.

Lemma u16_le_roundtrip (f : Z) : 0 <= f < 65536 -> int_from_bytes_le (u16_le f) = f.
Proof.
  intros Hf. unfold u16_le.
  assert (Hm : Z.land f 65535 = f).
  { change 65535 with (Z.ones 16). rewrite Z.land_ones by lia. apply Z.mod_small.
    change (2 ^ 16) with 65536. lia. }
  rewrite Hm. simpl.
  change 255 with (Z.ones 8). rewrite Z.land_ones, Z.shiftr_div_pow2 by lia.
  change (2 ^ 8) with 256. pose proof (Z.div_mod f 256). lia.
Qed.

Lemma length_u16_le (f : Z) : length (u16_le f) = 2%nat.
Proof. reflexivity. Qed.

Lemma read_u16_le_ok (buf : list Z) (i : nat) (f : Z) (rest : list Z) :
  drop i buf = u16_le f ++ rest -> 0 <= f < 65536 ->
  read_u16_le buf i = Ok (f, (i + 2)%nat).
Proof.
  intros H Hf. unfold read_u16_le. rewrite H.
  assert (Ht : take 2 (u16_le f ++ rest) = u16_le f) by reflexivity.
  rewrite Ht, u16_le_roundtrip by exact Hf. reflexivity.
Qed.

Lemma dbind_ok {A B} (m : Dec A) (k : A -> Dec B) (i : nat) (x : A) (j : nat) :
  m i = Ok (x, j) -> dbind m k i = k x j.
Proof. intros H. unfold dbind. rewrite H. reflexivity. Qed.

Lemma byte_land (x : Z) : 0 <= x < 256 -> Z.land x 255 = x.
Proof.
  intros Hx. change 255 with (Z.ones 8). rewrite Z.land_ones by lia.
  apply Z.mod_small. change (2 ^ 8) with 256. lia.
Qed.

Ltac dstep H :=
  let H' := fresh "Hd" in
  lazymatch goal with
  | |- context [dbind (read_uvarint ?b) ?k ?i] =>
      pose proof (drop_skip _ _ _ _ H) as H';
      rewrite (dbind_ok (read_uvarint b) k i _ _ (read_uvarint_ok b i _ _ H ltac:(assumption)));
      clear H; rename H' into H; cbv beta
  | |- context [dbind (read_byte ?b) ?k ?i] =>
      pose proof (proj2 (drop_cons_tail _ _ _ _ H)) as H';
      rewrite (dbind_ok (read_byte b) k i _ _ (read_byte_ok b i _ _ H));
      clear H; rename H' into H; cbv beta
  | |- context [dbind (read_u16_le ?b) ?k ?i] =>
      pose proof (drop_skip _ _ _ _ H) as H';
      rewrite (dbind_ok (read_u16_le b) k i _ _ (read_u16_le_ok b i _ _ H ltac:(assumption)));
      clear H; rename H' into H; cbv beta
  end.






Lemma encode_node_ok (out : list Z) (n : Node.t) :
  node_ok n -> encode_node out n = Ok (out ++ node_bytes n).
Proof.
  destruct n as [id nt st fr [s0 s1] fl cf lb].
  unfold node_ok, varint_ok, byte_ok, u16_ok; cbn [Node.node_id Node.n_type Node.sub_type
    Node.features_ref Node.span Node.flags Node.confidence Node.label_id fst snd].
  intros (Hid & Hnt & Hst & Hfr & Hs0 & Hs1 & Hfl & Hcf & Hlb).
  unfold encode_node; cbn [Node.node_id Node.n_type Node.sub_type
    Node.features_ref Node.span Node.flags Node.confidence Node.label_id fst snd].
  rewrite put_uvarint_ok by lia. cbn [rbind].
  rewrite put_uvarint_ok by lia. cbn [rbind].
  rewrite put_uvarint_ok by lia. cbn [rbind].
  rewrite put_uvarint_ok by lia. cbn [rbind].
  rewrite put_uvarint_ok by lia.
  unfold put_byte. rewrite !byte_land by lia.
  unfold node_bytes; cbn [Node.node_id Node.n_type Node.sub_type
    Node.features_ref Node.span Node.flags Node.confidence Node.label_id fst snd].
  rewrite <- !app_assoc. reflexivity.
Qed.

Lemma encode_edge_ok (out : list Z) (e : Edge.t) :
  edge_ok e -> encode_edge out e = Ok (out ++ edge_bytes e).
Proof.
  destruct e as [sr ds et w tm fl cf ar].
  unfold edge_ok, varint_ok, byte_ok, u16_ok; cbn [Edge.src_id Edge.dst_id Edge.e_type
    Edge.weight Edge.time Edge.flags Edge.confidence Edge.attr_ref].
  intros (Hsr & Hds & Het & Hw & Htm & Hfl & Hcf & Har).
  unfold encode_edge; cbn [Edge.src_id Edge.dst_id Edge.e_type
    Edge.weight Edge.time Edge.flags Edge.confidence Edge.attr_ref].
  rewrite put_uvarint_ok by lia. cbn [rbind].
  rewrite put_uvarint_ok by lia. cbn [rbind].
  rewrite put_uvarint_ok by lia. cbn [rbind].
  rewrite put_uvarint_ok by lia.
  unfold put_byte. rewrite !byte_land by lia.
  unfold edge_bytes; cbn [Edge.src_id Edge.dst_id Edge.e_type
    Edge.weight Edge.time Edge.flags Edge.confidence Edge.attr_ref].
  rewrite <- !app_assoc. reflexivity.
Qed.

Lemma decode_node_ok (buf : list Z) (i : nat) (n : Node.t) (rest : list Z) :
  node_ok n -> drop i buf = node_bytes n ++ rest ->
  decode_node buf i = Ok (n, (i + length (node_bytes n))%nat).
Proof.
  destruct n as [id nt st fr [s0 s1] fl cf lb].
  unfold node_ok, varint_ok, byte_ok, u16_ok, node_bytes; cbn [Node.node_id Node.n_type
    Node.sub_type Node.features_ref Node.span Node.flags Node.confidence Node.label_id fst snd].
  intros (Hid & Hnt & Hst & Hfr & Hs0 & Hs1 & Hfl & Hcf & Hlb) H.
  repeat (first [rewrite <- app_assoc in H | progress cbn [app] in H]).
  unfold decode_node.
  do 9 dstep H.
  unfold dret. repeat (first [rewrite length_app | rewrite length_u16_le | progress cbn [length]]).
  f_equal. f_equal. lia.
Qed.

Lemma decode_edge_ok (buf : list Z) (i : nat) (e : Edge.t) (rest : list Z) :
  edge_ok e -> drop i buf = edge_bytes e ++ rest ->
  decode_edge buf i = Ok (e, (i + length (edge_bytes e))%nat).
Proof.
  destruct e as [sr ds et w tm fl cf ar].
  unfold edge_ok, varint_ok, byte_ok, u16_ok, edge_bytes; cbn [Edge.src_id Edge.dst_id
    Edge.e_type Edge.weight Edge.time Edge.flags Edge.confidence Edge.attr_ref].
  intros (Hsr & Hds & Het & Hw & Htm & Hfl & Hcf & Har) H.
  repeat (first [rewrite <- app_assoc in H | progress cbn [app] in H]).
  unfold decode_edge.
  do 8 dstep H.
  unfold dret. repeat (first [rewrite length_app | rewrite length_u16_le | progress cbn [length]]).
  f_equal. f_equal. lia.
Qed.

Section Lists.
Context {A : Type} (ok : A -> Prop) (bytes : A -> list Z).

Lemma encode_all_ok (enc : list Z -> A -> result (list Z)) :
  (forall out x, ok x -> enc out x = Ok (out ++ bytes x)) ->
  forall xs out, Forall ok xs -> encode_all enc out xs = Ok (out ++ concat (map bytes xs)).
Proof.
  intros Henc xs. induction xs as [|x xs IH]; intros out Hxs.
  - rewrite app_nil_r. reflexivity.
  - inversion Hxs as [|? ? Hx Hxs']; subst. cbn [encode_all].
    rewrite (Henc out x Hx). cbn [rbind]. rewrite IH by exact Hxs'.
    cbn [map concat]. rewrite app_assoc. reflexivity.
Qed.

Lemma decode_many_ok (dec : list Z -> Dec A) :
  (forall buf i x rest, ok x -> drop i buf = bytes x ++ rest ->
     dec buf i = Ok (x, (i + length (bytes x))%nat)) ->
  forall xs buf i rest, Forall ok xs -> drop i buf = concat (map bytes xs) ++ rest ->
  decode_many (dec buf) (length xs) i = Ok (xs, (i + length (concat (map bytes xs)))%nat).
Proof.
  intros Hdec xs. induction xs as [|x xs IH]; intros buf i rest Hxs H.
  - cbn. unfold dret. f_equal. f_equal. lia.
  - inversion Hxs as [|? ? Hx Hxs']; subst. cbn [length decode_many].
    cbn [map concat] in H |- *. rewrite <- app_assoc in H.
    rewrite (dbind_ok _ _ _ _ _ (Hdec buf i x _ Hx H)).
    pose proof (drop_skip _ _ _ _ H) as H'.
    rewrite (dbind_ok _ _ _ _ _ (IH buf _ rest Hxs' H')).
    unfold dret. rewrite length_app. f_equal. f_equal. lia.
Qed.
End Lists.








Lemma thumbnail_ok_varint (f : option (list Z)) :
  thumbnail_ok f -> varint_ok (Z.of_nat (length (feat_of f))).
Proof.
  unfold varint_ok, VARINT_BOUND. destruct f as [f|]; cbn [thumbnail_ok feat_of].
  - intros [H|[H|H]]; rewrite H; simpl; lia.
  - simpl. lia.
Qed.

Lemma decode_features_ok (buf : list Z) (i : nat) (f : option (list Z)) (rest : list Z) :
  varint_ok (Z.of_nat (length (feat_of f))) -> drop i buf = feat_bytes f ++ rest ->
  decode_features buf i = Ok (decoded_features f, (i + length (feat_bytes f))%nat).
Proof.
  unfold feat_bytes, decoded_features, varint_ok. generalize (feat_of f) as ff.
  intros ff Hv H. rewrite <- app_assoc in H. unfold decode_features.
  pose proof (drop_skip _ _ _ _ H) as H'.
  rewrite (dbind_ok _ _ _ _ _ (read_uvarint_ok buf i _ _ H Hv)).
  rewrite length_app. destruct ff as [|x xs].
  - cbn. unfold dret. repeat f_equal; lia.
  - assert (Hn : (Z.of_nat (length (x :: xs)) =? 0) = false)
      by (apply Z.eqb_neq; cbn [length]; lia).
    rewrite Hn. cbn [negb]. rewrite Nat2Z.id, H', take_app_length, Z.eqb_refl. cbn [negb].
    f_equal; f_equal; lia.
Qed.

Ltac norm_app := repeat (first [rewrite <- app_assoc | progress cbn [app]]).

Lemma encode_pgraph_ok (g : Graph) :
  graph_ok g -> encode_pgraph g = Ok (pgraph_bytes g).
Proof.
  destruct g as [gid gt nn ne gf sid ver sch ns es].
  unfold graph_ok, varint_ok, byte_ok; cbn [graph_id graph_type num_nodes num_edges
    g_features source_id version schema_id nodes edges].
  intros (Hgid & Hgt & Hnn & Hne & Hnn' & Hne' & Hsid & Hver & Hsch & Hns & Hes & Hgf).
  unfold encode_pgraph; cbn [graph_id graph_type num_nodes num_edges
    g_features source_id version schema_id nodes edges].
  rewrite put_uvarint_ok by lia. cbn [rbind].
  rewrite put_uvarint_ok by lia. cbn [rbind].
  rewrite put_uvarint_ok by lia. cbn [rbind].
  rewrite put_uvarint_ok by lia. cbn [rbind].
  rewrite put_uvarint_ok by lia. cbn [rbind].
  rewrite (encode_all_ok node_ok node_bytes encode_node encode_node_ok ns _ Hns). cbn [rbind].
  rewrite (encode_all_ok edge_ok edge_bytes encode_edge encode_edge_ok es _ Hes). cbn [rbind].
  rewrite put_uvarint_ok by lia. cbn [rbind].
  unfold pgraph_bytes, feat_bytes, put_byte; cbn [graph_id graph_type num_nodes num_edges
    g_features source_id version schema_id nodes edges].
  rewrite !byte_land by lia.
  assert (Hm : forall out : list Z,
    match feat_of gf with [] => out | _ => out ++ feat_of gf end = out ++ feat_of gf).
  { intros out. destruct (feat_of gf); [rewrite app_nil_r|]; reflexivity. }
  change (match gf with Some f => f | None => [] end) with (feat_of gf).
  rewrite Hm. f_equal. norm_app. reflexivity.
Qed.

Lemma decode_pgraph_ok (g : Graph) :
  graph_ok g ->
  decode_pgraph (pgraph_bytes g) = Ok (with_features g (decoded_features (g_features g))).
Proof.
  intros Hg. pose proof Hg as Hg0.
  destruct g as [gid gt nn ne gf sid ver sch ns es].
  unfold graph_ok, varint_ok, byte_ok in Hg; cbn [graph_id graph_type num_nodes num_edges
    g_features source_id version schema_id nodes edges] in Hg.
  destruct Hg as (Hgid & Hgt & Hnn & Hne & Hnn' & Hne' & Hsid & Hver & Hsch & Hns & Hes & Hgf).
  subst nn ne.
  unfold decode_pgraph, pgraph_bytes; cbn [graph_id graph_type num_nodes num_edges
    g_features source_id version schema_id nodes edges].
  rewrite take_app_length' by reflexivity.
  rewrite bool_decide_eq_true_2 by reflexivity. cbn [negb].
  set (buf := PG_MAGIC ++ _).
  assert (H : drop 4 buf = uvarint_bytes gid ++ gt :: uvarint_bytes (Z.of_nat (length ns)) ++
    uvarint_bytes (Z.of_nat (length es)) ++ uvarint_bytes sid ++ uvarint_bytes ver ++
    sch :: concat (map node_bytes ns) ++ concat (map edge_bytes es) ++ feat_bytes gf ++ []).
  { unfold buf. rewrite app_nil_r. apply drop_app_length'. reflexivity. }
  clearbody buf. unfold decode_body.
  do 7 dstep H.
  rewrite Nat2Z.id.
  pose proof (drop_skip _ _ _ _ H) as H'.
  rewrite (dbind_ok _ _ _ _ _
    (decode_many_ok node_ok node_bytes decode_node decode_node_ok ns buf _ _ Hns H)).
  clear H. rename H' into H. pose proof (drop_skip _ _ _ _ H) as H'.
  rewrite Nat2Z.id.
  rewrite (dbind_ok _ _ _ _ _
    (decode_many_ok edge_ok edge_bytes decode_edge decode_edge_ok es buf _ _ Hes H)).
  clear H. rename H' into H.
  rewrite (dbind_ok _ _ _ _ _ (decode_features_ok buf _ gf [] (thumbnail_ok_varint gf Hgf) H)).
  unfold dret, with_features; cbn [graph_id graph_type num_nodes num_edges
    g_features source_id version schema_id nodes edges].
  reflexivity.
Qed.

Lemma with_features_same (g : Graph) : with_features g (g_features g) = g.
Proof. destruct g; reflexivity. Qed.

Lemma decoded_features_id (f : option (list Z)) :
  f <> Some [] -> decoded_features f = f.
Proof. destruct f as [[|x xs]|]; intros H; [congruence | reflexivity | reflexivity]. Qed.

(** C1 (corrected): for a graph whose fields are in range (varint fields in
    [[0, 2^70)], byte fields in [[0, 256)], flag fields in [[0, 65536)],
    [num_nodes]/[num_edges] equal to the list lengths, thumbnail absent or
    of 0, 64 or 128 bytes), [encode_pgraph] succeeds and [decode_pgraph]
    of its output gives back the graph with the thumbnail normalised as the
    decoder does it: an empty thumbnail comes back as [None].  Whenever the
    thumbnail is not the empty byte string, the graph comes back
    field-for-field. *)
Theorem pgraph_roundtrip (g : Graph) :
  graph_ok g ->
  exists bs, encode_pgraph g = Ok bs /\
    decode_pgraph bs = Ok (with_features g (decoded_features (g_features g))) /\
    (g_features g <> Some [] -> decode_pgraph bs = Ok g).
Proof.
  intros Hg. exists (pgraph_bytes g).
  split; [exact (encode_pgraph_ok g Hg)|].
  split; [exact (decode_pgraph_ok g Hg)|].
  intros Hf. rewrite (decode_pgraph_ok g Hg), (decoded_features_id _ Hf), with_features_same.
  reflexivity.
Qed.


Lemma pgraph_roundtrip_witness :
  graph_ok ex_pgraph /\ encode_pgraph ex_pgraph = Ok (pgraph_bytes ex_pgraph) /\
  decode_pgraph (pgraph_bytes ex_pgraph) = Ok ex_pgraph.
Proof.
  assert (Hg : graph_ok ex_pgraph).
  { unfold graph_ok, node_ok, edge_ok, varint_ok, byte_ok, u16_ok, VARINT_BOUND.
    cbn. split_and!; try lia; repeat constructor; cbn; try lia. }
  split; [exact Hg|].
  destruct (pgraph_roundtrip ex_pgraph Hg) as (bs & Henc & _ & Hdec).
  rewrite (encode_pgraph_ok ex_pgraph Hg) in Henc. injection Henc as <-.
  split; [reflexivity|]. apply Hdec. discriminate.
Defined.


(** C1 counterexample: a graph with an empty thumbnail (length 0 is one of
    the lengths [thumbnail_ok] allows) encodes, but decodes with
    [g_features = None], not with the empty byte string. *)
Lemma pgraph_empty_thumbnail_counterexample :
  graph_ok ex_pgraph_empty_thumb /\
  exists bs, encode_pgraph ex_pgraph_empty_thumb = Ok bs /\
    decode_pgraph bs = Ok (mkGraph 0 5 0 0 None 0 1 1 [] []) /\
    decode_pgraph bs <> Ok ex_pgraph_empty_thumb.
Proof.
  split.
  { unfold graph_ok, varint_ok, byte_ok, VARINT_BOUND. cbn. split_and!; try lia; auto. }
  exists [80; 71; 82; 65; 0; 5; 0; 0; 0; 1; 1; 0].
  split; [vm_compute; reflexivity|]. split; [vm_compute; reflexivity|].
  vm_compute. discriminate.
Qed.

(* ------------------------------------------------------------------ *)
(** ** Bounds of the decoder's reads *)

Lemma dbind_congr {A B} (m1 m2 : Dec A) (k1 k2 : A -> Dec B) (i : nat) :
  (forall j, m1 j = m2 j) -> (forall x j, k1 x j = k2 x j) ->
  dbind m1 k1 i = dbind m2 k2 i.
Proof.
  intros Hm Hk. unfold dbind. rewrite Hm. destruct (m2 i) as [[x j]|e]; [apply Hk|reflexivity].
Qed.

Lemma uvarint_decode_loop_nonneg (buf : list Z) (F : nat) (s acc : Z) (i : nat) (v : Z)
    (j : nat) :
  0 <= s -> 0 <= acc -> uvarint_decode_loop buf F s acc i = Ok (v, j) -> 0 <= v.
Proof.
  revert s acc i. induction F as [|F IH]; intros s acc i Hs Hacc H; cbn in H; [discriminate|].
  destruct (buf !! i) as [b|]; [|discriminate].
  assert (Hv' : 0 <= Z.lor acc (Z.shiftl (Z.land b 127) s)).
  { apply Z.lor_nonneg. split; [exact Hacc|]. apply Z.shiftl_nonneg.
    apply Z.land_nonneg. right. lia. }
  destruct (Z.land b 128 =? 0).
  - injection H as <- _. exact Hv'.
  - destruct (s + 7 >? 63); [discriminate|]. eapply IH; [| exact Hv' | exact H]. lia.
Qed.

Lemma read_uvarint_nonneg (buf : list Z) (i : nat) (v : Z) (j : nat) :
  read_uvarint buf i = Ok (v, j) -> 0 <= v.
Proof. apply uvarint_decode_loop_nonneg; lia. Qed.

(** The lax 2-byte slice is always followed by a single-byte read two
    positions further, which fails exactly when the slice is short. *)
Lemma u16_then_byte {B} (buf : list Z) (k : Z -> Z -> Dec B) (i : nat) :
  dbind (read_u16_le buf) (fun f => dbind (read_byte buf) (k f)) i =
  dbind (read_u16_strict buf) (fun f => dbind (read_byte buf) (k f)) i.
Proof.
  unfold dbind, read_u16_le, read_u16_strict, read_byte. cbv beta iota.
  destruct (Nat.ltb_spec (length buf) (i + 2)).
  - rewrite lookup_ge_None_2 by lia. reflexivity.
  - reflexivity.
Qed.

Lemma decode_node_strict_eq (buf : list Z) (i : nat) :
  decode_node buf i = decode_node_strict buf i.
Proof.
  unfold decode_node, decode_node_strict.
  do 6 (apply dbind_congr; [reflexivity|]; intros ? ?; cbv beta).
  apply u16_then_byte.
Qed.

Lemma decode_edge_strict_eq (buf : list Z) (i : nat) :
  decode_edge buf i = decode_edge_strict buf i.
Proof.
  unfold decode_edge, decode_edge_strict.
  do 5 (apply dbind_congr; [reflexivity|]; intros ? ?; cbv beta).
  apply u16_then_byte.
Qed.

Lemma decode_many_ext {A} (d1 d2 : Dec A) :
  (forall i, d1 i = d2 i) -> forall n i, decode_many d1 n i = decode_many d2 n i.
Proof.
  intros Hd n. induction n as [|n IH]; intros i; [reflexivity|]. cbn [decode_many].
  apply dbind_congr; [exact Hd|]. intros x j. apply dbind_congr; [exact IH|].
  reflexivity.
Qed.

(** The decoder's length check on the thumbnail slice is the bound check. *)
Lemma decode_features_strict_eq (buf : list Z) (i : nat) :
  decode_features buf i = decode_features_strict buf i.
Proof.
  unfold decode_features, decode_features_strict, dbind.
  destruct (read_uvarint buf i) as [[v j]|e] eqn:Hr; [|reflexivity].
  pose proof (read_uvarint_nonneg _ _ _ _ Hr) as Hv.
  destruct (Z.eqb_spec v 0) as [->|Hv0]; [reflexivity|]. cbn [negb].
  rewrite length_take, length_drop.
  destruct (Z.ltb_spec (Z.of_nat (length buf)) (Z.of_nat j + v));
    destruct (Z.eqb_spec (Z.of_nat (Nat.min (Z.to_nat v) (length buf - j))) v);
    cbn [negb]; try reflexivity; lia.
Qed.

Lemma decode_body_strict_eq (buf : list Z) (i : nat) :
  decode_body buf i = decode_body_strict buf i.
Proof.
  unfold decode_body, decode_body_strict.
  do 7 (apply dbind_congr; [reflexivity|]; intros ? ?; cbv beta).
  apply dbind_congr; [apply decode_many_ext, decode_node_strict_eq|]; intros ? ?.
  apply dbind_congr; [apply decode_many_ext, decode_edge_strict_eq|]; intros ? ?.
  apply dbind_congr; [apply decode_features_strict_eq|]; intros ? ?.
  reflexivity.
Qed.

(** C2: on every buffer, [decode_pgraph] has the outcome of the
    bounds-checked decoder [decode_pgraph_strict], in which every read
    (the magic, single bytes, the 2-byte flag fields, varints and the
    thumbnail bytes) fails as soon as it would run past the end of the
    buffer: both return the same graph, or both fail.  A failure is an
    [Err] outcome, which carries no graph at all. *)
Theorem decode_pgraph_reads_in_bounds (buf : list Z) :
  same_outcome (decode_pgraph buf) (decode_pgraph_strict buf) /\
  ((exists e, decode_pgraph buf = Err e) <-> (exists e, decode_pgraph_strict buf = Err e)).
Proof.
  assert (Hs : same_outcome (decode_pgraph buf) (decode_pgraph_strict buf)).
  { unfold decode_pgraph, decode_pgraph_strict. rewrite decode_body_strict_eq.
    destruct (Nat.ltb_spec (length buf) 4) as [Hl|Hl].
    - rewrite bool_decide_eq_false_2; [exact I|].
      intros Ht. apply (f_equal length) in Ht. rewrite length_take in Ht.
      change (length PG_MAGIC) with 4%nat in Ht. lia.
    - destruct (bool_decide (take 4 buf = PG_MAGIC)); cbn [negb]; [|exact I].
      destruct (decode_body_strict buf 4%nat) as [[g j]|e]; cbn; [reflexivity | exact I]. }
  split; [exact Hs|].
  destruct (decode_pgraph buf) as [g|e1], (decode_pgraph_strict buf) as [g'|e2];
    cbn in Hs; try contradiction; split; intros [e He]; try discriminate; eauto.
Qed.

(* ------------------------------------------------------------------ *)
(** ** Varint encoder and decoder *)

Lemma lor_lt_pow2 (a b n : Z) : 0 <= a < 2 ^ n -> 0 <= b < 2 ^ n -> Z.lor a b < 2 ^ n.
Proof.
  intros Ha Hb.
  destruct (Z.eq_dec a 0) as [->|Ha0]; [rewrite Z.lor_0_l; lia|].
  destruct (Z.eq_dec b 0) as [->|Hb0]; [rewrite Z.lor_0_r; lia|].
  assert (Hn : 0 <= n).
  { destruct (Z.ltb_spec n 0); [|lia]. rewrite Z.pow_neg_r in Ha by lia. lia. }
  assert (Hpos : 0 < Z.lor a b).
  { pose proof (proj2 (Z.lor_nonneg a b) (conj (proj1 Ha) (proj1 Hb))).
    destruct (Z.eq_dec (Z.lor a b) 0) as [E|]; [|lia].
    apply Z.lor_eq_0_iff in E; lia. }
  apply Z.log2_lt_pow2; [exact Hpos|]. rewrite Z.log2_lor by lia.
  apply Z.max_lub_lt; apply Z.log2_lt_pow2; lia.
Qed.

Lemma lor_128_small (x : Z) : 0 <= x < 128 -> Z.lor x 128 = x + 128.
Proof.
  intros Hx.
  assert (Hc : forallb (fun n => Z.lor (Z.of_nat n) 128 =? Z.of_nat n + 128) (seq 0 128) = true)
    by (vm_compute; reflexivity).
  rewrite forallb_forall in Hc. specialize (Hc (Z.to_nat x)). rewrite Z2Nat.id in Hc by lia.
  apply Z.eqb_eq, Hc, in_seq. lia.
Qed.

Lemma uvarint_loop_shape (E : nat) (v : Z) :
  (1 <= E)%nat -> 0 <= v < 2 ^ (7 * Z.of_nat E) ->
  exists init b, uvarint_encode_loop E v = init ++ [b] /\ 0 <= b < 128 /\
    Forall (fun x => 128 <= x < 256) init.
Proof.
  revert v; induction E as [|E IH]; intros v HE Hv; [lia|].
  pose proof (land_127_range v) as Hb.
  assert (Hsh : Z.shiftr v 7 = v / 128) by (rewrite Z.shiftr_div_pow2 by lia; reflexivity).
  cbn [uvarint_encode_loop].
  destruct (negb (Z.shiftr v 7 =? 0)) eqn:Hv'.
  - apply negb_true_iff, Z.eqb_neq in Hv'.
    assert (HE1 : (1 <= E)%nat).
    { destruct E; [|lia]. exfalso. apply Hv'. rewrite Hsh. apply Z.div_small. simpl in Hv. lia. }
    destruct (IH (Z.shiftr v 7) HE1) as (init & b & Heq & Hb' & Hinit).
    { rewrite Hsh. split; [apply Z.div_pos; lia|]. apply Z.div_lt_upper_bound; [lia|].
      rewrite Nat2Z.inj_succ, Z.mul_succ_r, Z.pow_add_r in Hv by lia.
      change (2 ^ 7) with 128 in Hv. lia. }
    exists (Z.lor (Z.land v 127) 128 :: init), b. rewrite Heq. split; [reflexivity|].
    split; [exact Hb'|]. constructor; [|exact Hinit].
    rewrite lor_128_small by exact Hb. lia.
  - exists [], (Z.land v 127). split; [reflexivity|]. split; [exact Hb | constructor].
Qed.

Lemma uvarint_loop_length (E F : nat) (v : Z) :
  (1 <= F)%nat -> 0 <= v < 2 ^ (7 * Z.of_nat F) -> (length (uvarint_encode_loop E v) <= F)%nat.
Proof.
  revert F v; induction E as [|E IH]; intros F v HF Hv; cbn [uvarint_encode_loop];
    [simpl; lia|].
  assert (Hsh : Z.shiftr v 7 = v / 128) by (rewrite Z.shiftr_div_pow2 by lia; reflexivity).
  destruct (negb (Z.shiftr v 7 =? 0)) eqn:Hv'; cbn [length]; [|lia].
  apply negb_true_iff, Z.eqb_neq in Hv'.
  destruct F as [|F]; [lia|].
  assert (HF1 : (1 <= F)%nat).
  { destruct F; [|lia]. exfalso. apply Hv'. rewrite Hsh. apply Z.div_small. simpl in Hv. lia. }
  enough (length (uvarint_encode_loop E (Z.shiftr v 7)) <= F)%nat by lia.
  apply IH; [exact HF1|]. rewrite Hsh. split; [apply Z.div_pos; lia|].
  apply Z.div_lt_upper_bound; [lia|].
  rewrite Nat2Z.inj_succ, Z.mul_succ_r, Z.pow_add_r in Hv by lia.
  change (2 ^ 7) with 128 in Hv. lia.
Qed.

Lemma uvarint_bytes_fuel (v : Z) :
  0 <= v -> v < 2 ^ (7 * Z.of_nat (S (Z.to_nat (Z.log2 v)))).
Proof.
  intros Hv. destruct (Z.eq_dec v 0) as [->|Hne]; [simpl; lia|].
  apply Z.log2_lt_pow2; [lia|]. rewrite Nat2Z.inj_succ, Z2Nat.id by apply Z.log2_nonneg.
  pose proof (Z.log2_nonneg v). lia.
Qed.

(** X1: [_uvarint_encode] and [_uvarint_decode] are inverse: a value in
    [[0, 2^70)] encodes, and decoding its bytes at any offset of any
    buffer gives the value back and the offset just past them. *)
Theorem uvarint_decode_encode (v : Z) (pre rest : list Z) :
  0 <= v < 2 ^ 70 ->
  exists bs, uvarint_encode v = Ok bs /\
    uvarint_decode (pre ++ bs ++ rest) (length pre) = Ok (v, (length pre + length bs)%nat).
Proof.
  intros Hv. exists (uvarint_bytes v). split; [apply uvarint_encode_ok; lia|].
  apply (read_uvarint_ok (pre ++ uvarint_bytes v ++ rest) (length pre) v rest);
    [apply drop_app_length | exact Hv].
Qed.

Lemma uvarint_decode_encode_witness :
  (0 <= 300 < 2 ^ 70) /\
  uvarint_decode ([1; 2] ++ [172; 2] ++ [9]) 2 = Ok (300, 4%nat).
Proof.
  split; [lia|].
  destruct (uvarint_decode_encode 300 [1; 2] [9] ltac:(lia)) as (bs & Henc & Hdec).
  vm_compute in Henc. injection Henc as <-. exact Hdec.
Defined.

(** X2: for a non-negative value, [_uvarint_encode] produces continuation
    bytes in [[128, 256)] followed by one final byte in [[0, 128)]; a value
    below [2^(7k)] takes at most [k] bytes, so a value below [2^70] at
    most 10. *)
Theorem uvarint_encode_shape (v : Z) :
  0 <= v ->
  exists init b, uvarint_encode v = Ok (init ++ [b]) /\ 0 <= b < 128 /\
    Forall (fun x => 128 <= x < 256) init /\
    (forall k : nat, (1 <= k)%nat -> v < 2 ^ (7 * Z.of_nat k) -> (length init < k)%nat).
Proof.
  intros Hv. rewrite uvarint_encode_ok by exact Hv. unfold uvarint_bytes.
  destruct (uvarint_loop_shape (S (Z.to_nat (Z.log2 v))) v ltac:(lia)
              (conj Hv (uvarint_bytes_fuel v Hv))) as (init & b & Heq & Hb & Hinit).
  exists init, b. rewrite Heq. split_and!; [reflexivity | lia | lia | exact Hinit |].
  intros k Hk Hvk. pose proof (uvarint_loop_length (S (Z.to_nat (Z.log2 v))) k v Hk
                     (conj Hv Hvk)) as Hl.
  rewrite Heq, length_app in Hl. simpl in Hl. lia.
Qed.

Lemma uvarint_encode_shape_witness :
  0 <= 300 /\
  exists init b, uvarint_encode 300 = Ok (init ++ [b]) /\ 0 <= b < 128 /\
    Forall (fun x => 128 <= x < 256) init /\
    (forall k : nat, (1 <= k)%nat -> 300 < 2 ^ (7 * Z.of_nat k) -> (length init < k)%nat).
Proof. split; [lia | apply (uvarint_encode_shape 300); lia]. Defined.

Lemma uvarint_decode_loop_bounds (buf : list Z) (F : nat) (s acc : Z) (i : nat) (v : Z)
    (j : nat) :
  0 <= s <= 63 -> 0 <= acc < 2 ^ s -> Forall (fun b => 0 <= b) buf ->
  uvarint_decode_loop buf F s acc i = Ok (v, j) ->
  0 <= v < 2 ^ 70 /\ (i < j <= i + F)%nat /\
  (exists b, buf !! (j - 1)%nat = Some b /\ Z.land b 128 = 0).
Proof.
  revert s acc i. induction F as [|F IH]; intros s acc i Hs Hacc Hbuf H; cbn in H;
    [discriminate|].
  destruct (buf !! i) as [b|] eqn:Hi; [|discriminate].
  assert (Hb : 0 <= b) by (eapply (proj1 (Forall_lookup _ _)); eauto).
  pose proof (land_127_range b) as Hb7.
  assert (Hv' : 0 <= Z.lor acc (Z.shiftl (Z.land b 127) s) < 2 ^ (s + 7)).
  { split; [apply Z.lor_nonneg; split; [lia|]; apply Z.shiftl_nonneg; lia|].
    apply lor_lt_pow2.
    - split; [lia|]. apply Z.lt_le_trans with (2 ^ s); [lia|]. apply Z.pow_le_mono_r; lia.
    - rewrite Z.shiftl_mul_pow2 by lia. rewrite Z.pow_add_r by lia.
      change (2 ^ 7) with 128. split; [apply Z.mul_nonneg_nonneg; lia|].
      pose proof (Z.pow_pos_nonneg 2 s ltac:(lia) ltac:(lia)). nia. }
  destruct (Z.land b 128 =? 0) eqn:Hc.
  - injection H as <- <-. split; [|split; [lia|]].
    + split; [lia|]. apply Z.lt_le_trans with (2 ^ (s + 7)); [lia|].
      apply Z.pow_le_mono_r; lia.
    + exists b. replace (S i - 1)%nat with i by lia. split; [exact Hi|]. apply Z.eqb_eq, Hc.
  - destruct (Z.gtb_spec (s + 7) 63); [discriminate|].
    destruct (IH (s + 7) _ (S i) ltac:(lia) Hv' Hbuf H) as (Hv & Hj & Hlast).
    split; [exact Hv|]. split; [lia | exact Hlast].
Qed.

(** X3: whenever [_uvarint_decode(buf, i)] returns [(v, j)] on a byte
    buffer, [v] lies in [[0, 2^70)], the decoder consumed between 1 and 10
    bytes ([i < j <= i + 10]), and the last byte it consumed has the
    continuation bit clear. *)
Theorem uvarint_decode_bounds (buf : list Z) (i : nat) (v : Z) (j : nat) :
  Forall (fun b => 0 <= b < 256) buf ->
  uvarint_decode buf i = Ok (v, j) ->
  0 <= v < 2 ^ 70 /\ (i < j <= i + 10)%nat /\
  (exists b, buf !! (j - 1)%nat = Some b /\ Z.land b 128 = 0).
Proof.
  intros Hbuf H. apply (uvarint_decode_loop_bounds buf 10 0 0 i).
  - lia.
  - simpl. lia.
  - eapply Forall_impl; [exact Hbuf | simpl; lia].
  - exact H.
Qed.

Lemma uvarint_decode_bounds_witness :
  Forall (fun b => 0 <= b < 256) [172; 2] /\ uvarint_decode [172; 2] 0 = Ok (300, 2%nat) /\
  0 <= 300 < 2 ^ 70 /\ (0 < 2 <= 0 + 10)%nat /\
  (exists b, [172; 2] !! (2 - 1)%nat = Some b /\ Z.land b 128 = 0).
Proof.
  assert (Hf : Forall (fun b => 0 <= b < 256) [172; 2]) by (repeat constructor; lia).
  assert (Hd : uvarint_decode [172; 2] 0 = Ok (300, 2%nat)) by (vm_compute; reflexivity).
  split; [exact Hf|]. split; [exact Hd|]. exact (uvarint_decode_bounds _ _ _ _ Hf Hd).
Defined.

Lemma uvarint_decode_loop_errors (buf : list Z) (F : nat) (s acc : Z) (i : nat) :
  s + 7 * Z.of_nat F = 70 -> (1 <= F)%nat ->
  (forall m b, (m < F)%nat -> buf !! (i + m)%nat = Some b -> Z.land b 128 <> 0) ->
  uvarint_decode_loop buf F s acc i =
    Err (if (length buf <? i + F)%nat then ErrTruncatedVarint else ErrVarintTooLarge).
Proof.
  revert s acc i. induction F as [|F IH]; intros s acc i Hs HF Hcont; [lia|].
  cbn [uvarint_decode_loop].
  destruct (buf !! i) as [b|] eqn:Hi.
  - assert (Hlt : (i < length buf)%nat) by (apply lookup_lt_is_Some_1; eauto).
    assert (Hb : Z.land b 128 <> 0) by (apply (Hcont 0%nat); [lia | rewrite Nat.add_0_r; exact Hi]).
    apply Z.eqb_neq in Hb. rewrite Hb.
    destruct F as [|F].
    + destruct (Z.gtb_spec (s + 7) 63); [|lia].
      destruct (Nat.ltb_spec (length buf) (i + 1)); [lia | reflexivity].
    + destruct (Z.gtb_spec (s + 7) 63); [lia|].
      rewrite (IH (s + 7) _ (S i)); [| lia | lia |].
      * replace (S i + S F)%nat with (i + S (S F))%nat by lia. reflexivity.
      * intros m b' Hm Hb'. apply (Hcont (S m)); [lia|]. rewrite <- Hb'. f_equal. lia.
  - apply lookup_ge_None_1 in Hi.
    destruct (Nat.ltb_spec (length buf) (i + S F)); [reflexivity | lia].
Qed.

(** X4: when every byte of [buf[i:i+10]] has the continuation bit set,
    [_uvarint_decode(buf, i)] raises: "truncated input" when the buffer
    ends before [i + 10], and "value too large" otherwise. *)
Theorem uvarint_decode_errors (buf : list Z) (i : nat) :
  (forall m b, (m < 10)%nat -> buf !! (i + m)%nat = Some b -> Z.land b 128 <> 0) ->
  uvarint_decode buf i =
    Err (if (length buf <? i + 10)%nat then ErrTruncatedVarint else ErrVarintTooLarge).
Proof. intros H. apply uvarint_decode_loop_errors; [simpl; lia | lia | exact H]. Qed.

Lemma uvarint_decode_errors_witness :
  uvarint_decode [255; 255; 255] 0 = Err ErrTruncatedVarint /\
  uvarint_decode (replicate 10 128) 0 = Err ErrVarintTooLarge.
Proof.
  split.
  - apply (uvarint_decode_errors [255; 255; 255] 0).
    intros m b Hm Hb. destruct m as [|[|[|m]]]; simpl in Hb; try discriminate;
      injection Hb as <-; discriminate.
  - apply (uvarint_decode_errors (replicate 10 128) 0).
    intros m b Hm Hb. rewrite Nat.add_0_l in Hb. apply lookup_replicate in Hb as [Hb _]. subst b.
    discriminate.
Defined.

(* ------------------------------------------------------------------ *)
(** ** Token spans *)

Lemma count_while_le (p : Z -> bool) (s : list Z) : (count_while p s <= length s)%nat.
Proof. induction s as [|c s IH]; simpl; [lia|]. destruct (p c); simpl; lia. Qed.

Lemma is_prefix_length (pre s : list Z) :
  is_prefix pre s = true -> (length pre <= length s)%nat.
Proof.
  revert s; induction pre as [|c pre IH]; intros [|d s]; simpl; try lia; try discriminate.
  intros H; apply andb_true_iff in H as [_ H]. apply IH in H. lia.
Qed.

Lemma word_run_le (s : list Z) : (word_run s <= length s)%nat.
Proof.
  induction s as [|c s IH]; simpl; [lia|].
  destruct (is_alnum c); [lia|]. destruct (is_word_sep c); [|lia].
  destruct s as [|c2 s']; [lia|]. destruct (is_alnum c2); simpl in *; lia.
Qed.

Lemma email_domain_back_le (dom : list Z) (d m : nat) :
  email_domain_back dom d = Some m -> (m <= length dom)%nat.
Proof.
  induction d as [|d IH]; simpl; [discriminate|].
  match goal with |- context [if ?b then _ else _] => destruct b eqn:E end; [|exact IH].
  intros [= <-]. apply andb_true_iff in E as [E _]. apply bool_decide_eq_true in E.
  apply lookup_lt_Some in E.
  pose proof (count_while_le is_ascii_alpha (drop (S (S d)) dom)).
  rewrite length_drop in H. lia.
Qed.

Lemma master_length (s : list Z) (k : kind) (n : nat) :
  master s = Some (k, n) -> (n <= length s)%nat.
Proof.
  unfold master.
  destruct (match_url s) as [m|] eqn:Eu.
  { intros [= <- <-]. unfold match_url in Eu. split_ifs Eu; try discriminate;
      injection Eu as <-;
      repeat match goal with E : is_prefix _ s = true |- _ =>
        apply is_prefix_length in E; cbn [length] in E end;
      pose proof (count_while_le (fun c => negb (is_space c)) (drop 4 s));
      pose proof (count_while_le (fun c => negb (is_space c)) (drop 7 s));
      pose proof (count_while_le (fun c => negb (is_space c)) (drop 8 s));
      rewrite !length_drop in *; lia. }
  destruct (match_email s) as [m|] eqn:Ee.
  { intros [= <- <-]. unfold match_email in Ee. split_ifs Ee; try discriminate.
    injection Ee as <-.
    match goal with E : negb (bool_decide _) = false |- _ =>
      apply negb_false_iff, bool_decide_eq_true, lookup_lt_Some in E end.
    match goal with E : email_domain_back _ _ = Some _ |- _ =>
      apply email_domain_back_le in E end.
    rewrite length_drop in *. lia. }
  destruct (match_handle s) as [m|] eqn:Eh.
  { intros [= <- <-]. unfold match_handle in Eh. destruct s as [|c s']; [discriminate|].
    split_ifs Eh; try discriminate. injection Eh as <-.
    pose proof (count_while_le is_handle_char s'). simpl. lia. }
  destruct (match_ellipsis s) as [m|] eqn:El.
  { intros [= <- <-]. unfold match_ellipsis in El. split_ifs El; try discriminate;
      injection El as <-;
      match goal with E : is_prefix ?pre s = true |- _ =>
        pose proof (is_prefix_length _ _ E); cbn [length] in * end; lia. }
  destruct (match_word s) as [m|] eqn:Ew.
  { intros [= <- <-]. unfold match_word in Ew. destruct s as [|c s']; [discriminate|].
    split_ifs Ew; try discriminate. injection Ew as <-. apply (word_run_le (c :: s')). }
  destruct (match_punct s) as [m|] eqn:Ep.
  { intros [= <- <-]. unfold match_punct in Ep. destruct s as [|c s']; [discriminate|].
    split_ifs Ep; try discriminate. injection Ep as <-. simpl. lia. }
  unfold with_kind, match_ws. destruct (count_while is_space s =? 0)%nat; [discriminate|].
  intros [= <- <-]. apply count_while_le.
Qed.

Lemma toks_from_snoc (text : list Z) (l : list Token.t) (k lo x : nat) (t : Token.t) :
  toks_from text k lo l -> Forall (fun u => (Token.end_ u <= x)%nat) l -> (lo <= x)%nat ->
  Token.idx t = (k + length l)%nat -> (x <= Token.start t < Token.end_ t)%nat ->
  (Token.end_ t <= length text)%nat ->
  Token.text t = take (Token.end_ t - Token.start t) (drop (Token.start t) text) ->
  toks_from text k lo (l ++ [t]).
Proof.
  revert k lo; induction l as [|u l IH]; intros k lo Hl Hx Hlo Hidx Hse Hend Htext; simpl.
  - simpl in Hidx. split_and!; auto; lia.
  - destruct Hl as (Hu1 & Hu2 & Hu3 & Hu4 & Hl). apply Forall_cons in Hx as [Hux Hx'].
    split; [exact Hu1|]. split; [exact Hu2|]. split; [exact Hu3|]. split; [exact Hu4|].
    apply IH; auto. simpl in Hidx. lia.
Qed.

Lemma scan_spans (db : UnicodeDB) (text : list Z) (fuel p i idx : nat)
    (acc : list (Token.t * kind)) :
  toks_from text 0 0 (map fst acc) -> Forall (fun u => (Token.end_ u <= i)%nat) (map fst acc) ->
  (i <= p)%nat -> (i <= length text)%nat -> idx = length acc ->
  let '(i', idx', acc') := scan db text fuel p i idx acc in
  toks_from text 0 0 (map fst acc') /\ Forall (fun u => (Token.end_ u <= i')%nat) (map fst acc') /\
  (i' <= length text)%nat /\ idx' = length acc'.
Proof.
  revert p i idx acc; induction fuel as [|fuel IH]; intros p i idx acc Hacc Hle Hip Hi Hidx;
    simpl; [auto|].
  destruct (p <? length text)%nat eqn:Hp; [|auto].
  apply Nat.ltb_lt in Hp.
  destruct (master (drop p text)) as [[k n]|] eqn:Hm.
  - pose proof (master_length _ _ _ Hm) as Hn. rewrite length_drop in Hn.
    pose proof (proj1 (master_shape _ _ _ Hm)) as Hn1.
    assert (Hle' : Forall (fun u => (Token.end_ u <= p + n)%nat) (map fst acc)).
    { eapply Forall_impl; [exact Hle|]. simpl; intros; lia. }
    assert (Hstep : forall kd,
      toks_from text 0 0 (map fst (acc ++ [(Token.mk idx (take n (drop p text)) p (p + n)
                                    (piece_flags db kd (take n (drop p text))), kd)])) /\
      Forall (fun u => (Token.end_ u <= p + n)%nat)
        (map fst (acc ++ [(Token.mk idx (take n (drop p text)) p (p + n)
                             (piece_flags db kd (take n (drop p text))), kd)])) /\
      S idx = length (acc ++ [(Token.mk idx (take n (drop p text)) p (p + n)
                             (piece_flags db kd (take n (drop p text))), kd)])).
    { intros kd. rewrite map_app, length_app. cbn [map fst length]. split; [|split].
      - apply toks_from_snoc with (x := p); simpl; try assumption; try lia.
        all: try (rewrite ?length_map; lia).
        * eapply Forall_impl; [exact Hle|]. simpl; intros; lia.
        * f_equal. lia.
      - apply Forall_app; split; [exact Hle'|]. constructor; [simpl; lia | constructor].
      - lia. }
    destruct k;
      first [ apply IH; [apply Hstep | apply Hstep | lia | lia | apply Hstep]
            | apply IH; [exact Hacc | exact Hle' | lia | lia | exact Hidx] ].
  - apply IH; auto; lia.
Qed.

Lemma tok_pos_alter (bit : Z) (j : nat) (l : list Token.t) :
  map tok_pos (alter (add_flag bit) j l) = map tok_pos l.
Proof.
  revert j; induction l as [|t l IH]; intros [|j]; simpl; try reflexivity.
  f_equal. apply IH.
Qed.

Lemma tok_pos_bubble (fuel : nat) (l : list Token.t) (j : nat) :
  map tok_pos (bubble_closers fuel l j) = map tok_pos l.
Proof.
  revert l j; induction fuel as [|fuel IH]; intros l j; cbn [bubble_closers]; [reflexivity|].
  destruct (l !! j); [|reflexivity]. destruct (in_set _ CLOSERS); [|reflexivity].
  rewrite IH. apply tok_pos_alter.
Qed.

Lemma tok_pos_post_steps (kinds : list kind) (is : list nat) (l : list Token.t) :
  map tok_pos (fold_left (post_step kinds) is l) = map tok_pos l.
Proof.
  revert l; induction is as [|i is IH]; intros l; simpl; [reflexivity|].
  rewrite IH. unfold post_step.
  destruct (kinds !! i), (l !! i) as [t|]; try reflexivity.
  destruct (is_punct_kind k); [|reflexivity].
  destruct (in_set (Token.text t) TERMINATORS_STRONG).
  - rewrite tok_pos_bubble. apply tok_pos_alter.
  - destruct (in_set (Token.text t) TERMINATORS_WEAK); [apply tok_pos_alter | reflexivity].
Qed.

Lemma toks_from_pos (text : list Z) (k lo : nat) (l l' : list Token.t) :
  map tok_pos l' = map tok_pos l -> toks_from text k lo l -> toks_from text k lo l'.
Proof.
  revert l k lo; induction l' as [|t' l' IH]; intros [|t l] k lo Hm Hl; try discriminate;
    [exact I|].
  injection Hm as Hi Hx Hs He Hm.
  destruct Hl as (H1 & H2 & H3 & H4 & H5). cbn [toks_from].
  rewrite Hi, Hx, Hs, He.
  do 4 (split; [assumption|]). apply (IH l); assumption.
Qed.

Lemma first_pass_spans (db : UnicodeDB) (text : list Z) :
  toks_from text 0 0 (map fst (first_pass db text)).
Proof.
  unfold first_pass.
  pose proof (scan_spans db text (length text) 0 0 0 [] I (Forall_nil_2 _)
                ltac:(lia) ltac:(lia) eq_refl) as Hs.
  destruct (scan db text (length text) 0 0 0 []) as [[i idx] acc].
  destruct Hs as (Hacc & Hle & Hi & Hidx).
  destruct (i <? length text)%nat eqn:Hlt; [|exact Hacc].
  apply Nat.ltb_lt in Hlt. rewrite map_app. cbn [map fst].
  apply toks_from_snoc with (x := i); simpl; try assumption; try lia.
  - rewrite length_map. lia.
  - rewrite take_ge; [reflexivity|]. rewrite length_drop. lia.
Qed.

Lemma flags_bound_alter (bit : Z) (j : nat) (l : list Token.t) :
  0 <= bit < 32 -> Forall (fun t => 0 <= Token.flags t < 32) l ->
  Forall (fun t => 0 <= Token.flags t < 32) (alter (add_flag bit) j l).
Proof.
  intros Hb Hl. apply Forall_lookup. intros i t Ht.
  destruct (decide (i = j)) as [->|Hne].
  - rewrite list_lookup_alter_eq in Ht.
    destruct (l !! j) as [u|] eqn:Hu; [|discriminate]. injection Ht as <-.
    eapply Forall_lookup in Hl; [|exact Hu]. simpl.
    split; [apply Z.lor_nonneg; lia|].
    apply (lor_lt_pow2 _ _ 5); change (2 ^ 5) with 32; lia.
  - rewrite list_lookup_alter_ne in Ht by congruence. eapply Forall_lookup in Hl; eauto.
Qed.

Lemma flags_bound_post_steps (kinds : list kind) (is : list nat) (l : list Token.t) :
  Forall (fun t => 0 <= Token.flags t < 32) l ->
  Forall (fun t => 0 <= Token.flags t < 32) (fold_left (post_step kinds) is l).
Proof.
  revert l; induction is as [|i is IH]; intros l Hl; simpl; [exact Hl|].
  apply IH. unfold post_step.
  destruct (kinds !! i), (l !! i) as [t|]; try exact Hl.
  destruct (is_punct_kind k); [|exact Hl].
  destruct (in_set (Token.text t) TERMINATORS_STRONG).
  - generalize (length l) as f. intros f.
    assert (Ha := flags_bound_alter TF_SENT_END_STRONG i l ltac:(unfold TF_SENT_END_STRONG; lia) Hl).
    revert Ha. generalize (alter (add_flag TF_SENT_END_STRONG) i l) as l1.
    generalize (S i) as j. induction f as [|f IHf]; intros j l1 Ha; cbn [bubble_closers];
      [exact Ha|].
    destruct (l1 !! j); [|exact Ha]. destruct (in_set _ CLOSERS); [|exact Ha].
    apply IHf. apply flags_bound_alter; [unfold TF_SENT_END_WEAK; lia | exact Ha].
  - destruct (in_set (Token.text t) TERMINATORS_WEAK); [|exact Hl].
    apply flags_bound_alter; [unfold TF_SENT_END_WEAK; lia | exact Hl].
Qed.

Lemma tokenize_spans_aux (db : UnicodeDB) (text : list Z) :
  toks_from text 0 0 (tokenize db text) /\
  Forall (fun t => 0 <= Token.flags t < 32) (tokenize db text).
Proof.
  unfold tokenize, post_pass. split.
  - eapply toks_from_pos; [apply tok_pos_post_steps | apply first_pass_spans].
  - apply flags_bound_post_steps. apply Forall_map.
    eapply Forall_impl; [apply first_pass_shape|]. intros [t k] [Hf _]; simpl in *; lia.
Qed.

(** X5: [tokenize(text)] returns tokens numbered [0, 1, ...] in order, each
    with a non-empty span [[start, end)] inside the text, the span of a token
    starting at or after the end of the previous one, and [text[start:end]]
    as the token's text; every token's flags lie in [[0, 32)], i.e. use only
    the five [TF_*] bits. *)
Theorem tokenize_spans (db : UnicodeDB) (text : list Z) :
  toks_from text 0 0 (tokenize db text) /\
  Forall (fun t => 0 <= Token.flags t < 32) (tokenize db text).
Proof. exact (tokenize_spans_aux db text). Qed.

(* ------------------------------------------------------------------ *)
(** ** GraphBuilder and tokens_to_graph *)

Lemma add_token_nodes_spec (gb : GraphBuilder) (toks : list Token.t) :
  let '(ids, gb') := add_token_nodes gb toks in
  ids = map (fun k => Z.of_nat k) (seq (length (gb_nodes gb)) (length toks)) /\
  gb' = mkBuilder (gb_graph_id gb) (gb_graph_type gb) (gb_source_id gb) (gb_version gb)
          (gb_schema_id gb) (gb_nodes gb ++ token_nodes (length (gb_nodes gb)) toks)
          (gb_edges gb) (gb_features gb).
Proof.
  revert gb; induction toks as [|t toks IH]; intros gb; simpl.
  - rewrite app_nil_r. destruct gb; split; reflexivity.
  - specialize (IH (snd (add_node gb NT_TOKEN 0 0
                       (Z.of_nat (Token.start t), Z.of_nat (Token.end_ t))
                       (token_node_flags (Token.flags t)) 255 0))).
    unfold add_node in *; simpl in *.
    destruct (add_token_nodes _ toks) as [ids gb'] eqn:E. destruct IH as [Hids Hgb].
    rewrite length_app in Hids, Hgb. simpl in Hids, Hgb. rewrite Nat.add_1_r in Hids, Hgb.
    split; [rewrite Hids; reflexivity|]. rewrite Hgb, <- app_assoc. reflexivity.
Qed.

Lemma add_next_edges_spec (gb : GraphBuilder) (pairs : list (Z * Z)) :
  add_next_edges gb pairs =
    mkBuilder (gb_graph_id gb) (gb_graph_type gb) (gb_source_id gb) (gb_version gb)
      (gb_schema_id gb) (gb_nodes gb)
      (gb_edges gb ++ map (fun '(a, b) => Edge.mk a b ET_NEXT 255 0 EF_DIRECTED 255 0) pairs)
      (gb_features gb).
Proof.
  revert gb; induction pairs as [|[a b] pairs IH]; intros gb; simpl.
  - rewrite app_nil_r. destruct gb; reflexivity.
  - rewrite IH. simpl. rewrite <- app_assoc. reflexivity.
Qed.

Lemma combine_seq_succ (s n : nat) :
  combine (map (fun k => Z.of_nat k) (seq s (S n))) (map (fun k => Z.of_nat k) (seq (S s) n)) =
  map (fun k => (Z.of_nat k, Z.of_nat (S k))) (seq s n).
Proof.
  revert s; induction n as [|n IH]; intros s; [reflexivity|].
  change (seq s (S (S n))) with (s :: seq (S s) (S n)).
  change (seq (S s) (S n)) with (S s :: seq (S (S s)) n) at 2.
  cbn [map combine seq]. f_equal. apply IH.
Qed.

Lemma combine_seq_tail (s n : nat) :
  combine (map (fun k => Z.of_nat k) (seq s n)) (tail (map (fun k => Z.of_nat k) (seq s n))) =
  map (fun k => (Z.of_nat k, Z.of_nat (S k))) (seq s (n - 1)).
Proof.
  destruct n as [|n]; [reflexivity|].
  replace (S n - 1)%nat with n by lia. rewrite <- combine_seq_succ. reflexivity.
Qed.

Lemma length_token_nodes (k : nat) (toks : list Token.t) :
  length (token_nodes k toks) = length toks.
Proof. revert k; induction toks; intros k; simpl; auto. Qed.

Lemma tokens_to_graph_shape_aux (db : UnicodeDB) (text : list Z) (gid sid ver : Z) :
  let toks := tokenize db text in
  let g := tokens_to_graph db text gid sid ver in
  nodes g = token_nodes 0 toks /\
  edges g = map next_edge (seq 0 (length toks - 1)) /\
  num_nodes g = Z.of_nat (length toks) /\ num_edges g = Z.of_nat (length toks - 1) /\
  graph_id g = gid /\ graph_type g = GT_HETERO /\ source_id g = sid /\ version g = ver /\
  schema_id g = SCHEMA_WRITING /\ g_features g = None.
Proof.
  intros toks g. subst g. unfold tokens_to_graph. fold toks.
  pose proof (add_token_nodes_spec
    (graph_builder_init gid SCHEMA_WRITING GT_HETERO sid ver None) toks) as H.
  destruct (add_token_nodes _ toks) as [ids gb] eqn:E. destruct H as [-> ->].
  rewrite add_next_edges_spec. simpl. rewrite combine_seq_tail, map_map.
  rewrite length_map, length_seq, length_token_nodes.
  split_and!; try reflexivity.
Qed.

(** X6: [tokens_to_graph(text, graph_id, source_id, version)] produces one
    [TOKEN] node per token of [tokenize(text)], node [k] with id [k], the
    token's span, the mapped flags, confidence 255 and zero label, sub type
    and features reference, and one [NEXT] edge [k -> k+1] (weight 255, time
    0, flag [EF_DIRECTED], confidence 255) for each pair of neighbouring
    tokens; its counts are those list lengths, its header is the given ids
    with [SCHEMA_WRITING] and [GraphType.HETERO], and it has no thumbnail. *)
Theorem tokens_to_graph_shape (db : UnicodeDB) (text : list Z) (gid sid ver : Z) :
  let toks := tokenize db text in
  let g := tokens_to_graph db text gid sid ver in
  nodes g = token_nodes 0 toks /\
  edges g = map next_edge (seq 0 (length toks - 1)) /\
  num_nodes g = Z.of_nat (length toks) /\ num_edges g = Z.of_nat (length toks - 1) /\
  graph_id g = gid /\ graph_type g = GT_HETERO /\ source_id g = sid /\ version g = ver /\
  schema_id g = SCHEMA_WRITING /\ g_features g = None.
Proof. exact (tokens_to_graph_shape_aux db text gid sid ver). Qed.

(** X7: the node flags [tokens_to_graph] gives a token have bit
    [NF_IS_PUNCT], [NF_IS_CAPITALIZED], [NF_SENT_END_STRONG] or
    [NF_SENT_END_WEAK] exactly when the token has [TF_PUNCT], [TF_CAP],
    [TF_SENT_END_STRONG] or [TF_SENT_END_WEAK], and no other bit:
    they are the sum of the four mapped bits. *)
Theorem token_node_flags_bits (f : Z) :
  token_node_flags f =
    (if has_flag f TF_PUNCT then NF_IS_PUNCT else 0) +
    (if has_flag f TF_CAP then NF_IS_CAPITALIZED else 0) +
    (if has_flag f TF_SENT_END_STRONG then NF_SENT_END_STRONG else 0) +
    (if has_flag f TF_SENT_END_WEAK then NF_SENT_END_WEAK else 0) /\
  has_flag (token_node_flags f) NF_IS_PUNCT = has_flag f TF_PUNCT /\
  has_flag (token_node_flags f) NF_IS_CAPITALIZED = has_flag f TF_CAP /\
  has_flag (token_node_flags f) NF_SENT_END_STRONG = has_flag f TF_SENT_END_STRONG /\
  has_flag (token_node_flags f) NF_SENT_END_WEAK = has_flag f TF_SENT_END_WEAK.
Proof.
  unfold token_node_flags.
  destruct (has_flag f TF_PUNCT), (has_flag f TF_CAP), (has_flag f TF_SENT_END_STRONG),
    (has_flag f TF_SENT_END_WEAK); vm_compute; split_and!; reflexivity.
Qed.

Lemma toks_from_length (text : list Z) (k lo : nat) (l : list Token.t) :
  toks_from text k lo l -> (lo <= length text)%nat -> (length l + lo <= length text)%nat.
Proof.
  revert k lo; induction l as [|t l IH]; intros k lo Hl Hlo; simpl; [lia|].
  destruct Hl as (_ & Hs & He & _ & Hl). specialize (IH _ _ Hl He). lia.
Qed.

Lemma toks_from_ends (text : list Z) (k lo : nat) (l : list Token.t) :
  toks_from text k lo l ->
  Forall (fun t => (Token.start t < Token.end_ t <= length text)%nat) l.
Proof.
  revert k lo; induction l as [|t l IH]; intros k lo Hl; [constructor|].
  destruct Hl as (_ & Hs & He & _ & Hl). constructor; [lia | eapply IH; eauto].
Qed.

Lemma token_node_flags_range (f : Z) : 0 <= token_node_flags f < 256.
Proof.
  unfold token_node_flags.
  destruct (has_flag f TF_PUNCT), (has_flag f TF_CAP), (has_flag f TF_SENT_END_STRONG),
    (has_flag f TF_SENT_END_WEAK); vm_compute; split; (reflexivity || discriminate).
Qed.

Lemma token_nodes_ok (text : list Z) (k : nat) (toks : list Token.t) :
  Z.of_nat (k + length toks) <= VARINT_BOUND -> Z.of_nat (length text) < VARINT_BOUND ->
  Forall (fun t => (Token.start t < Token.end_ t <= length text)%nat) toks ->
  Forall node_ok (token_nodes k toks).
Proof.
  revert k; induction toks as [|t toks IH]; intros k Hk Htext Hends; simpl; [constructor|].
  apply Forall_cons in Hends as [He Hends]. simpl in Hk.
  constructor.
  - pose proof (token_node_flags_range (Token.flags t)).
    unfold node_ok, token_node, varint_ok, byte_ok, u16_ok, NT_TOKEN; cbn.
    split_and!; lia.
  - apply IH; [lia | exact Htext | exact Hends].
Qed.

Lemma next_edges_ok (n : nat) :
  Z.of_nat n < VARINT_BOUND -> Forall edge_ok (map next_edge (seq 0 (n - 1))).
Proof.
  intros Hn. apply Forall_map, Forall_forall. intros k Hk. apply elem_of_seq in Hk.
  unfold edge_ok, next_edge, varint_ok, byte_ok, u16_ok, ET_NEXT, EF_DIRECTED; cbn.
  split_and!; lia.
Qed.

Lemma tokens_to_graph_ok (db : UnicodeDB) (text : list Z) (gid sid ver : Z) :
  Z.of_nat (length text) < VARINT_BOUND -> varint_ok gid -> varint_ok sid -> varint_ok ver ->
  graph_ok (tokens_to_graph db text gid sid ver).
Proof.
  intros Htext Hgid Hsid Hver.
  destruct (tokens_to_graph_shape_aux db text gid sid ver) as
    (Hn & He & Hnn & Hne & Hg & Ht & Hs & Hv & Hsc & Hf).
  destruct (tokenize_spans_aux db text) as [Hsp _].
  pose proof (toks_from_length _ _ _ _ Hsp ltac:(lia)) as Hlen.
  pose proof (toks_from_ends _ _ _ _ Hsp) as Hends.
  unfold graph_ok. rewrite Hn, He, Hnn, Hne, Hg, Ht, Hs, Hv, Hsc, Hf.
  rewrite length_token_nodes, length_map, length_seq.
  unfold varint_ok, byte_ok, GT_HETERO, SCHEMA_WRITING in *.
  split_and!; try lia.
  - apply (token_nodes_ok text); [simpl; lia | exact Htext | exact Hends].
  - apply next_edges_ok. lia.
  - exact I.
Qed.

(** X8: for a text shorter than [2^70] characters and graph, source and
    version ids in the varint range, [encode_pgraph(tokens_to_graph(text, ...))]
    succeeds and [decode_pgraph] of its bytes gives back exactly the graph
    [tokens_to_graph] built. *)
Theorem tokens_to_graph_roundtrip (db : UnicodeDB) (text : list Z) (gid sid ver : Z) :
  Z.of_nat (length text) < VARINT_BOUND -> varint_ok gid -> varint_ok sid -> varint_ok ver ->
  exists bs, encode_pgraph (tokens_to_graph db text gid sid ver) = Ok bs /\
             decode_pgraph bs = Ok (tokens_to_graph db text gid sid ver).
Proof.
  intros Htext Hgid Hsid Hver.
  pose proof (tokens_to_graph_ok db text gid sid ver Htext Hgid Hsid Hver) as Hok.
  exists (pgraph_bytes (tokens_to_graph db text gid sid ver)).
  split; [apply encode_pgraph_ok, Hok|].
  rewrite (decode_pgraph_ok _ Hok).
  destruct (tokens_to_graph_shape_aux db text gid sid ver) as (_ & _ & _ & _ & _ & _ & _ & _ & _ & Hf).
  rewrite Hf. cbn [decoded_features feat_of]. rewrite <- Hf, with_features_same. reflexivity.
Qed.

Lemma tokens_to_graph_roundtrip_witness :
  exists bs, encode_pgraph (tokens_to_graph ascii_db [72; 105; 46] 0 0 1) = Ok bs /\
             decode_pgraph bs = Ok (tokens_to_graph ascii_db [72; 105; 46] 0 0 1).
Proof.
  apply tokens_to_graph_roundtrip; unfold varint_ok, VARINT_BOUND; simpl; lia.
Defined.

(** X9: in the graph [finalize()] returns for any builder reached by
    [GraphBuilder(...)] and [add_node], [add_edge], [set_thumbnail] calls,
    the node at position [k] of [nodes] has [node_id = k]. *)
Theorem built_node_ids (gb : GraphBuilder) :
  built gb ->
  forall (k : nat) (n : Node.t), nodes (finalize gb) !! k = Some n -> Node.node_id n = Z.of_nat k.
Proof.
  simpl. induction 1 as [| gb nt st lid sp fl cf fr Hb IH | gb src dst et w tm fl cf ar Hb IH
                        | gb f Hb IH]; intros k n Hk.
  - discriminate.
  - simpl in Hk. apply lookup_app_Some in Hk as [Hk|[Hge Hk]]; [exact (IH k n Hk)|].
    apply list_lookup_singleton_Some in Hk as [Hk <-]. simpl. f_equal. lia.
  - exact (IH k n Hk).
  - unfold set_thumbnail in Hk. destruct f as [f|]; [destruct (negb _)|]; exact (IH k n Hk).
Qed.

Lemma built_node_ids_witness :
  built (snd (add_node (snd (add_node (graph_builder_init 0 1 5 0 1 None) 1 0 0 (0, 2) 0 255 0))
                1 0 0 (3, 5) 0 255 0)) /\
  Node.node_id (Node.mk 1 1 0 0 (3, 5) 0 255 0) = Z.of_nat 1.
Proof.
  assert (Hb : built (snd (add_node (snd (add_node (graph_builder_init 0 1 5 0 1 None)
                  1 0 0 (0, 2) 0 255 0)) 1 0 0 (3, 5) 0 255 0)))
    by (repeat constructor).
  split; [exact Hb|]. apply (built_node_ids _ Hb 1). reflexivity.
Defined.

(** X10: [add_node] and [add_edge] only append: the id each returns is the
    position of the new node or edge in the [finalize()] graph of the updated
    builder, every node and edge already there stays at its position, and the
    node count or edge count grows by one. *)
Theorem add_returns_position (gb : GraphBuilder) :
  (forall nt st lid sp fl cf fr,
     let '(r, gb') := add_node gb nt st lid sp fl cf fr in
     r = Z.of_nat (length (nodes (finalize gb))) /\
     nodes (finalize gb') !! Z.to_nat r = Some (Node.mk r nt st fr sp fl cf lid) /\
     (forall k, (k < length (nodes (finalize gb)))%nat ->
        nodes (finalize gb') !! k = nodes (finalize gb) !! k) /\
     num_nodes (finalize gb') = num_nodes (finalize gb) + 1 /\
     edges (finalize gb') = edges (finalize gb)) /\
  (forall src dst et w tm fl cf ar,
     let '(r, gb') := add_edge gb src dst et w tm fl cf ar in
     r = Z.of_nat (length (edges (finalize gb))) /\
     edges (finalize gb') !! Z.to_nat r = Some (Edge.mk src dst et w tm fl cf ar) /\
     (forall k, (k < length (edges (finalize gb)))%nat ->
        edges (finalize gb') !! k = edges (finalize gb) !! k) /\
     num_edges (finalize gb') = num_edges (finalize gb) + 1 /\
     nodes (finalize gb') = nodes (finalize gb)).
Proof.
  split.
  - intros. simpl. rewrite Nat2Z.id, length_app. simpl. split_and!.
    + reflexivity.
    + rewrite lookup_app_r, Nat.sub_diag by lia. reflexivity.
    + intros k Hk. apply lookup_app_l. exact Hk.
    + lia.
    + reflexivity.
  - intros. simpl. rewrite length_app. simpl.
    replace (Z.of_nat (length (gb_edges gb) + 1) - 1) with (Z.of_nat (length (gb_edges gb)))
      by lia.
    rewrite Nat2Z.id. split_and!.
    + reflexivity.
    + rewrite lookup_app_r, Nat.sub_diag by lia. reflexivity.
    + intros k Hk. apply lookup_app_l. exact Hk.
    + lia.
    + reflexivity.
Qed.

(* ------------------------------------------------------------------ *)
(** ** segment *)

Lemma segment_tokens_tiles (tokens : list Token.t) :
  tiles (segment_tokens tokens) 0 (length tokens).
Proof.
  unfold segment_tokens.
  destruct (length tokens =? 0)%nat eqn:Hn; [apply Nat.eqb_eq in Hn; rewrite Hn; reflexivity|].
  pose proof (seg_loop_tiles tokens (length tokens) 0 0 [] eq_refl ltac:(lia)) as H.
  destruct (seg_loop tokens (length tokens) 0 0 []) as [s spans].
  destruct H as [Ht Hs].
  destruct (s <? length tokens)%nat eqn:Hlt.
  - apply tiles_snoc; [exact Ht | apply Nat.ltb_lt; exact Hlt].
  - apply Nat.ltb_ge in Hlt. assert (s = length tokens) as <- by lia. exact Ht.
Qed.

Lemma tiles_le (spans : list (nat * nat)) (a b : nat) : tiles spans a b -> (a <= b)%nat.
Proof.
  revert a; induction spans as [|[x y] spans IH]; intros a Ht; simpl in Ht; [lia|].
  destruct Ht as (-> & Hxy & Ht). apply IH in Ht. lia.
Qed.

Lemma toks_from_lookup (text : list Z) (k lo : nat) (l : list Token.t) (i : nat) (t : Token.t) :
  toks_from text k lo l -> l !! i = Some t ->
  (lo <= Token.start t < Token.end_ t)%nat /\ (Token.end_ t <= length text)%nat.
Proof.
  revert k lo i; induction l as [|u l IH]; intros k lo i Hl Hi; [discriminate|].
  destruct Hl as (_ & Hs & He & _ & Hl). destruct i as [|i].
  - injection Hi as <-. lia.
  - specialize (IH _ _ _ Hl Hi). lia.
Qed.

Lemma toks_from_order (text : list Z) (k lo : nat) (l : list Token.t) (i j : nat)
    (ti tj : Token.t) :
  toks_from text k lo l -> l !! i = Some ti -> l !! j = Some tj -> (i < j)%nat ->
  (Token.end_ ti <= Token.start tj)%nat.
Proof.
  revert k lo i j; induction l as [|u l IH]; intros k lo i j Hl Hi Hj Hij; [discriminate|].
  destruct Hl as (_ & Hs & He & _ & Hl). destruct i as [|i], j as [|j]; try lia.
  - injection Hi as <-. simpl in Hj.
    pose proof (toks_from_lookup _ _ _ _ _ _ Hl Hj). lia.
  - simpl in Hi, Hj. apply (IH _ _ i j Hl Hi Hj). lia.
Qed.

Lemma segment_spans_ok (text : list Z) (toks : list Token.t) (spans : list (nat * nat))
    (a b lo : nat) :
  toks_from text 0 0 toks -> tiles spans a b -> (b <= length toks)%nat ->
  (forall t, toks !! a = Some t -> (lo <= Token.start t)%nat) ->
  exists out, segment_spans toks spans = Ok out /\ length out = length spans /\
    ordered_spans text lo out /\
    (forall k t, (a <= k < b)%nat -> toks !! k = Some t ->
       exists s e, (s, e) ∈ out /\ (s <= Token.start t)%nat /\ (Token.end_ t <= e)%nat).
Proof.
  intros Htoks. revert a lo; induction spans as [|[x y] spans IH]; intros a lo Ht Hb Hlo.
  - simpl in Ht. subst b. exists []. split_and!; [reflexivity | reflexivity | exact I |].
    intros; lia.
  - simpl in Ht. destruct Ht as (<- & Hxy & Ht). pose proof (tiles_le _ _ _ Ht) as Hyb.
    cbn [segment_spans].
    destruct (Nat.leb_spec y x) as [Hle|_]; [lia|].
    destruct (toks !! x) as [ta|] eqn:Ha;
      [|apply lookup_ge_None_1 in Ha; lia].
    destruct (toks !! (y - 1)%nat) as [tb|] eqn:Hb';
      [|apply lookup_ge_None_1 in Hb'; lia].
    pose proof (toks_from_lookup _ _ _ _ _ _ Htoks Ha) as [Hsa Hea].
    pose proof (toks_from_lookup _ _ _ _ _ _ Htoks Hb') as [Hsb Heb].
    assert (Hab : (Token.start ta < Token.end_ tb)%nat).
    { destruct (decide (x = y - 1)%nat) as [E|E].
      - rewrite E, Hb' in Ha. injection Ha as ->. lia.
      - pose proof (toks_from_order _ _ _ _ x (y - 1) _ _ Htoks Ha Hb' ltac:(lia)). lia. }
    destruct (IH y (Token.end_ tb) Ht Hb) as (out & Hout & Hlen & Hord & Hcov).
    { intros t Ht'. apply (toks_from_order _ _ _ _ (y - 1) y _ _ Htoks Hb' Ht'). lia. }
    rewrite Hout. exists ((Token.start ta, Token.end_ tb) :: out).
    split_and!; [reflexivity | simpl; lia | simpl; split_and!; auto; apply Hlo; exact Ha |].
    intros k t Hk Htk. destruct (decide (k < y)%nat) as [Hky|Hky].
    + exists (Token.start ta), (Token.end_ tb). split; [left|].
      pose proof (toks_from_lookup _ _ _ _ _ _ Htoks Htk).
      split.
      * destruct (decide (k = x)) as [->|Hkx]; [rewrite Ha in Htk; injection Htk as ->; lia|].
        pose proof (toks_from_order _ _ _ _ x k _ _ Htoks Ha Htk ltac:(lia)). lia.
      * destruct (decide (k = y - 1)%nat) as [->|Hky1];
          [rewrite Hb' in Htk; injection Htk as ->; lia|].
        pose proof (toks_from_order _ _ _ _ k (y - 1) _ _ Htoks Htk Hb' ltac:(lia)). lia.
    + destruct (Hcov k t ltac:(lia) Htk) as (s & e & Hin & Hs & He).
      exists s, e. split; [right; exact Hin | auto].
Qed.

(** X11: [segment(text)] never raises: it returns one character span per
    token span of [segment_tokens(tokenize(text))], the spans are non-empty,
    in order, non-overlapping and within the text, and every token of
    [tokenize(text)] lies inside one of them. *)
Theorem segment_spans_ordered (db : UnicodeDB) (text : list Z) :
  exists out, segment db text = Ok out /\
    length out = length (segment_tokens (tokenize db text)) /\
    ordered_spans text 0 out /\
    (forall k t, tokenize db text !! k = Some t ->
       exists s e, (s, e) ∈ out /\ (s <= Token.start t)%nat /\ (Token.end_ t <= e)%nat).
Proof.
  destruct (tokenize_spans_aux db text) as [Hsp _].
  destruct (segment_spans_ok text (tokenize db text) (segment_tokens (tokenize db text))
              0 (length (tokenize db text)) 0 Hsp (segment_tokens_tiles _) ltac:(lia)
              ltac:(intros; lia)) as (out & Hout & Hlen & Hord & Hcov).
  exists out. unfold segment. split_and!; auto.
  intros k t Ht. apply (Hcov k t); [|exact Ht]. apply lookup_lt_Some in Ht. lia.
Qed.

(* ------------------------------------------------------------------ *)
(** ** pack_bits *)

Lemma land_idem (x m : Z) : Z.land (Z.land x m) m = Z.land x m.
Proof. rewrite <- Z.land_assoc, Z.land_diag. reflexivity. Qed.

Lemma pack_bits_masked (pos tense num per : Z) :
  pack_bits pos tense num per =
  pack_bits (Z.land pos 15) (Z.land tense 3) (Z.land num 3) (Z.land per 3).
Proof. unfold pack_bits. rewrite !land_idem. reflexivity. Qed.

Lemma pack_fields_all :
  forallb (fun a => forallb (fun b => forallb (fun c => forallb (fun d =>
    pack_fields_ok (Z.of_nat a) (Z.of_nat b) (Z.of_nat c) (Z.of_nat d))
    (seq 0 4)) (seq 0 4)) (seq 0 4)) (seq 0 16) = true.
Proof. vm_compute. reflexivity. Qed.

Lemma land_mask_range (x : Z) (k : nat) :
  0 <= Z.land x (2 ^ Z.of_nat k - 1) < 2 ^ Z.of_nat k.
Proof.
  replace (2 ^ Z.of_nat k - 1) with (Z.ones (Z.of_nat k)) by (rewrite Z.ones_equiv; lia).
  rewrite Z.land_ones by lia. apply Z.mod_pos_bound. apply Z.pow_pos_nonneg; lia.
Qed.

Lemma nat_of_range (z : Z) (n : nat) :
  0 <= z < Z.of_nat n -> exists a, (a < n)%nat /\ z = Z.of_nat a.
Proof. intros H. exists (Z.to_nat z). split; lia. Qed.

Lemma pack_bits_fields_aux (pos tense num per : Z) :
  let x := pack_bits pos tense num per in
  0 <= x < 1024 /\ Z.land x 15 = Z.land pos 15 /\ Z.land (Z.shiftr x 4) 3 = Z.land tense 3 /\
  Z.land (Z.shiftr x 6) 3 = Z.land num 3 /\ Z.land (Z.shiftr x 8) 3 = Z.land per 3.
Proof.
  intros x. subst x. rewrite pack_bits_masked.
  assert (Hp : 0 <= Z.land pos 15 < Z.of_nat 16) by exact (land_mask_range pos 4).
  assert (Ht : 0 <= Z.land tense 3 < Z.of_nat 4) by exact (land_mask_range tense 2).
  assert (Hn : 0 <= Z.land num 3 < Z.of_nat 4) by exact (land_mask_range num 2).
  assert (He : 0 <= Z.land per 3 < Z.of_nat 4) by exact (land_mask_range per 2).
  destruct (nat_of_range _ 16 Hp) as (a & Ha & ->).
  destruct (nat_of_range _ 4 Ht) as (b & Hb & ->).
  destruct (nat_of_range _ 4 Hn) as (c & Hc & ->).
  destruct (nat_of_range _ 4 He) as (d & Hd & ->).
  pose proof pack_fields_all as H.
  apply forallb_forall with (x := a) in H; [|apply in_seq; lia].
  apply forallb_forall with (x := b) in H; [|apply in_seq; lia].
  apply forallb_forall with (x := c) in H; [|apply in_seq; lia].
  apply forallb_forall with (x := d) in H; [|apply in_seq; lia].
  unfold pack_fields_ok in H. rewrite !andb_true_iff, !Z.leb_le, !Z.ltb_lt, !Z.eqb_eq in H.
  destruct H as (((((H0 & H1) & H2) & H3) & H4) & H5). split_and!; auto.
Qed.

(** X12: [pack_bits(pos, tense, num, per)] is a 10-bit value from which
    the four fields can be read back: bits 0..3 hold [pos & 0xF], bits 4..5
    [tense & 3], bits 6..7 [num & 3] and bits 8..9 [per & 3]. *)
Theorem pack_bits_fields (pos tense num per : Z) :
  let x := pack_bits pos tense num per in
  0 <= x < 1024 /\ Z.land x 15 = Z.land pos 15 /\ Z.land (Z.shiftr x 4) 3 = Z.land tense 3 /\
  Z.land (Z.shiftr x 6) 3 = Z.land num 3 /\ Z.land (Z.shiftr x 8) 3 = Z.land per 3.
Proof. apply pack_bits_fields_aux. Qed.

(* ------------------------------------------------------------------ *)
(** ** Vocab.get_str *)

Lemma get_str_wf (v : Vocab) (s : list Z) (i : Z) :
  vocab_wf v -> tok2id v !! s = Some i ->
  get_str v i = s /\ 1 <= i <= Z.of_nat (length (id2tok v)).
Proof.
  intros Hwf Hi. apply Hwf in Hi as (n & -> & Hn).
  pose proof (lookup_lt_Some _ _ _ Hn) as Hlt.
  unfold get_str.
  destruct (Z.leb_spec (Z.of_nat n + 1) 0); [lia|].
  destruct (Z.ltb_spec (Z.of_nat (length (id2tok v))) (Z.of_nat n + 1)); [lia|].
  simpl. replace (Z.to_nat (Z.of_nat n + 1 - 1)) with n by lia. rewrite Hn. split; [reflexivity | lia].
Qed.

Lemma get_id_appends (v : Vocab) (s : list Z) :
  exists suf, id2tok (snd (get_id v s)) = id2tok v ++ suf.
Proof.
  unfold get_id. destruct (tok2id v !! s); simpl; [exists []; rewrite app_nil_r|eexists];
    reflexivity.
Qed.

Lemma get_str_app (v v' : Vocab) (suf : list (list Z)) (j : Z) :
  id2tok v' = id2tok v ++ suf -> 1 <= j <= Z.of_nat (length (id2tok v)) ->
  get_str v' j = get_str v j.
Proof.
  intros Hv Hj. unfold get_str. rewrite Hv, length_app.
  destruct (Z.leb_spec j 0); [lia|].
  destruct (Z.ltb_spec (Z.of_nat (length (id2tok v) + length suf)) j); [lia|].
  destruct (Z.ltb_spec (Z.of_nat (length (id2tok v))) j); [lia|]. simpl.
  rewrite lookup_app_l by lia. reflexivity.
Qed.

(** X13: on a consistent vocabulary, [get_str] inverts [get_id]: the id
    [get_id(s)] returns lies in [1 .. len(_id2tok)] and [get_str] of it gives
    [s] back; the call leaves the string of every id it already knew
    unchanged. *)
Theorem get_id_get_str (v : Vocab) (s : list Z) :
  vocab_wf v ->
  let '(i, v') := get_id v s in
  get_str v' i = s /\ 1 <= i <= Z.of_nat (length (id2tok v')) /\
  (forall j, 1 <= j <= Z.of_nat (length (id2tok v)) -> get_str v' j = get_str v j).
Proof.
  intros Hwf. pose proof (get_id_spec v s Hwf) as Hs.
  destruct (get_id_appends v s) as [suf Hsuf].
  destruct (get_id v s) as [i v'] eqn:E. simpl in Hsuf.
  destruct Hs as (Hwf' & Hi & _).
  destruct (get_str_wf v' s i Hwf' Hi) as [Hstr Hrange].
  split_and!; try assumption; try lia.
  intros j Hj. apply (get_str_app v v' suf j Hsuf Hj).
Qed.

Lemma get_id_get_str_witness :
  vocab_wf vocab_new /\ get_str (snd (get_id vocab_new [97])) (fst (get_id vocab_new [97])) = [97].
Proof.
  pose proof vocab_new_wf as Hwf. split; [exact Hwf|].
  pose proof (get_id_get_str vocab_new [97] Hwf) as H.
  destruct (get_id vocab_new [97]) as [i v'] eqn:E. simpl. apply H.
Defined.

(* ------------------------------------------------------------------ *)
(** ** _strip_possessive and _lemma_guess *)

Lemma ends_with_split (suf s : list Z) :
  ends_with suf s = true -> s = drop_last (length suf) s ++ suf.
Proof.
  unfold ends_with, drop_last. intros H. apply andb_true_iff in H as [H _].
  apply bool_decide_eq_true in H. rewrite <- H at 2. symmetry. apply take_drop.
Qed.

Lemma norm_apostrophes_no_curly (s : list Z) :
  Forall (fun c => c <> 8216 /\ c <> 8217) (_norm_apostrophes s).
Proof.
  unfold _norm_apostrophes. rewrite map_map. apply Forall_map, Forall_forall. intros c _.
  destruct (Z.eqb_spec c 8217) as [->|H1]; simpl; [split; lia|].
  destruct (Z.eqb_spec c 8216); simpl; lia.
Qed.

Lemma norm_apostrophes_idem (s : list Z) :
  _norm_apostrophes (_norm_apostrophes s) = _norm_apostrophes s.
Proof.
  unfold _norm_apostrophes. rewrite !map_map. apply map_ext. intros c.
  destruct (Z.eqb_spec c 8217) as [->|H1]; [reflexivity|].
  destruct (Z.eqb_spec c 8216) as [->|H2]; [reflexivity|].
  rewrite (proj2 (Z.eqb_neq c 8217) H1), (proj2 (Z.eqb_neq c 8216) H2). reflexivity.
Qed.

Lemma Forall_drop_last {P : Z -> Prop} (k : nat) (s : list Z) :
  Forall P s -> Forall P (drop_last k s).
Proof. unfold drop_last. apply Forall_take. Qed.

(** X14: [_strip_possessive(s)] is [s] with its curly apostrophes made
    straight and then at most one trailing ['s] or ['] cut off (['s] when
    both apply); the result holds no curly apostrophe, and when nothing was
    cut it ends in neither ['] nor ['s].  Normalising the input first, as
    [analyze_tokens] does, changes nothing. *)
Theorem strip_possessive_shape (s : list Z) :
  let r := _strip_possessive s in
  Forall (fun c => c <> 8216 /\ c <> 8217) r /\
  (exists suf, _norm_apostrophes s = r ++ suf /\
     (suf = [39; 115] \/
      (suf = [39] /\ ends_with [39; 115] (_norm_apostrophes s) = false) \/
      (suf = [] /\ ends_with [39; 115] r = false /\ ends_with [39] r = false))) /\
  _strip_possessive (_norm_apostrophes s) = r.
Proof.
  intros r. subst r. unfold _strip_possessive. rewrite norm_apostrophes_idem.
  pose proof (norm_apostrophes_no_curly s) as Hnc.
  set (s2 := _norm_apostrophes s) in *.
  destruct (ends_with [39; 115] s2) eqn:E1; [|destruct (ends_with [39] s2) eqn:E2].
  - split_and!; [apply Forall_drop_last, Hnc| |reflexivity].
    exists [39; 115]. split; [apply (ends_with_split [39; 115]), E1 | left; reflexivity].
  - split_and!; [apply Forall_drop_last, Hnc| |reflexivity].
    exists [39]. split; [apply (ends_with_split [39]), E2 | right; left; auto].
  - split_and!; [exact Hnc| |reflexivity].
    exists []. rewrite app_nil_r. split; [reflexivity | right; right; auto].
Qed.

(** X15: [_lemma_guess(lower)] cuts at most one suffix [ing], [ed] or [s]
    off [lower]: the result followed by the cut suffix is [lower]; a word of
    at most three characters comes back unchanged, and the result keeps at
    least [min(len(lower), 2)] characters, so it is empty only for the
    empty word. *)
Theorem lemma_guess_shape (lower : list Z) :
  let r := _lemma_guess lower in
  (exists suf, (suf = [] \/ suf = [105; 110; 103] \/ suf = [101; 100] \/ suf = [115]) /\
               lower = r ++ suf) /\
  ((length lower <= 3)%nat -> r = lower) /\
  (Nat.min (length lower) 2 <= length r)%nat.
Proof.
  intros r. subst r. unfold _lemma_guess.
  destruct (ends_with [105; 110; 103] lower && (4 <? length lower)%nat) eqn:E1;
    [apply andb_true_iff in E1 as [E1 L1]; apply Nat.ltb_lt in L1|].
  { split_and!.
    - exists [105; 110; 103]. split; [auto | apply (ends_with_split [105; 110; 103]), E1].
    - lia.
    - unfold drop_last. rewrite length_take. lia. }
  destruct (ends_with [101; 100] lower && (3 <? length lower)%nat) eqn:E2;
    [apply andb_true_iff in E2 as [E2 L2]; apply Nat.ltb_lt in L2|].
  { split_and!.
    - exists [101; 100]. split; [auto | apply (ends_with_split [101; 100]), E2].
    - lia.
    - unfold drop_last. rewrite length_take. lia. }
  destruct (ends_with [115] lower && (3 <? length lower)%nat &&
            negb (ends_with [115; 115] lower)) eqn:E3;
    [apply andb_true_iff in E3 as [E3 _]; apply andb_true_iff in E3 as [E3 L3];
     apply Nat.ltb_lt in L3|].
  { split_and!.
    - exists [115]. split; [auto | apply (ends_with_split [115]), E3].
    - lia.
    - unfold drop_last. rewrite length_take. lia. }
  split_and!.
  - exists []. rewrite app_nil_r. auto.
  - reflexivity.
  - lia.
Qed.

(* ------------------------------------------------------------------ *)
(** ** analyze_tokens *)

Lemma analyze_token_spec (str_lower : list Z -> list Z) (v : Vocab) (t : Token.t) :
  vocab_wf v ->
  let '(mi, v') := analyze_token str_lower v t in
  vocab_wf v' /\ tok2id v' !! lemma mi = Some (lemma_id mi) /\
  (forall s j, tok2id v !! s = Some j -> tok2id v' !! s = Some j) /\
  Z.land (bits mi) 15 = pos mi /\ In (pos mi) POS_ALL /\
  (has_flag (Token.flags t) TF_PUNCT = true -> pos mi = POS_PUNCT).
Proof.
  intros Hwf. unfold analyze_token. cbv zeta.
  destruct (has_flag (Token.flags t) TF_PUNCT) eqn:Hp.
  { pose proof (get_id_spec v (_strip_possessive (_norm_apostrophes (Token.text t))) Hwf) as H.
    destruct (get_id _ _) as [i v']. destruct H as (H1 & H2 & H3). cbn.
    refine (conj H1 (conj H2 (conj H3 (conj _ (conj _ _)))));
      [vm_compute; reflexivity | simpl; tauto | auto]. }
  assert (Hentry : forall lm p b st, p <> POS_PUNCT -> In p POS_ALL -> Z.land b 15 = p ->
    let '(mi, v') := let '(i, v') := get_id v lm in (mkMorphInfo lm i p b st, v') in
    vocab_wf v' /\ tok2id v' !! lemma mi = Some (lemma_id mi) /\
    (forall s j, tok2id v !! s = Some j -> tok2id v' !! s = Some j) /\
    Z.land (bits mi) 15 = pos mi /\ In (pos mi) POS_ALL /\
    (false = true -> pos mi = POS_PUNCT)).
  { intros lm p b st Hne Hin Hb. pose proof (get_id_spec v lm Hwf) as H.
    destruct (get_id v lm) as [i v']. destruct H as (H1 & H2 & H3). cbn.
    refine (conj H1 (conj H2 (conj H3 (conj Hb (conj Hin _))))). discriminate. }
  repeat match goal with
  | |- context [if ?b then _ else _] =>
      lazymatch b with
      | context [get_id] => fail
      | _ => destruct b
      end
  end;
  try (apply Hentry; [discriminate | simpl; tauto | vm_compute; reflexivity]).
  all: match goal with |- context [aux_lookup ?x] =>
         destruct (aux_lookup x) as [[[[lm tn] nu] pe]|] end.
  all: apply Hentry; [discriminate | simpl; tauto |].
  all: first [vm_compute; reflexivity
             | destruct (pack_bits_fields_aux POS_AUX tn nu pe) as (_ & H15 & _);
               rewrite H15; reflexivity].
Qed.

Lemma analyze_tokens_spec (str_lower : list Z -> list Z) (v : Vocab) (toks : list Token.t) :
  vocab_wf v ->
  let '(out, v') := analyze_tokens str_lower v toks in
  length out = length toks /\ vocab_wf v' /\
  (forall s j, tok2id v !! s = Some j -> tok2id v' !! s = Some j) /\
  (forall k mi, out !! k = Some mi ->
     tok2id v' !! lemma mi = Some (lemma_id mi) /\ Z.land (bits mi) 15 = pos mi /\
     In (pos mi) POS_ALL) /\
  (forall k t mi, toks !! k = Some t -> out !! k = Some mi ->
     has_flag (Token.flags t) TF_PUNCT = true -> pos mi = POS_PUNCT).
Proof.
  revert v; induction toks as [|t toks IH]; intros v Hwf; simpl.
  - split_and!; auto; intros; discriminate.
  - pose proof (analyze_token_spec str_lower v t Hwf) as Ht.
    destruct (analyze_token str_lower v t) as [mi v1].
    destruct Ht as (Hwf1 & Hl1 & Hk1 & Hb1 & Hp1 & Hpu1).
    specialize (IH v1 Hwf1).
    destruct (analyze_tokens str_lower v1 toks) as [out v2].
    destruct IH as (Hlen & Hwf2 & Hk2 & Hall & Hpu).
    split_and!; auto.
    + simpl; lia.
    + intros [|k] mi' Hk; simpl in Hk.
      * injection Hk as <-. split_and!; auto.
      * exact (Hall k mi' Hk).
    + intros [|k] t' mi' Htk Hk; simpl in Htk, Hk.
      * injection Htk as <-. injection Hk as <-. exact Hpu1.
      * exact (Hpu k t' mi' Htk Hk).
Qed.

(** X16: [analyze_tokens(tokens, vocab)] on a consistent vocabulary returns
    one entry per token and leaves the vocabulary consistent, keeping every
    id it had; each entry's [lemma_id] is the id the final vocabulary holds
    for its lemma, so two entries have the same [lemma_id] exactly when they
    have the same lemma; each [pos] is one of the ten POS codes the function
    uses and equals [bits & 0xF]; and a token with [TF_PUNCT] gets
    [POS.PUNCT]. *)
Theorem analyze_tokens_entries (str_lower : list Z -> list Z) (v : Vocab) (toks : list Token.t) :
  vocab_wf v ->
  let '(out, v') := analyze_tokens str_lower v toks in
  length out = length toks /\ vocab_wf v' /\
  (forall s j, tok2id v !! s = Some j -> tok2id v' !! s = Some j) /\
  (forall k mi, out !! k = Some mi ->
     tok2id v' !! lemma mi = Some (lemma_id mi) /\ Z.land (bits mi) 15 = pos mi /\
     In (pos mi) POS_ALL) /\
  (forall k k' mi mi', out !! k = Some mi -> out !! k' = Some mi' ->
     (lemma_id mi = lemma_id mi' <-> lemma mi = lemma mi')) /\
  (forall k t mi, toks !! k = Some t -> out !! k = Some mi ->
     has_flag (Token.flags t) TF_PUNCT = true -> pos mi = POS_PUNCT).
Proof.
  intros Hwf. pose proof (analyze_tokens_spec str_lower v toks Hwf) as H.
  destruct (analyze_tokens str_lower v toks) as [out v'].
  destruct H as (Hlen & Hwf' & Hkeep & Hall & Hpu).
  split_and!; auto.
  intros k k' mi mi' Hk Hk'.
  destruct (Hall k mi Hk) as (H1 & _). destruct (Hall k' mi' Hk') as (H2 & _).
  split.
  - intros Hid. rewrite Hid in H1.
    apply Hwf' in H1 as (n & Hn & Hs). apply Hwf' in H2 as (n' & Hn' & Hs').
    assert (n = n') as <- by lia. congruence.
  - intros Hlm. rewrite Hlm in H1. congruence.
Qed.

Lemma analyze_tokens_entries_witness :
  vocab_wf vocab_new /\
  length (fst (analyze_tokens (fun s => s) vocab_new (tokenize ascii_db [104; 105; 33]))) = 2%nat.
Proof.
  pose proof vocab_new_wf as Hwf. split; [exact Hwf|].
  pose proof (analyze_tokens_entries (fun s => s) vocab_new
                (tokenize ascii_db [104; 105; 33]) Hwf) as H.
  destruct (analyze_tokens (fun s => s) vocab_new (tokenize ascii_db [104; 105; 33]))
    as [out v'] eqn:E.
  destruct H as (Hlen & _). simpl. rewrite Hlen. vm_compute. reflexivity.
Defined.

(* ------------------------------------------------------------------ *)
(** ** encode_pgraph: when it raises *)

Lemma ok_or_neg_bind {A B} (b c : bool) (m : result A) (k : A -> result B) :
  ok_or_neg b m -> (forall x, ok_or_neg c (k x)) -> ok_or_neg (b && c) (rbind m k).
Proof.
  unfold ok_or_neg. destruct b; simpl.
  - intros [x ->] Hk. exact (Hk x).
  - intros -> _. destruct c; reflexivity.
Qed.

Lemma ok_or_neg_ok {A} (x : A) : ok_or_neg true (Ok x).
Proof. exists x; reflexivity. Qed.

Lemma ok_or_neg_eq {A} (b b' : bool) (r : result A) :
  ok_or_neg b r -> b = b' -> ok_or_neg b' r.
Proof. intros H <-; exact H. Qed.

Lemma put_uvarint_neg (out : list Z) (v : Z) : ok_or_neg (0 <=? v) (put_uvarint out v).
Proof.
  unfold ok_or_neg. destruct (Z.leb_spec 0 v).
  - rewrite put_uvarint_ok by lia. eexists; reflexivity.
  - unfold put_uvarint, uvarint_encode. destruct (Z.ltb_spec v 0); [reflexivity | lia].
Qed.

Lemma encode_node_neg (out : list Z) (n : Node.t) :
  ok_or_neg (node_varints_nonneg n) (encode_node out n).
Proof.
  unfold encode_node. cbv zeta. eapply ok_or_neg_eq.
  - eapply ok_or_neg_bind; [apply put_uvarint_neg | intros ?].
    eapply ok_or_neg_bind; [apply put_uvarint_neg | intros ?].
    eapply ok_or_neg_bind; [apply put_uvarint_neg | intros ?].
    eapply ok_or_neg_bind; [apply put_uvarint_neg | intros ?].
    apply put_uvarint_neg.
  - unfold node_varints_nonneg. rewrite !andb_assoc. reflexivity.
Qed.

Lemma encode_edge_neg (out : list Z) (e : Edge.t) :
  ok_or_neg (edge_varints_nonneg e) (encode_edge out e).
Proof.
  unfold encode_edge. cbv zeta. eapply ok_or_neg_eq.
  - eapply ok_or_neg_bind; [apply put_uvarint_neg | intros ?].
    eapply ok_or_neg_bind; [apply put_uvarint_neg | intros ?].
    eapply ok_or_neg_bind; [apply put_uvarint_neg | intros ?].
    apply put_uvarint_neg.
  - unfold edge_varints_nonneg. rewrite !andb_assoc. reflexivity.
Qed.

Lemma encode_all_neg {A} (f : A -> bool) (enc : list Z -> A -> result (list Z)) :
  (forall out x, ok_or_neg (f x) (enc out x)) ->
  forall xs out, ok_or_neg (forallb f xs) (encode_all enc out xs).
Proof.
  intros Henc xs. induction xs as [|x xs IH]; intros out; simpl; [apply ok_or_neg_ok|].
  apply ok_or_neg_bind; [apply Henc | intros; apply IH].
Qed.

(** X17: [encode_pgraph(g)] raises exactly when one of the fields it
    writes as a varint is negative (a header id or count, or a node's id,
    features reference, span ends or label, or an edge's ends, time or
    attribute reference), and then with the negative-varint [ValueError];
    the single-byte and 16-bit fields are masked and never make it raise. *)
Theorem encode_pgraph_raises (g : Graph) :
  if graph_varints_nonneg g then exists bs, encode_pgraph g = Ok bs
  else encode_pgraph g = Err ErrNegativeVarint.
Proof.
  change (ok_or_neg (graph_varints_nonneg g) (encode_pgraph g)).
  unfold encode_pgraph. cbv zeta. eapply ok_or_neg_eq.
  - eapply ok_or_neg_bind; [apply put_uvarint_neg | intros ?].
    eapply ok_or_neg_bind; [apply put_uvarint_neg | intros ?].
    eapply ok_or_neg_bind; [apply put_uvarint_neg | intros ?].
    eapply ok_or_neg_bind; [apply put_uvarint_neg | intros ?].
    eapply ok_or_neg_bind; [apply put_uvarint_neg | intros ?].
    eapply ok_or_neg_bind; [apply encode_all_neg, encode_node_neg | intros ?].
    eapply ok_or_neg_bind; [apply encode_all_neg, encode_edge_neg | intros ?].
    eapply ok_or_neg_bind; [apply put_uvarint_neg | intros ?].
    apply ok_or_neg_ok.
  - unfold graph_varints_nonneg.
    replace (0 <=? Z.of_nat (length (match g_features g with Some f => f | None => [] end)))
      with true by (symmetry; apply Z.leb_le; lia).
    rewrite !andb_true_r, !andb_assoc. reflexivity.
Qed.

(* ------------------------------------------------------------------ *)
(** ** decode_pgraph ignores what follows the graph *)

Lemma decode_pgraph_ok_rest (g : Graph) (junk : list Z) :
  graph_ok g ->
  decode_pgraph (pgraph_bytes g ++ junk) =
    Ok (with_features g (decoded_features (g_features g))).
Proof.
  intros Hg.
  destruct g as [gid gt nn ne gf sid ver sch ns es].
  unfold graph_ok, varint_ok, byte_ok in Hg; cbn [graph_id graph_type num_nodes num_edges
    g_features source_id version schema_id nodes edges] in Hg.
  destruct Hg as (Hgid & Hgt & Hnn & Hne & Hnn' & Hne' & Hsid & Hver & Hsch & Hns & Hes & Hgf).
  subst nn ne.
  unfold decode_pgraph, pgraph_bytes; cbn [graph_id graph_type num_nodes num_edges
    g_features source_id version schema_id nodes edges].
  rewrite <- app_assoc.
  rewrite take_app_length' by reflexivity.
  rewrite bool_decide_eq_true_2 by reflexivity. cbn [negb].
  set (buf := PG_MAGIC ++ _).
  assert (H : drop 4 buf = uvarint_bytes gid ++ gt :: uvarint_bytes (Z.of_nat (length ns)) ++
    uvarint_bytes (Z.of_nat (length es)) ++ uvarint_bytes sid ++ uvarint_bytes ver ++
    sch :: concat (map node_bytes ns) ++ concat (map edge_bytes es) ++ feat_bytes gf ++ junk).
  { unfold buf. rewrite drop_app_length' by reflexivity. norm_app. reflexivity. }
  clearbody buf. unfold decode_body.
  do 7 dstep H.
  rewrite Nat2Z.id.
  pose proof (drop_skip _ _ _ _ H) as H'.
  rewrite (dbind_ok _ _ _ _ _
    (decode_many_ok node_ok node_bytes decode_node decode_node_ok ns buf _ _ Hns H)).
  clear H. rename H' into H. pose proof (drop_skip _ _ _ _ H) as H'.
  rewrite Nat2Z.id.
  rewrite (dbind_ok _ _ _ _ _
    (decode_many_ok edge_ok edge_bytes decode_edge decode_edge_ok es buf _ _ Hes H)).
  clear H. rename H' into H.
  rewrite (dbind_ok _ _ _ _ _ (decode_features_ok buf _ gf junk (thumbnail_ok_varint gf Hgf) H)).
  unfold dret, with_features; cbn [graph_id graph_type num_nodes num_edges
    g_features source_id version schema_id nodes edges].
  reflexivity.
Qed.

(** X18: [decode_pgraph] never looks past the end of an encoded graph: on
    the bytes [encode_pgraph(g)] returns for a graph with in-range fields,
    followed by any further bytes, it returns the same graph as on the
    encoded bytes alone. *)
Theorem decode_pgraph_trailing (g : Graph) (bs junk : list Z) :
  graph_ok g -> encode_pgraph g = Ok bs ->
  decode_pgraph (bs ++ junk) = decode_pgraph bs.
Proof.
  intros Hg Henc. rewrite (encode_pgraph_ok g Hg) in Henc. injection Henc as <-.
  rewrite decode_pgraph_ok_rest by exact Hg.
  rewrite <- (app_nil_r (pgraph_bytes g)).
  rewrite decode_pgraph_ok_rest by exact Hg. reflexivity.
Qed.

Lemma decode_pgraph_trailing_witness :
  graph_ok ex_pgraph /\ encode_pgraph ex_pgraph = Ok (pgraph_bytes ex_pgraph) /\
  decode_pgraph (pgraph_bytes ex_pgraph ++ [1; 2; 3]) = decode_pgraph (pgraph_bytes ex_pgraph).
Proof.
  assert (Hg : graph_ok ex_pgraph).
  { unfold graph_ok, ex_pgraph, varint_ok, byte_ok, VARINT_BOUND; cbn.
    split_and!; try lia; repeat constructor; unfold node_ok, edge_ok, varint_ok, byte_ok,
      u16_ok, VARINT_BOUND; cbn; try lia; right; left; reflexivity. }
  assert (He : encode_pgraph ex_pgraph = Ok (pgraph_bytes ex_pgraph)) by (vm_compute; reflexivity).
  split; [exact Hg|]. split; [exact He|].
  exact (decode_pgraph_trailing ex_pgraph _ [1; 2; 3] Hg He).
Defined.

(* ------------------------------------------------------------------ *)
(** ** segment_to_graph *)

Lemma token_nodes_lookup (k : nat) (toks : list Token.t) (i : nat) (t : Token.t) :
  toks !! i = Some t -> token_nodes k toks !! i = Some (token_node (k + i) t).
Proof.
  revert k i; induction toks as [|u toks IH]; intros k [|i] Hi; simpl in *;
    try discriminate.
  - injection Hi as ->. rewrite Nat.add_0_r. reflexivity.
  - rewrite (IH (S k) i Hi). do 2 f_equal. lia.
Qed.

(** X19: the token spans [segment_to_graph(text)] returns tile the node ids
    of the graph it returns: they are consecutive, non-empty and cover
    [0 .. num_nodes) exactly, and node [k] of the graph has id [k] and the
    character span of token [k] of [tokenize(text)]. *)
Theorem segment_to_graph_tiles (db : UnicodeDB) (text : list Z) :
  let '(g, spans) := segment_to_graph db text in
  tiles spans 0 (Z.to_nat (num_nodes g)) /\
  length (nodes g) = Z.to_nat (num_nodes g) /\
  (forall k t, tokenize db text !! k = Some t ->
     exists n, nodes g !! k = Some n /\ Node.node_id n = Z.of_nat k /\
               Node.span n = (Z.of_nat (Token.start t), Z.of_nat (Token.end_ t))).
Proof.
  unfold segment_to_graph.
  destruct (tokens_to_graph_shape_aux db text 0 0 1) as (Hn & _ & Hnn & _).
  rewrite Hnn, Nat2Z.id, Hn, length_token_nodes. split_and!.
  - apply segment_tokens_tiles.
  - reflexivity.
  - intros k t Ht. exists (token_node (0 + k) t). split; [apply token_nodes_lookup, Ht|].
    split; reflexivity.
Qed.
